(** * CodeOwl extension: diff parsing, commit watching and review threads

    A shallow embedding of the TypeScript sources of the extension
    ([GitIntegration.parseDiffText], [GitIntegration.handleRepositoryChange],
    [GitIntegration.analyzeNewCommit] and the [CommentManager] class) together
    with the properties the design document states about them. *)

From Stdlib Require Import Ascii String ZArith NArith Lia.
From stdpp Require Import base option list strings pretty gmap.


(** ** JavaScript values used by the sources

    A string is the sequence of its code units; the sources only ever test
    or cut at ASCII characters, so one [ascii] stands for one unit. *)

Module Js.

(** A thrown exception.  [TypeError] is what a property access on [null]
    or [undefined] raises; [HostError] stands for a rejection coming from a
    collaborator (the git extension, the editor, the language model). *)
Inductive exn : Type :=
| TypeError (what : string)
| HostError (what : string).

Inductive result (A : Type) : Type :=
| Ok (a : A)
| Throw (e : exn).
Arguments Ok {A} a.
Arguments Throw {A} e.

#[export] Instance result_ret : MRet result := fun _ a => Ok a.
#[export] Instance result_bind : MBind result := fun _ _ f m =>
  match m with
  | Ok a => f a
  | Throw e => Throw e
  end.

(** [x.prop] on a nullable [x]. *)
Definition deref {A} (what : string) (o : option A) : result A :=
  match o with
  | Some a => Ok a
  | None => Throw (TypeError what)
  end.

(** [if (x)] on a nullable object reference. *)
Definition truthy {A} (o : option A) : bool :=
  match o with
  | Some _ => true
  | None => false
  end.

(** [if (s)] on a nullable string: the empty string is falsy as well. *)
Definition truthy_str (o : option string) : bool :=
  match o with
  | Some s => negb (String.eqb s "")
  | None => false
  end.

(** [a || b] on nullable strings. *)
Definition or_else (a : option string) (b : option string) : option string :=
  if truthy_str a then a else b.

(** [s.startsWith(p)] *)
Definition startsWith (s p : string) : bool := String.prefix p s.

(** [s.substring(n)]: the string without its first [n] code units. *)
Fixpoint substring (n : nat) (s : string) : string :=
  match n, s with
  | O, _ => s
  | S n', String _ s' => substring n' s'
  | S _, EmptyString => EmptyString
  end.

(** [s.split(sep)] for a one-character separator: never empty, and the
    pieces joined by [sep] give [s] back. *)
Fixpoint split (sep : ascii) (s : string) : list string :=
  match s with
  | EmptyString => [EmptyString]
  | String c s' =>
      if Ascii.eqb c sep then EmptyString :: split sep s'
      else match split sep s' with
           | w :: ws => String c w :: ws
           | [] => [String c EmptyString]
           end
  end.

(** *** Numbers

    The numbers of the parser are non-negative integers held in IEEE
    doubles: every integer up to 2^53 is exact, larger ones are rounded to
    the nearest double (ties to even), and from 2^1024 on the value is
    [Infinity]. *)
Inductive number : Type :=
| Num (n : N)
| Infinity.

#[export] Instance number_eq_dec : EqDecision number.
Proof. solve_decision. Defined.

(** The Number value of a mathematical natural number. *)
Definition to_number (n : N) : number :=
  if (n <? 2 ^ 53)%N then Num n
  else
    let e := (N.log2 n - 52)%N in
    let q := N.shiftr n e in
    let r := (n mod 2 ^ e)%N in
    let half := (2 ^ (e - 1))%N in
    let q' := if (r <? half)%N then q
              else if (half <? r)%N then (q + 1)%N
              else if N.even q then q else (q + 1)%N in
    let v := N.shiftl q' e in
    if (2 ^ 1024 <=? v)%N then Infinity else Num v.

(** [x++] (the value stored back into [x]). *)
Definition incr (x : number) : number :=
  match x with
  | Num n => to_number (n + 1)
  | Infinity => Infinity
  end.

Definition is_digit (c : ascii) : bool :=
  let n := nat_of_ascii c in (48 <=? n)%nat && (n <=? 57)%nat.

Definition digit_value (c : ascii) : N := (N_of_ascii c - 48)%N.

Fixpoint decimal_value (acc : N) (s : string) : N :=
  match s with
  | EmptyString => acc
  | String c s' => decimal_value (10 * acc + digit_value c)%N s'
  end.

(** [parseInt(s)] for a string of decimal digits (the only strings the
    parser passes to it): the value of the digits, correctly rounded, which
    is what the engine of the editor computes. *)
Definition parseInt (s : string) : number := to_number (decimal_value 0 s).

(** *** The hunk-header pattern
    [/@@ -(\d+)(?:,(\d+))? \+(\d+)(?:,(\d+))? @@/]

    [\d+] is greedy and is followed in the pattern by a character that is
    not a digit, and the optional group starts with a comma where the
    pattern otherwise wants a space, so backtracking never finds a match
    that the one greedy pass below misses. *)

(** The longest prefix of digits and what follows it. *)
Fixpoint span_digits (s : string) : string * string :=
  match s with
  | EmptyString => (EmptyString, EmptyString)
  | String c s' =>
      if is_digit c then
        let '(d, r) := span_digits s' in (String c d, r)
      else (EmptyString, s)
  end.

(** [p] followed by the rest, when [s] starts with [p]. *)
Fixpoint strip_prefix (p s : string) : option string :=
  match p, s with
  | EmptyString, _ => Some s
  | String a p', String b s' => if Ascii.eqb a b then strip_prefix p' s' else None
  | String _ _, EmptyString => None
  end.

(** [(\d+)] *)
Definition digits1 (s : string) : option (string * string) :=
  let '(d, r) := span_digits s in
  if String.eqb d "" then None else Some (d, r).

(** [(?:,(\d+))?] *)
Definition opt_count (s : string) : option string * string :=
  match strip_prefix "," s with
  | Some s' =>
      match digits1 s' with
      | Some (d, r) => (Some d, r)
      | None => (None, s)
      end
  | None => (None, s)
  end.

(** The capture groups of a successful match. *)
Record HunkMatch : Type := {
  group1 : string;
  group2 : option string;
  group3 : string;
  group4 : option string
}.

(** A match of the pattern starting at the first character of [s]. *)
Definition match_here (s : string) : option HunkMatch :=
  s1 ← strip_prefix "@@ -" s;
  '(g1, s2) ← digits1 s1;
  let '(g2, s3) := opt_count s2 in
  s4 ← strip_prefix " +" s3;
  '(g3, s5) ← digits1 s4;
  let '(g4, s6) := opt_count s5 in
  _ ← strip_prefix " @@" s6;
  Some {| group1 := g1; group2 := g2; group3 := g3; group4 := g4 |}.

(** [line.match(pattern)]: the leftmost match anywhere in the line. *)
Fixpoint hunk_header_match (s : string) : option HunkMatch :=
  match match_here s with
  | Some m => Some m
  | None =>
      match s with
      | EmptyString => None
      | String _ s' => hunk_header_match s'
      end
  end.

End Js.

(** ** The diff parser: [GitIntegration.parseDiffText] *)

Module DiffParser.
Import Js.

(** [DiffLine.type] *)
Inductive LineType : Type := add | remove | context.

#[export] Instance LineType_eq_dec : EqDecision LineType.
Proof. solve_decision. Defined.

(** The values [parseDiffText] gives to [ParsedDiff.status]. *)
Inductive FileStatus : Type := added | modified | deleted.

Record DiffLine : Type := {
  type : LineType;
  content : string;
  oldLineNumber : option number;
  newLineNumber : option number
}.

Record DiffHunk : Type := {
  oldStart : number;
  oldCount : number;
  newStart : number;
  newCount : number;
  lines : list DiffLine
}.

(** [ParsedDiff], over the representation [H] of the entries of [hunks]:
    references into the store while the parser runs, hunk values in the
    result. *)
Record ParsedDiff (H : Type) : Type := {
  filePath : string;
  status : FileStatus;
  hunks : list H;
  addedLines : number;
  removedLines : number
}.
Arguments filePath {H} _.
Arguments status {H} _.
Arguments hunks {H} _.
Arguments addedLines {H} _.
Arguments removedLines {H} _.

(** Hunks are objects: [currentHunk] and the entries of
    [currentFile.hunks] may be one and the same object, and a line pushed
    through [currentHunk] is then seen through the array as well.  The
    store holds the hunk objects created so far; a reference is an index
    into it. *)
Abbreviation ref := nat (only parsing).

(** The local variables of [parseDiffText]. *)
Record Locals : Type := {
  store : list DiffHunk;
  parsedDiffs : list (ParsedDiff ref);
  currentFile : option (ParsedDiff ref);
  currentHunk : option ref;
  oldLineNum : number;
  newLineNum : number
}.

Definition set_store (s : list DiffHunk) (st : Locals) : Locals :=
  {| store := s; parsedDiffs := parsedDiffs st; currentFile := currentFile st;
     currentHunk := currentHunk st; oldLineNum := oldLineNum st;
     newLineNum := newLineNum st |}.

Definition set_parsedDiffs (p : list (ParsedDiff ref)) (st : Locals) : Locals :=
  {| store := store st; parsedDiffs := p; currentFile := currentFile st;
     currentHunk := currentHunk st; oldLineNum := oldLineNum st;
     newLineNum := newLineNum st |}.

Definition set_currentFile (f : option (ParsedDiff ref)) (st : Locals) : Locals :=
  {| store := store st; parsedDiffs := parsedDiffs st; currentFile := f;
     currentHunk := currentHunk st; oldLineNum := oldLineNum st;
     newLineNum := newLineNum st |}.

Definition set_currentHunk (h : option ref) (st : Locals) : Locals :=
  {| store := store st; parsedDiffs := parsedDiffs st; currentFile := currentFile st;
     currentHunk := h; oldLineNum := oldLineNum st;
     newLineNum := newLineNum st |}.

Definition set_oldLineNum (n : number) (st : Locals) : Locals :=
  {| store := store st; parsedDiffs := parsedDiffs st; currentFile := currentFile st;
     currentHunk := currentHunk st; oldLineNum := n;
     newLineNum := newLineNum st |}.

Definition set_newLineNum (n : number) (st : Locals) : Locals :=
  {| store := store st; parsedDiffs := parsedDiffs st; currentFile := currentFile st;
     currentHunk := currentHunk st; oldLineNum := oldLineNum st;
     newLineNum := n |}.

(** [let currentFile = null; let currentHunk = null; let oldLineNum = 0; ...] *)
Definition initial : Locals :=
  {| store := []; parsedDiffs := []; currentFile := None; currentHunk := None;
     oldLineNum := Num 0; newLineNum := Num 0 |}.

(** [currentFile.hunks.push(currentHunk)]; the array is one of hunks, and
    the source only pushes under a test that [currentHunk] is set. *)
Definition push_currentHunk (st : Locals) : result Locals :=
  f ← deref "currentFile" (currentFile st);
  h ← deref "currentHunk" (currentHunk st);
  mret (set_currentFile
          (Some {| filePath := filePath f; status := status f;
                   hunks := hunks f ++ [h];
                   addedLines := addedLines f; removedLines := removedLines f |})
          st).

(** [parsedDiffs.push(currentFile)] *)
Definition push_currentFile (st : Locals) : result Locals :=
  f ← deref "currentFile" (currentFile st);
  mret (set_parsedDiffs (parsedDiffs st ++ [f]) st).

(** [currentFile.status = s] *)
Definition assign_status (s : FileStatus) (st : Locals) : result Locals :=
  f ← deref "currentFile" (currentFile st);
  mret (set_currentFile
          (Some {| filePath := filePath f; status := s; hunks := hunks f;
                   addedLines := addedLines f; removedLines := removedLines f |})
          st).

(** [currentFile.addedLines++] *)
Definition incr_addedLines (st : Locals) : result Locals :=
  f ← deref "currentFile" (currentFile st);
  mret (set_currentFile
          (Some {| filePath := filePath f; status := status f; hunks := hunks f;
                   addedLines := incr (addedLines f);
                   removedLines := removedLines f |})
          st).

(** [currentFile.removedLines++] *)
Definition incr_removedLines (st : Locals) : result Locals :=
  f ← deref "currentFile" (currentFile st);
  mret (set_currentFile
          (Some {| filePath := filePath f; status := status f; hunks := hunks f;
                   addedLines := addedLines f;
                   removedLines := incr (removedLines f) |})
          st).

Definition push_line (l : DiffLine) (h : DiffHunk) : DiffHunk :=
  {| oldStart := oldStart h; oldCount := oldCount h; newStart := newStart h;
     newCount := newCount h; lines := lines h ++ [l] |}.

(** [currentHunk.lines.push(l)]: the object itself is updated, whoever
    else holds it. *)
Definition push_to_currentHunk (l : DiffLine) (st : Locals) : result Locals :=
  r ← deref "currentHunk" (currentHunk st);
  h ← deref "hunk object" (store st !! r);
  mret (set_store (<[r := push_line l h]> (store st)) st).

(** [currentHunk = { oldStart, oldCount, newStart, newCount, lines: [] }] *)
Definition new_hunk (os oc ns nc : number) (st : Locals) : Locals :=
  let h := {| oldStart := os; oldCount := oc; newStart := ns; newCount := nc;
              lines := [] |} in
  set_currentHunk (Some (length (store st))) (set_store (store st ++ [h]) st).

(** [fileParts[3]?.substring(2) || fileParts[2]?.substring(2) || 'unknown'] *)
Definition header_path (line : string) : string :=
  let fileParts := split " " line in
  default "unknown"
    (or_else (substring 2 <$> fileParts !! 3%nat)
       (or_else (substring 2 <$> fileParts !! 2%nat) (Some "unknown"))).

(** One turn of [for (const line of lines)]. *)
Definition parse_line (st : Locals) (line : string) : result Locals :=
  if startsWith line "diff --git" then
    st ← (if truthy (currentFile st) then
            st ← (if truthy (currentHunk st) then
                    st ← push_currentHunk st;
                    mret (set_currentHunk None st)
                  else mret st);
            push_currentFile st
          else mret st);
    let filePath := header_path line in
    mret (set_currentFile
            (Some {| filePath := filePath; status := modified; hunks := [];
                     addedLines := Num 0; removedLines := Num 0 |})
            st)
  else if startsWith line "new file mode" then
    if truthy (currentFile st) then assign_status added st else mret st
  else if startsWith line "deleted file mode" then
    if truthy (currentFile st) then assign_status deleted st else mret st
  else if startsWith line "@@" then
    st ← (if truthy (currentHunk st) && truthy (currentFile st)
          then push_currentHunk st else mret st);
    match hunk_header_match line with
    | Some hunkMatch =>
        let oldStart := parseInt (group1 hunkMatch) in
        let oldCount := parseInt (default "1" (or_else (group2 hunkMatch) (Some "1"))) in
        let newStart := parseInt (group3 hunkMatch) in
        let newCount := parseInt (default "1" (or_else (group4 hunkMatch) (Some "1"))) in
        let st := new_hunk oldStart oldCount newStart newCount st in
        mret (set_newLineNum newStart (set_oldLineNum oldStart st))
    | None => mret st
    end
  else if truthy (currentHunk st) && truthy (currentFile st) then
    if startsWith line "+" && negb (startsWith line "+++") then
      st ← push_to_currentHunk
             {| type := add; content := substring 1 line;
                oldLineNumber := None; newLineNumber := Some (newLineNum st) |} st;
      st ← incr_addedLines st;
      mret (set_newLineNum (incr (newLineNum st)) st)
    else if startsWith line "-" && negb (startsWith line "---") then
      st ← push_to_currentHunk
             {| type := remove; content := substring 1 line;
                oldLineNumber := Some (oldLineNum st); newLineNumber := None |} st;
      st ← incr_removedLines st;
      mret (set_oldLineNum (incr (oldLineNum st)) st)
    else if startsWith line " " then
      st ← push_to_currentHunk
             {| type := context; content := substring 1 line;
                oldLineNumber := Some (oldLineNum st);
                newLineNumber := Some (newLineNum st) |} st;
      mret (set_newLineNum (incr (newLineNum st))
              (set_oldLineNum (incr (oldLineNum st)) st))
    else mret st
  else mret st.

(** The whole loop. *)
Fixpoint parse_lines (st : Locals) (ls : list string) : result Locals :=
  match ls with
  | [] => mret st
  | line :: ls' => st' ← parse_line st line; parse_lines st' ls'
  end.

(** After the loop: "Add the very last file and its last hunk". *)
Definition finish (st : Locals) : result Locals :=
  if truthy (currentFile st) then
    st ← (if truthy (currentHunk st) then push_currentHunk st else mret st);
    push_currentFile st
  else mret st.

(** What a reader of the returned array sees in [file.hunks]. *)
Definition read_file (s : list DiffHunk) (f : ParsedDiff ref)
  : result (ParsedDiff DiffHunk) :=
  hs ← mapM (fun r => deref "hunk object" (s !! r)) (hunks f);
  mret {| filePath := filePath f; status := status f; hunks := hs;
          addedLines := addedLines f; removedLines := removedLines f |}.

Definition parseDiffText (diffText : string) : result (list (ParsedDiff DiffHunk)) :=
  if String.eqb diffText "" then mret []
  else
    let lines := split "010" diffText in
    st ← parse_lines initial lines;
    st ← finish st;
    mapM (read_file (store st)) (parsedDiffs st).

(** *** Reading the result *)

(** The Remove and Context lines of a hunk, in order. *)
Definition old_side (h : DiffHunk) : list DiffLine :=
  filter (fun l => type l <> add) (lines h).

(** The Add and Context lines of a hunk, in order. *)
Definition new_side (h : DiffHunk) : list DiffLine :=
  filter (fun l => type l <> remove) (lines h).

(** The number of lines of kind [k] over all the hunks of a file. *)
Definition count_kind (k : LineType) (f : ParsedDiff DiffHunk) : nat :=
  length (filter (fun l => type l = k) (hunks f ≫= lines)).

(** [xs] counts up in steps of one from [start]. *)
Definition consecutive_from (start : number) (xs : list (option number)) : Prop :=
  forall (i : nat) (x : option number),
    xs !! i = Some x ->
    exists s : N, start = Num s /\ x = Some (Num (s + N.of_nat i)).

(** [n] numbers counted from [start] all lie in the range in which doubles
    count in steps of one, that is, up to 2^53. *)
Definition counts_exactly (start : number) (n : nat) : Prop :=
  exists s : N, start = Num s /\ (s + N.of_nat n <= 2 ^ 53 + 1)%N.

(** *** The invariant of the loop of [parseDiffText] *)

(** The line numbers of a hunk are the successive values of its counters. *)
Definition numbered (h : DiffHunk) : Prop :=
  oldLineNumber <$> old_side h
    = (fun i => Some (Nat.iter i incr (oldStart h))) <$> seq 0 (length (old_side h))
  /\ newLineNumber <$> new_side h
    = (fun i => Some (Nat.iter i incr (newStart h))) <$> seq 0 (length (new_side h)).

Definition refs_in (s : list DiffHunk) (f : ParsedDiff ref) : Prop :=
  Forall (fun r => r < length s) (hunks f).

Record Inv (st : Locals) : Prop := {
  inv_parsed : Forall (refs_in (store st)) (parsedDiffs st);
  inv_file : forall f, currentFile st = Some f -> refs_in (store st) f;
  inv_hunk : forall r, currentHunk st = Some r ->
    exists h, store st !! r = Some h
      /\ oldLineNum st = Nat.iter (length (old_side h)) incr (oldStart h)
      /\ newLineNum st = Nat.iter (length (new_side h)) incr (newStart h);
  inv_numbered : Forall numbered (store st)
}.

(** Where a new line goes on each side. *)
Definition on_old (l : DiffLine) : bool := bool_decide (type l <> add).
Definition on_new (l : DiffLine) : bool := bool_decide (type l <> remove).

(** *** Inputs used below *)

Definition nl : string := String "010" EmptyString.

(** The input of Scenario A. *)
Definition scenario_A : string :=
  "diff --git a/x.txt b/x.txt" +:+ nl +:+ "@@ -1,2 +1,3 @@" +:+ nl +:+
  " context" +:+ nl +:+ "-old" +:+ nl +:+ "+new1" +:+ nl +:+ "+new2" +:+ nl.

(** A hunk followed by a line that starts with [@@] but is no hunk header. *)
Definition malformed_header_input : string :=
  "diff --git a/x b/x" +:+ nl +:+ "@@ -1 +1 @@" +:+ nl +:+ "+a" +:+ nl +:+
  "@@ bad" +:+ nl.

(** The same with a content line after the malformed header, and the
    input without the malformed line. *)
Definition anomalous_hunk_input : string :=
  "diff --git a/x b/x" +:+ nl +:+ "@@ -1 +1 @@" +:+ nl +:+ "+a" +:+ nl +:+
  "@@ bad" +:+ nl +:+ "+b" +:+ nl.

Definition anomalous_hunk_removed : string :=
  "diff --git a/x b/x" +:+ nl +:+ "@@ -1 +1 @@" +:+ nl +:+ "+a" +:+ nl.

(** A hunk that starts at line 2^53 of the old file. *)
Definition huge_start_input : string :=
  "diff --git a/x b/x" +:+ nl +:+ "@@ -9007199254740992 +1 @@" +:+ nl +:+
  "-a" +:+ nl +:+ "-b" +:+ nl.

End DiffParser.

(** ** The commit watcher and the change acquirer:
    [GitIntegration.handleRepositoryChange], [analyzeNewCommit],
    [analyzeDiffs] *)

Module Git.
Import Js DiffParser.

(** [change.uri] *)
Record Uri : Type := {
  fsPath : string;
  path : string
}.

Record GitChange : Type := {
  uri : Uri
}.

(** [repo.state.HEAD] *)
Record Head : Type := {
  commit : option string
}.

(** [repo.state] *)
Record RepositoryState : Type := {
  HEAD : option Head;
  workingTreeChanges : option (list GitChange)
}.

(** The repository object of the git extension: its state and what its
    calls answer.  A call either resolves or rejects. *)
Record Repository : Type := {
  state : option RepositoryState;
  (** [repo.diffBetween(a, b)]: the list of changed files *)
  diffBetween : string -> string -> result (option (list GitChange));
  (** [repo.diffBetween(a, b, path)]: the diff text of one file *)
  diffBetweenFile : string -> string -> string -> result string;
  (** [repo.diffWithHEAD(path)] *)
  diffWithHEAD : string -> result string
}.

(** What the code does to the outside, in the order it does it. *)
Inductive event : Type :=
| CallDiffBetween (previousCommit newCommit : string)
| CallDiffBetweenFile (previousCommit newCommit file : string)
| CallDiffWithHEAD (file : string)
| ConsoleError (what : string)
| ShowInformationMessage (what : string)
| ShowErrorMessage (what : string)
| CallAnalyzeNewCommit (previousCommit newCommit : string)
| CallParseDiffText (diffText : string)
| UpdateCommitAnalysis (previousCommit newCommit : string)
    (diffs : list (ParsedDiff DiffHunk))
| SendDiffToSidebar (files : list string).

(** The fields of [GitIntegration] the two methods use. *)
Record GitIntegration : Type := {
  lastCommitSha : option string;
  sidebarProvider : bool
}.

(** [sendCommitAnalysisToSidebar] *)
Definition sendCommitAnalysisToSidebar (gi : GitIntegration)
    (previousCommit newCommit : string) (diffs : list (ParsedDiff DiffHunk))
  : list event :=
  if sidebarProvider gi then [UpdateCommitAnalysis previousCommit newCommit diffs]
  else [].

(** The loop of [analyzeNewCommit] over the changed files: the text
    gathered so far and the calls and logs made.  A rejected call is caught
    inside the loop body. *)
Fixpoint collect_diffs (repo : Repository) (previousCommit newCommit : string)
    (changedFiles : list GitChange) (fullDiffText : string)
  : string * list event :=
  match changedFiles with
  | [] => (fullDiffText, [])
  | change :: rest =>
      let file := fsPath (uri change) in
      match diffBetweenFile repo previousCommit newCommit file with
      | Ok fileDiff =>
          let '(text, evs) :=
            collect_diffs repo previousCommit newCommit rest
              (fullDiffText +:+ (fileDiff +:+ nl)) in
          (text, CallDiffBetweenFile previousCommit newCommit file :: evs)
      | Throw _ =>
          let '(text, evs) :=
            collect_diffs repo previousCommit newCommit rest fullDiffText in
          (text, CallDiffBetweenFile previousCommit newCommit file
                   :: ConsoleError ("Could not get diff for file " +:+ file)
                   :: evs)
      end
  end.

(** [analyzeNewCommit(repo, previousCommit, newCommit)].  The whole body
    sits in a [try]; its [catch] logs and shows an error message. *)
Definition analyzeNewCommit (gi : GitIntegration) (repo : Repository)
    (previousCommit newCommit : string) : list event :=
  let failed :=
    [ConsoleError "Error in analyzeNewCommit";
     ShowErrorMessage "Error during commit analysis"] in
  CallDiffBetween previousCommit newCommit ::
  match diffBetween repo previousCommit newCommit with
  | Throw _ => failed
  | Ok changedFiles =>
      match changedFiles with
      | None | Some [] => []
      | Some changedFiles =>
          let '(fullDiffText, evs) :=
            collect_diffs repo previousCommit newCommit changedFiles "" in
          evs ++
          if String.eqb fullDiffText "" then
            [ConsoleError "Failed to generate any diff text from the changed files."]
          else
            CallParseDiffText fullDiffText ::
            match parseDiffText fullDiffText with
            | Throw _ => failed
            | Ok [] => []
            | Ok parsedDiffs =>
                sendCommitAnalysisToSidebar gi
                  (String.substring 0 8 previousCommit)
                  (String.substring 0 8 newCommit) parsedDiffs
            end
      end
  end.

(** The loop of [analyzeDiffs]: the files whose diff was obtained, and
    the calls and logs made. *)
Fixpoint collect_working_tree (repo : Repository) (changes : list GitChange)
  : list string * list event :=
  match changes with
  | [] => ([], [])
  | change :: rest =>
      let file := path (uri change) in
      let '(files, evs) := collect_working_tree repo rest in
      match diffWithHEAD repo file with
      | Ok _ => (file :: files, CallDiffWithHEAD file :: evs)
      | Throw _ =>
          (files, CallDiffWithHEAD file :: ConsoleError "Error getting diff" :: evs)
      end
  end.

(** [analyzeDiffs(repo, changes)] *)
Definition analyzeDiffs (repo : Repository) (changes : list GitChange)
  : list event :=
  let '(files, evs) := collect_working_tree repo changes in
  evs ++ [SendDiffToSidebar files].

Definition set_lastCommitSha (c : option string) (gi : GitIntegration)
  : GitIntegration :=
  {| lastCommitSha := c; sidebarProvider := sidebarProvider gi |}.

(** [handleRepositoryChange(repo)]: the handler of the "repository state
    changed" notification. *)
Definition handleRepositoryChange (gi : GitIntegration) (repo : option Repository)
  : GitIntegration * list event :=
  match repo with
  | None => (gi, [ConsoleError "Invalid repository in handleRepositoryChange"])
  | Some repo =>
      match state repo with
      | None => (gi, [ConsoleError "Invalid repository in handleRepositoryChange"])
      | Some st =>
          let head_commit := HEAD st ≫= commit in
          if truthy_str head_commit then
            let current := default "" head_commit in
            let evs1 :=
              match lastCommitSha gi with
              | Some last =>
                  if truthy_str (Some last) && negb (String.eqb last current) then
                    [ShowInformationMessage "Commit detected";
                     ShowInformationMessage "Analyzing new commit...";
                     CallAnalyzeNewCommit last current]
                    ++ analyzeNewCommit gi repo last current
                  else []
              | None => []
              end in
            let gi := set_lastCommitSha (Some current) gi in
            let changes := default [] (workingTreeChanges st) in
            let evs2 :=
              if (0 <? length changes)%nat then analyzeDiffs repo changes else [] in
            (gi, evs1 ++ evs2)
          else (gi, [])
      end
  end.

(** *** Reading a trace *)

(** The acquisitions started, as pairs (from, to). *)
Definition acquisitions (evs : list event) : list (string * string) :=
  omap (fun e => match e with
                 | CallAnalyzeNewCommit a b => Some (a, b)
                 | _ => None
                 end) evs.

(** The files whose diff was asked for. *)
Definition requested_files (evs : list event) : list string :=
  omap (fun e => match e with
                 | CallDiffBetweenFile _ _ file => Some file
                 | _ => None
                 end) evs.

(** The messages logged with [console.error]. *)
Definition logged_errors (evs : list event) : list string :=
  omap (fun e => match e with
                 | ConsoleError what => Some what
                 | _ => None
                 end) evs.

(** The texts handed to the parser. *)
Definition parser_calls (evs : list event) : list string :=
  omap (fun e => match e with
                 | CallParseDiffText text => Some text
                 | _ => None
                 end) evs.

(** The analyses sent to the sidebar. *)
Definition sidebar_updates (evs : list event) : list (list (ParsedDiff DiffHunk)) :=
  omap (fun e => match e with
                 | UpdateCommitAnalysis _ _ diffs => Some diffs
                 | _ => None
                 end) evs.

(** The diff text of each file of the list that could be retrieved, each
    followed by a newline, in the order of the list. *)
Definition retrieved (repo : Repository) (previousCommit newCommit : string)
    (changedFiles : list GitChange) : list string :=
  omap (fun change =>
          match diffBetweenFile repo previousCommit newCommit (fsPath (uri change)) with
          | Ok fileDiff => Some (fileDiff +:+ nl)
          | Throw _ => None
          end) changedFiles.

(** The files of the list whose diff could not be retrieved. *)
Definition failed_files (repo : Repository) (previousCommit newCommit : string)
    (changedFiles : list GitChange) : list string :=
  omap (fun change =>
          match diffBetweenFile repo previousCommit newCommit (fsPath (uri change)) with
          | Ok _ => None
          | Throw _ => Some (fsPath (uri change))
          end) changedFiles.

(** Strings one after the other. *)
Definition concat_all (l : list string) : string := foldr String.append "" l.

(** *** A repository used below: three changed files, the second of which
    cannot be diffed *)

Definition change_of (file : string) : GitChange :=
  {| uri := {| fsPath := file; path := file |} |}.

Definition sample_repo : Repository :=
  {| state := Some {| HEAD := Some {| commit := Some "bbbbbbbb" |};
                      workingTreeChanges := None |};
     diffBetween := fun _ _ =>
       Ok (Some [change_of "a.txt"; change_of "b.txt"; change_of "c.txt"]);
     diffBetweenFile := fun _ _ file =>
       if String.eqb file "b.txt" then Throw (HostError "diffBetween")
       else Ok ("diff --git a/" +:+ file +:+ " b/" +:+ file);
     diffWithHEAD := fun _ => Throw (HostError "diffWithHEAD") |}.

Definition sample_watcher : GitIntegration :=
  {| lastCommitSha := Some "aaaaaaaa"; sidebarProvider := true |}.

End Git.

(** ** Review threads: the [CommentManager] class *)

Module Comments.
Import Js.

(** [CodeReviewSuggestion].  The text of the suggestion is the field
    [suggestion] in the source; it is [suggestion_text] here, the name
    [suggestion] being taken by the field of [CommentThreadData].  The line
    numbers are the integers the interface declares. *)
Record CodeReviewSuggestion : Type := {
  filePath : string;
  startLine : Z;
  endLine : Z;
  suggestion_text : string;
  codeChange : option string
}.

Record CodeReview : Type := {
  summary : string;
  suggestions : option (list CodeReviewSuggestion)
}.

Record ConversationMessage : Type := {
  author : string;
  message : string;
  timestamp : N
}.

Record CommentThreadData : Type := {
  suggestion : CodeReviewSuggestion;
  conversation : list ConversationMessage;
  isCollapsed : bool
}.

(** [LLMResponse] of the language-model service. *)
Record LLMResponse : Type := {
  success : bool;
  response_message : string;
  response_codeChange : option string;
  shouldRemove : option bool
}.

(** *** The editor's objects *)

Record Position : Type := {
  line : Z;
  character : Z
}.

Record Range : Type := {
  range_start : Position;
  range_end : Position
}.

Definition position_isBefore (a b : Position) : bool :=
  (line a <? line b)%Z || ((line a =? line b)%Z && (character a <? character b)%Z).

(** [new vscode.Range(startLine, startCharacter, endLine, endCharacter)],
    as the editor documents it: a negative coordinate is an illegal
    argument, and the two positions are swapped when the start is not
    before the end. *)
Definition new_Range (startLine startCharacter endLine endCharacter : Z)
  : result Range :=
  if ((startLine <? 0) || (startCharacter <? 0)
      || (endLine <? 0) || (endCharacter <? 0))%Z
  then Throw (HostError "illegal argument")
  else
    let s := {| line := startLine; character := startCharacter |} in
    let e := {| line := endLine; character := endCharacter |} in
    if position_isBefore s e
    then Ok {| range_start := s; range_end := e |}
    else Ok {| range_start := e; range_end := s |}.

(** The body of a comment, kept as what it is made from instead of the
    Markdown text. *)
Inductive CommentBody : Type :=
| IssueBody (s : CodeReviewSuggestion)
| LoadingBody (text : string)
| FixBody (file text : string)
| ErrorBody (text : string)
| ReplyBody (text : string).

Record Comment : Type := {
  comment_author : string;
  body : CommentBody
}.

(** A [vscode.CommentThread] object. *)
Record CommentThread : Type := {
  uri : string;
  range : option Range;
  comments : list Comment;
  canReply : bool;
  label : string;
  contextValue : string;
  disposed : bool
}.

Record WorkspaceEdit : Type := {
  edit_uri : string;
  edit_range : Range;
  edit_newText : string
}.

(** What the manager shows or logs. *)
Inductive event : Type :=
| ShowInformationMessage (what : string)
| ShowErrorMessage (what : string)
| ConsoleWarn (what : string)
| ConsoleError (what : string)
| ScheduleMarkAsUnderstood (threadId : string).

(** The collaborators: the workspace search, the file access, the language
    model, the clock and random source behind the thread ids.  The n-th
    value of a source that answers differently from call to call is its
    value at [n]. *)
Record Host : Type := {
  (** [vscode.workspace.findFiles(include, '**/node_modules/**', 1)] *)
  findFiles : string -> result (list string);
  (** [vscode.workspace.applyEdit(edit)]: rejects, or resolves to [false]
      and leaves the files as they are, or resolves to [true] with the
      files after the edit *)
  applyEdit : gmap string (list string) -> WorkspaceEdit
              -> result (option (gmap string (list string)));
  (** [`codeowl_${Date.now()}_${Math.random().toString(36).substr(2, 9)}`] *)
  newThreadId : nat -> string;
  (** [new Date()] *)
  now : nat -> N;
  (** [llmService.generateComprehensiveFix(context)] *)
  generateComprehensiveFix : nat -> LLMResponse;
  (** [llmService.handleConversationReply(userMessage, context)] *)
  handleConversationReply : nat -> LLMResponse
}.

(** The manager and the world around it.  [threads] holds references to
    the thread objects, which live in [objects]; [ticks] counts the calls
    made so far to the sources of [Host] that change from call to call. *)
Record CommentManager : Type := {
  threads : gmap string nat;
  threadData : gmap string CommentThreadData;
  objects : list CommentThread;
  workspace : gmap string (list string);
  ticks : nat;
  log : list event
}.

Definition set_threads (t : gmap string nat) (m : CommentManager) : CommentManager :=
  {| threads := t; threadData := threadData m; objects := objects m;
     workspace := workspace m; ticks := ticks m; log := log m |}.

Definition set_threadData (d : gmap string CommentThreadData) (m : CommentManager)
  : CommentManager :=
  {| threads := threads m; threadData := d; objects := objects m;
     workspace := workspace m; ticks := ticks m; log := log m |}.

Definition set_objects (o : list CommentThread) (m : CommentManager)
  : CommentManager :=
  {| threads := threads m; threadData := threadData m; objects := o;
     workspace := workspace m; ticks := ticks m; log := log m |}.

Definition set_workspace (w : gmap string (list string)) (m : CommentManager)
  : CommentManager :=
  {| threads := threads m; threadData := threadData m; objects := objects m;
     workspace := w; ticks := ticks m; log := log m |}.

Definition set_ticks (n : nat) (m : CommentManager) : CommentManager :=
  {| threads := threads m; threadData := threadData m; objects := objects m;
     workspace := workspace m; ticks := n; log := log m |}.

Definition set_log (l : list event) (m : CommentManager) : CommentManager :=
  {| threads := threads m; threadData := threadData m; objects := objects m;
     workspace := workspace m; ticks := ticks m; log := l |}.

(** *** Methods run on the manager and may throw *)

Definition M (A : Type) : Type := CommentManager -> result A * CommentManager.

#[export] Instance M_ret : MRet M := fun _ a m => (Ok a, m).

#[export] Instance M_bind : MBind M := fun _ _ f c m =>
  match c m with
  | (Ok a, m') => f a m'
  | (Throw e, m') => (Throw e, m')
  end.

(** [await] on a call that resolves or rejects. *)
Definition await {A : Type} (r : result A) : M A := fun m => (r, m).

(** [try { body } catch (error) { handler }] *)
Definition try_catch {A : Type} (body : M A) (handler : exn -> M A) : M A :=
  fun m =>
    match body m with
    | (Ok a, m') => (Ok a, m')
    | (Throw e, m') => handler e m'
    end.

Definition get : M CommentManager := fun m => (Ok m, m).

Definition modify (f : CommentManager -> CommentManager) : M unit :=
  fun m => (Ok tt, f m).

Definition emit (e : event) : M unit := modify (fun m => set_log (log m ++ [e]) m).

(** The next value of a source that changes from call to call. *)
Definition tick : M nat :=
  fun m => (Ok (ticks m), set_ticks (S (ticks m)) m).

(** *** Thread objects *)

(** [thread.prop = v] *)
Definition update_thread (r : nat) (f : CommentThread -> CommentThread) : M unit :=
  m ← get;
  t ← await (deref "thread" (objects m !! r));
  modify (set_objects (<[r := f t]> (objects m))).

Definition with_comments (cs : list Comment) (t : CommentThread) : CommentThread :=
  {| uri := uri t; range := range t; comments := cs; canReply := canReply t;
     label := label t; contextValue := contextValue t; disposed := disposed t |}.

(** [thread.comments = [...thread.comments, c]] *)
Definition append_comment (c : Comment) (t : CommentThread) : CommentThread :=
  with_comments (comments t ++ [c]) t.

(** [thread.comments = thread.comments.slice(0, -1)] *)
Definition drop_last_comment (t : CommentThread) : CommentThread :=
  with_comments (take (length (comments t) - 1) (comments t)) t.

(** [thread.dispose()] *)
Definition dispose_thread (t : CommentThread) : CommentThread :=
  {| uri := uri t; range := range t; comments := comments t;
     canReply := canReply t; label := label t; contextValue := contextValue t;
     disposed := true |}.

(** [commentController.createCommentThread(uri, range, comments)] followed
    by the assignments to [canReply], [label] and [contextValue]: a new
    object, and the reference to it. *)
Definition createCommentThread (t : CommentThread) : M nat :=
  m ← get;
  modify (set_objects (objects m ++ [t])) ;;
  mret (length (objects m)).

(** [this.threads.get(threadId)]: the object behind the entry, if any. *)
Definition get_thread (m : CommentManager) (threadId : string)
  : option (nat * CommentThread) :=
  r ← threads m !! threadId;
  t ← objects m !! r;
  Some (r, t).

(** *** The methods *)

Definition initial_message (suggestion : CodeReviewSuggestion) (time : N)
  : ConversationMessage :=
  {| author := "CodeOwl AI"; message := suggestion_text suggestion;
     timestamp := time |}.

(** [createAdvancedCommentThread(suggestion)] *)
Definition createAdvancedCommentThread (host : Host)
    (suggestion : CodeReviewSuggestion) : M unit :=
  fileUris ← await (findFiles host ("**/" +:+ filePath suggestion));
  if (length fileUris =? 0)%nat then
    emit (ConsoleWarn ("[CodeOwl] Could not find file: " +:+ filePath suggestion))
  else
    fileUri ← await (deref "fileUris[0]" (fileUris !! 0%nat));
    let startLine := Z.max 0 (startLine suggestion - 1) in
    let endLine := Z.max 0 (endLine suggestion - 1) in
    range ← await (new_Range startLine 0 endLine 1024);
    n ← tick;
    let threadId := newThreadId host n in
    let comment := {| comment_author := "CodeOwl AI"; body := IssueBody suggestion |} in
    thread ← createCommentThread
      {| uri := fileUri; range := Some range; comments := [comment];
         canReply := false; label := "CodeOwl AI Review";
         contextValue := if truthy_str (codeChange suggestion)
                         then "codeowl-comment-with-change"
                         else "codeowl-comment-suggestion";
         disposed := false |};
    modify (fun m => set_threads (<[threadId := thread]> (threads m)) m) ;;
    modify (fun m =>
      set_threadData
        (<[threadId := {| suggestion := suggestion;
                          conversation := [initial_message suggestion (now host n)];
                          isCollapsed := false |}]> (threadData m)) m).

(** [this.threads.forEach(thread => thread.dispose())] *)
Definition dispose_at (r : nat) (objs : list CommentThread) : list CommentThread :=
  match objs !! r with
  | Some t => <[r := dispose_thread t]> objs
  | None => objs
  end.

Definition dispose_all (m : CommentManager) : list CommentThread :=
  foldr dispose_at (objects m) (map_to_list (threads m)).*2.

(** [clearAllComments()] *)
Definition clearAllComments : M unit :=
  modify (fun m => set_objects (dispose_all m) m) ;;
  modify (set_threads ∅) ;;
  modify (set_threadData ∅).

(** The loop of [displayReviewsAsComments]. *)
Fixpoint create_all (host : Host) (suggestions : list CodeReviewSuggestion)
  : M unit :=
  match suggestions with
  | [] => mret tt
  | suggestion :: rest =>
      createAdvancedCommentThread host suggestion ;;
      create_all host rest
  end.

(** [displayReviewsAsComments(review)] *)
Definition displayReviewsAsComments (host : Host) (review : CodeReview) : M unit :=
  clearAllComments ;;
  match suggestions review with
  | None | Some [] =>
      emit (ShowInformationMessage "CodeOwl AI: No suggestions found. Looks good!")
  | Some suggestions =>
      create_all host suggestions ;;
      emit (ShowInformationMessage "CodeOwl AI: Added review comment(s) with interactive features.")
  end.

(** [thread.dispose(); this.threads.delete(threadId);
     this.threadData.delete(threadId)] *)
Definition retire (threadId : string) (r : nat) : M unit :=
  update_thread r dispose_thread ;;
  modify (fun m => set_threads (delete threadId (threads m)) m) ;;
  modify (fun m => set_threadData (delete threadId (threadData m)) m).

(** [applySuggestion(threadId)] *)
Definition applySuggestion (host : Host) (threadId : string) : M unit :=
  m ← get;
  match threadData m !! threadId, get_thread m threadId with
  | Some data, Some (r, thread) =>
      match or_else (codeChange (suggestion data)) None, range thread with
      | Some change, Some range =>
          try_catch
            (let edit := {| edit_uri := uri thread; edit_range := range;
                            edit_newText := change |} in
             answer ← await (applyEdit host (workspace m) edit);
             match answer with
             | Some files =>
                 modify (set_workspace files) ;;
                 emit (ShowInformationMessage "Code suggestion applied successfully!") ;;
                 retire threadId r
             | None => emit (ShowErrorMessage "Failed to apply code suggestion.")
             end)
            (fun _ =>
               emit (ConsoleError "Error applying suggestion:") ;;
               emit (ShowErrorMessage "Error applying code suggestion."))
      | _, _ => emit (ShowErrorMessage "No code change available to apply.")
      end
  | _, _ => emit (ShowErrorMessage "No code change available to apply.")
  end.

(** [markAsUnderstood(threadId)] *)
Definition markAsUnderstood (threadId : string) : M unit :=
  m ← get;
  match get_thread m threadId with
  | Some (r, _) =>
      retire threadId r ;;
      emit (ShowInformationMessage "Suggestion marked as understood")
  | None => mret tt
  end.

Definition with_codeChange (c : option string) (s : CodeReviewSuggestion)
  : CodeReviewSuggestion :=
  {| filePath := filePath s; startLine := startLine s; endLine := endLine s;
     suggestion_text := suggestion_text s; codeChange := c |}.

(** [threadData.suggestion.codeChange = c], as the thread [threadId] shows
    it.  (The assignment goes to the suggestion object; what the other
    holders of that object see of it is the matter of [Shared] below.) *)
Definition assign_codeChange (threadId : string) (c : option string) : M unit :=
  modify (fun m =>
    set_threadData
      (alter (fun d => {| suggestion := with_codeChange c (suggestion d);
                          conversation := conversation d;
                          isCollapsed := isCollapsed d |})
             threadId (threadData m)) m).

(** [threadData.conversation.push(msg)] *)
Definition push_conversation (threadId : string) (msg : ConversationMessage)
  : M unit :=
  modify (fun m =>
    set_threadData
      (alter (fun d => {| suggestion := suggestion d;
                          conversation := conversation d ++ [msg];
                          isCollapsed := isCollapsed d |})
             threadId (threadData m)) m).

Definition ai_comment (b : CommentBody) : Comment :=
  {| comment_author := "CodeOwl AI"; body := b |}.

(** [fixWithAI(threadId)].  The lines read from the file only go into
    the request to the language model, whose answer is [Host]'s. *)
Definition fixWithAI (host : Host) (threadId : string) : M unit :=
  m ← get;
  match threadData m !! threadId, get_thread m threadId with
  | Some data, Some (r, _) =>
      try_catch
        (emit (ShowInformationMessage "CodeOwl is generating a comprehensive fix...") ;;
         update_thread r (append_comment (ai_comment (LoadingBody "Generating comprehensive fix..."))) ;;
         n ← tick;
         let response := generateComprehensiveFix host n in
         update_thread r drop_last_comment ;;
         if success response then
           update_thread r
             (append_comment
                (ai_comment (FixBody (filePath (suggestion data))
                                     (response_message response)))) ;;
           if truthy_str (response_codeChange response)
           then assign_codeChange threadId (response_codeChange response)
           else mret tt
         else
           update_thread r
             (append_comment (ai_comment (ErrorBody (response_message response)))))
        (fun _ =>
           emit (ConsoleError "Error generating AI fix:") ;;
           emit (ShowErrorMessage "Error generating AI fix."))
  | _, _ => emit (ShowErrorMessage "Unable to process AI fix request.")
  end.

(** [handleUserReplyFromComment(threadId, replyText)]; the answer of
    [getAIConversationResponse] is [Host]'s, and the [setTimeout] that
    retires the thread later is recorded as scheduled. *)
Definition handleUserReplyFromComment (host : Host) (threadId replyText : string)
  : M unit :=
  m ← get;
  match threadData m !! threadId, get_thread m threadId with
  | Some _, Some (r, _) =>
      n ← tick;
      push_conversation threadId
        {| author := "User"; message := replyText; timestamp := now host n |} ;;
      update_thread r (append_comment (ai_comment (LoadingBody "Analyzing your response..."))) ;;
      try_catch
        (let response := handleConversationReply host n in
         update_thread r drop_last_comment ;;
         if success response && default false (shouldRemove response) then
           emit (ScheduleMarkAsUnderstood threadId)
         else
           push_conversation threadId
             {| author := "CodeOwl AI"; message := response_message response;
                timestamp := now host n |} ;;
           update_thread r
             (append_comment (ai_comment (ReplyBody (response_message response)))))
        (fun _ =>
           emit (ConsoleError "Error getting AI response:") ;;
           update_thread r drop_last_comment)
  | _, _ => mret tt
  end.

(** [findThreadId(thread)]: the id under which the object is stored.  (The
    source takes the first in the order of insertion; an object is stored
    under one id only.) *)
Definition findThreadId (m : CommentManager) (thread : nat) : option string :=
  (fun found => found.2.1) <$>
  list_find (fun entry => entry.2 = thread) (map_to_list (threads m)).

(** [handleUserReply(reply)], for a reply typed into the thread object
    [thread]. *)
Definition handleUserReply (host : Host) (thread : nat) (text : string) : M unit :=
  m ← get;
  match or_else (findThreadId m thread) None with
  | None => mret tt
  | Some threadId =>
      match threadData m !! threadId with
      | None => mret tt
      | Some _ =>
          n ← tick;
          push_conversation threadId
            {| author := "User"; message := text; timestamp := now host n |} ;;
          update_thread thread
            (append_comment {| comment_author := "User"; body := ReplyBody text |}) ;;
          update_thread thread
            (append_comment (ai_comment (LoadingBody "Analyzing your response..."))) ;;
          try_catch
            (let response := handleConversationReply host n in
             update_thread thread drop_last_comment ;;
             if success response && default false (shouldRemove response) then
               update_thread thread
                 (append_comment (ai_comment (ReplyBody (response_message response)))) ;;
               emit (ScheduleMarkAsUnderstood threadId)
             else
               push_conversation threadId
                 {| author := "CodeOwl AI"; message := response_message response;
                    timestamp := now host n |} ;;
               update_thread thread
                 (append_comment (ai_comment (ReplyBody (response_message response)))))
            (fun _ =>
               emit (ConsoleError "Error getting AI response:") ;;
               update_thread thread drop_last_comment ;;
               update_thread thread
                 (append_comment
                    (ai_comment (ErrorBody "Sorry, I encountered an error processing your response."))))
      end
  end.

(** *** The operations of the registry, and running one *)

Inductive operation : Type :=
| Create (suggestion : CodeReviewSuggestion)
| Display (review : CodeReview)
| Reply (threadId replyText : string)
| ReplyInThread (thread : nat) (text : string)
| FixWithAI (threadId : string)
| Apply (threadId : string)
| Resolve (threadId : string)
| ClearAll.

Definition run (host : Host) (op : operation) : M unit :=
  match op with
  | Create suggestion => createAdvancedCommentThread host suggestion
  | Display review => displayReviewsAsComments host review
  | Reply threadId replyText => handleUserReplyFromComment host threadId replyText
  | ReplyInThread thread text => handleUserReply host thread text
  | FixWithAI threadId => fixWithAI host threadId
  | Apply threadId => applySuggestion host threadId
  | Resolve threadId => markAsUnderstood threadId
  | ClearAll => clearAllComments
  end.

(** *** Reading the state *)

(** [document.lineCount] of the file at [uri]. *)
Definition lineCount (m : CommentManager) (uri : string) : Z :=
  Z.of_nat (length (default [] (workspace m !! uri))).

(** Both ends of the range are lines of a file of [n] lines. *)
Definition within_lines (n : Z) (r : Range) : Prop :=
  (0 <= line (range_start r) <= n - 1)%Z /\ (0 <= line (range_end r) <= n - 1)%Z.

(** The workspace file the search finds for a suggestion, if any. *)
Definition found (host : Host) (suggestion : CodeReviewSuggestion) : option string :=
  match findFiles host ("**/" +:+ filePath suggestion) with
  | Ok (fileUri :: _) => Some fileUri
  | _ => None
  end.

(** The suggestions of a list that are found, each with its file, in the
    order of the list. *)
Definition matched (host : Host) (ss : list CodeReviewSuggestion)
  : list (CodeReviewSuggestion * string) :=
  omap (fun s => (fun fileUri => (s, fileUri)) <$> found host s) ss.

(** The thread object [createAdvancedCommentThread] makes for a suggestion
    found at [fileUri], for lines in their order. *)
Definition thread_for (suggestion : CodeReviewSuggestion) (fileUri : string)
  : CommentThread :=
  {| uri := fileUri;
     range := Some {| range_start := {| line := Z.max 0 (startLine suggestion - 1);
                                        character := 0 |};
                      range_end := {| line := Z.max 0 (endLine suggestion - 1);
                                      character := 1024 |} |};
     comments := [{| comment_author := "CodeOwl AI"; body := IssueBody suggestion |}];
     canReply := false; label := "CodeOwl AI Review";
     contextValue := if truthy_str (codeChange suggestion)
                     then "codeowl-comment-with-change"
                     else "codeowl-comment-suggestion";
     disposed := false |}.

(** The entry of [threadData] made for a suggestion at time [time]. *)
Definition data_for (suggestion : CodeReviewSuggestion) (time : N)
  : CommentThreadData :=
  {| suggestion := suggestion;
     conversation := [initial_message suggestion time];
     isCollapsed := false |}.

(** The edit [applySuggestion] hands to the editor for a thread, when the
    thread is known, its suggestion has a replacement and it has a range. *)
Definition located_edit (m : CommentManager) (threadId : string)
  : option (nat * CommentThread * WorkspaceEdit) :=
  data ← threadData m !! threadId;
  '(r, thread) ← get_thread m threadId;
  change ← or_else (codeChange (suggestion data)) None;
  range ← range thread;
  Some (r, thread, {| edit_uri := uri thread; edit_range := range;
                      edit_newText := change |}).

(** Nothing but the log differs between [m] and [m']: the active set, the
    thread objects and the files are the same. *)
Definition same_threads_and_files (m m' : CommentManager) : Prop :=
  threads m' = threads m /\ threadData m' = threadData m
  /\ objects m' = objects m /\ workspace m' = workspace m.

(** The error messages shown. *)
Definition shown_errors (evs : list event) : list string :=
  omap (fun e => match e with ShowErrorMessage what => Some what | _ => None end) evs.

(** One more error message was shown between [m] and [m']. *)
Definition error_shown (m m' : CommentManager) : Prop :=
  exists what, shown_errors (log m') = shown_errors (log m) ++ [what].


(** *** What a method keeps

    [keeps P c]: from every manager [m], running [c] ends -- normally or
    by a throw -- in a manager related to [m] by [P]. *)
Definition keeps {A : Type} (P : CommentManager -> CommentManager -> Prop)
    (c : M A) : Prop :=
  forall m, P m (c m).2.

(** *** A host and a manager used below *)

Definition sample_host : Host :=
  {| findFiles := fun _ => Ok ["/work/src/a.ts"];
     applyEdit := fun files _ => Ok (Some files);
     newThreadId := fun n => "codeowl_" +:+ pretty n;
     now := fun n => N.of_nat n;
     generateComprehensiveFix := fun _ =>
       {| success := true; response_message := "use const";
          response_codeChange := Some "const x = 1;"; shouldRemove := None |};
     handleConversationReply := fun _ =>
       {| success := true; response_message := "ok";
          response_codeChange := None; shouldRemove := None |} |}.

(** A workspace whose file has ten lines. *)
Definition sample_manager : CommentManager :=
  {| threads := ∅; threadData := ∅; objects := [];
     workspace := {[ "/work/src/a.ts" := replicate 10 "" ]};
     ticks := 0; log := [] |}.

(** A suggestion for line 100 of that file, without a replacement. *)
Definition sample_suggestion : CodeReviewSuggestion :=
  {| filePath := "src/a.ts"; startLine := 100; endLine := 100;
     suggestion_text := "prefer const"; codeChange := None |}.

(** A second suggestion, with a replacement, and a review of both. *)
Definition sample_suggestion_2 : CodeReviewSuggestion :=
  {| filePath := "src/a.ts"; startLine := 3; endLine := 4;
     suggestion_text := "remove dead code"; codeChange := Some "" |}.

Definition sample_review : CodeReview :=
  {| summary := "two remarks";
     suggestions := Some [sample_suggestion; sample_suggestion_2] |}.

(** The manager after the suggestion got its thread; its id is
    ["codeowl_0"]. *)
Definition sample_manager_with_thread : CommentManager :=
  (createAdvancedCommentThread sample_host sample_suggestion sample_manager).2.

End Comments.

(** ** More about the diff parser: what its result depends on *)

Module DiffScan.
Import Js DiffParser.

(** [lines.join(sep)], the inverse of [split]. *)
Fixpoint join (sep : ascii) (ls : list string) : string :=
  match ls with
  | [] => ""
  | [s] => s
  | s :: rest => s +:+ String sep (join sep rest)
  end.

(** The separator does not occur in the string. *)
Fixpoint free_of (sep : ascii) (s : string) : bool :=
  match s with
  | EmptyString => true
  | String c s' => negb (Ascii.eqb c sep) && free_of sep s'
  end.

(** The tests of the loop of [parseDiffText] on one line. *)
Definition is_header (line : string) : bool := startsWith line "diff --git".

Definition marker (line : string) : option FileStatus :=
  if startsWith line "new file mode" then Some added
  else if startsWith line "deleted file mode" then Some deleted
  else None.

(** A scanner that only looks at file headers and status markers: the
    path and status of the file in progress, and those of the files
    closed. *)
Fixpoint scan (current : option (string * FileStatus)) (ls : list string)
  : list (string * FileStatus) :=
  match ls with
  | [] => option_list current
  | line :: rest =>
      if is_header line then
        option_list current ++ scan (Some (header_path line, modified)) rest
      else
        match marker line with
        | Some s => scan ((fun c => (c.1, s)) <$> current) rest
        | None => scan current rest
        end
  end.

(** Path and status of a file of the result. *)
Definition path_and_status {H : Type} (f : ParsedDiff H) : string * FileStatus :=
  (filePath f, status f).

(** Every line that starts with [@@] matches the hunk-header pattern. *)
Definition headers_well_formed (ls : list string) : Prop :=
  Forall (fun line => startsWith line "@@" = true ->
                      is_Some (hunk_header_match line)) ls.

(** A line the loop has no branch for: no file header, no status marker,
    no [@@] line, and none of the three content prefixes. *)
Definition unrecognised (line : string) : bool :=
  negb (startsWith line "diff --git")
  && negb (startsWith line "new file mode")
  && negb (startsWith line "deleted file mode")
  && negb (startsWith line "@@")
  && negb (startsWith line "+")
  && negb (startsWith line "-")
  && negb (startsWith line " ").

(** What [parseDiffText] does after splitting the text. *)
Definition parse_all (ls : list string) : result (list (ParsedDiff DiffHunk)) :=
  st ← parse_lines initial ls;
  st ← finish st;
  mapM (read_file (store st)) (parsedDiffs st).

(** The kind, content and numbers a content line of the input gives. *)
Definition line_of_input (line : string) (l : DiffLine) : Prop :=
  content l = substring 1 line
  /\ match type l with
     | add => startsWith line "+" = true
              /\ oldLineNumber l = None /\ is_Some (newLineNumber l)
     | remove => startsWith line "-" = true
                 /\ is_Some (oldLineNumber l) /\ newLineNumber l = None
     | context => startsWith line " " = true
                  /\ is_Some (oldLineNumber l) /\ is_Some (newLineNumber l)
     end.

(** A file of the result is the file of the final state it was read from,
    with the hunks its references stand for. *)
Definition read_as (s : list DiffHunk) (f0 : ParsedDiff nat) (f : ParsedDiff DiffHunk)
  : Prop :=
  filePath f = filePath f0 /\ status f = status f0
  /\ addedLines f = addedLines f0 /\ removedLines f = removedLines f0
  /\ Forall2 (fun r h => s !! r = Some h) (hunks f0) (hunks f).

(** The text of a hunk header with the given digit strings, the counts
    being optional. *)
Definition header_text (a : string) (b : option string) (c : string)
    (d : option string) : string :=
  "@@ -" +:+ a +:+ from_option (fun b => "," +:+ b) "" b +:+
  " +" +:+ c +:+ from_option (fun d => "," +:+ d) "" d +:+ " @@".

(** A string of decimal digits, at least one. *)
Fixpoint all_digits (s : string) : bool :=
  match s with
  | EmptyString => true
  | String c s' => is_digit c && all_digits s'
  end.

Definition digit_string (s : string) : Prop :=
  s <> "" /\ all_digits s = true.

(** The string is empty or starts with a character that is no digit. *)
Definition stops_digits (r : string) : bool :=
  match r with
  | EmptyString => true
  | String c _ => negb (is_digit c)
  end.

(** *** Counting lines *)

(** The lines of kind [k] of a hunk. *)
Definition count_lines (k : LineType) (h : DiffHunk) : nat :=
  length (filter (fun l => type l = k) (lines h)).

(** The lines of kind [k] of the hunks a list of references stands for. *)
Definition count_refs (k : LineType) (s : list DiffHunk) (rs : list nat) : nat :=
  sum_list_with (fun r => from_option (count_lines k) 0 (s !! r)) rs.

(** The lines of kind [k] of the hunk in progress. *)
Definition pending (st : Locals) (k : LineType) : nat :=
  match currentHunk st with
  | Some r => from_option (count_lines k) 0 (store st !! r)
  | None => 0
  end.

(** The counters of a file have been incremented once per Add and Remove
    line of its hunks and of [a], respectively [r], lines more. *)
Definition tallied (s : list DiffHunk) (f : ParsedDiff nat) (a r : nat) : Prop :=
  addedLines f = Nat.iter (count_refs add s (hunks f) + a) incr (Num 0)
  /\ removedLines f = Nat.iter (count_refs remove s (hunks f) + r) incr (Num 0).

(** The invariant of the loop on texts whose hunk headers are all well
    formed: the counters of the files agree with their hunks, the hunk in
    progress counting for the file in progress, and the hunk in progress is
    in no file yet. *)
Record Tally (st : Locals) : Prop := {
  tally_parsed : Forall (fun f => tallied (store st) f 0 0) (parsedDiffs st);
  tally_file : forall f, currentFile st = Some f ->
    tallied (store st) f (pending st add) (pending st remove);
  tally_stale : currentFile st = None ->
    pending st add = 0 /\ pending st remove = 0;
  tally_fresh : forall r, currentHunk st = Some r ->
    r < length (store st)
    /\ Forall (fun f => r ∉ hunks f) (parsedDiffs st)
    /\ (forall f, currentFile st = Some f -> r ∉ hunks f);
  tally_refs_parsed : Forall (refs_in (store st)) (parsedDiffs st);
  tally_refs_file : forall f, currentFile st = Some f -> refs_in (store st) f
}.

End DiffScan.
(** ** Runs of the commit watcher *)

Module GitRuns.
Import Js DiffParser Git.


(** The revision a notification shows: [repo.state.HEAD.commit], when the
    repository, its state, its head and the commit are all there and the
    commit is not the empty string. *)
Definition revision (repo : option Repository) : option string :=
  match repo with
  | Some repo =>
      match state repo with
      | Some st =>
          if truthy_str (HEAD st ≫= commit) then HEAD st ≫= commit else None
      | None => None
      end
  | None => None
  end.


(** The files whose diff against HEAD was asked for. *)
Definition head_requests (evs : list event) : list string :=
  omap (fun e => match e with
                 | CallDiffWithHEAD file => Some file
                 | _ => None
                 end) evs.

(** The results handed to [sendDiffToSidebar]. *)
Definition sent_diffs (evs : list event) : list (list string) :=
  omap (fun e => match e with
                 | SendDiffToSidebar files => Some files
                 | _ => None
                 end) evs.

(** The files of the changes whose diff against HEAD can be had. *)
Definition diffable (repo : Repository) (changes : list GitChange) : list string :=
  omap (fun change =>
          match diffWithHEAD repo (path (uri change)) with
          | Ok _ => Some (path (uri change))
          | Throw _ => None
          end) changes.

(** The analyses sent to the sidebar, with the two revisions they name. *)
Definition analyses (evs : list event)
  : list (string * string * list (ParsedDiff DiffHunk)) :=
  omap (fun e => match e with
                 | UpdateCommitAnalysis a b diffs => Some (a, b, diffs)
                 | _ => None
                 end) evs.

(** The calls made on the repository object. *)
Definition is_repository_call (e : event) : bool :=
  match e with
  | CallDiffBetween _ _ | CallDiffBetweenFile _ _ _ | CallDiffWithHEAD _ => true
  | _ => false
  end.


End GitRuns.
(** ** The registry of review threads as a whole: its invariant, the
    commands of the editor, sequences of operations *)

Module Registry.
Import Js Comments.

(** [new CommentManager(extensionUri)]: both maps are empty.  The files of
    the workspace are those of the editor. *)
Definition new_manager (files : gmap string (list string)) : CommentManager :=
  {| threads := ∅; threadData := ∅; objects := []; workspace := files;
     ticks := 0; log := [] |}.

(** Operations one after the other, each on the manager the one before
    left, whether it returned or threw. *)
Fixpoint run_all (host : Host) (ops : list operation) (m : CommentManager)
  : CommentManager :=
  match ops with
  | [] => m
  | op :: rest => run_all host rest (run host op m).2
  end.

(** [findThreadIdByThread(thread)], whose body is that of [findThreadId]. *)
Definition findThreadIdByThread (m : CommentManager) (thread : nat) : option string :=
  (fun found => found.2.1) <$>
  list_find (fun entry => entry.2 = thread) (map_to_list (threads m)).

(** The commands [setupCommentHandlers] registers.  The editor calls them
    with the thread object the button belongs to, or with nothing. *)
Inductive command : Type :=
| ApplySuggestionCommand
| FixWithAICommand
| MarkUnderstoodCommand.

Definition by_id (host : Host) (c : command) (threadId : string) : M unit :=
  match c with
  | ApplySuggestionCommand => applySuggestion host threadId
  | FixWithAICommand => fixWithAI host threadId
  | MarkUnderstoodCommand => markAsUnderstood threadId
  end.

(** [async (thread?) => { if (thread) { const threadId =
    this.findThreadIdByThread(thread); if (threadId) { await ... } } }] *)
Definition on_command (host : Host) (c : command) (thread : option nat) : M unit :=
  match thread with
  | Some thread =>
      m ← get;
      match or_else (findThreadIdByThread m thread) None with
      | Some threadId => by_id host c threadId
      | None => mret tt
      end
  | None => mret tt
  end.

(** The invariant of the registry: the two maps have the same ids; the
    thread of every id is an object that exists and is not disposed; no
    object is the thread of two ids. *)
Record consistent (m : CommentManager) : Prop := {
  ids_agree : forall id,
    is_Some (threads m !! id) <-> is_Some (threadData m !! id);
  threads_live : forall id r, threads m !! id = Some r ->
    exists t, objects m !! r = Some t /\ disposed t = false;
  threads_distinct : forall id1 id2 r,
    threads m !! id1 = Some r -> threads m !! id2 = Some r -> id1 = id2
}.

Definition stays_consistent (m m' : CommentManager) : Prop :=
  consistent m -> consistent m'.

(** From a manager that satisfies [I], the method returns, and leaves a
    manager that satisfies [I]. *)
Definition returns_from {A : Type} (I : CommentManager -> Prop) (c : M A) : Prop :=
  forall m, I m -> (exists a, (c m).1 = Ok a) /\ I (c m).2.

(** There is a thread object behind the reference [r]. *)
Definition has_object (r : nat) (m : CommentManager) : Prop :=
  r < length (objects m).

(** The file search of the host answers every request. *)
Definition search_answers (host : Host) : Prop :=
  forall pattern, exists fileUris, findFiles host pattern = Ok fileUris.

(** The thread object [r] is under no id. *)
Definition unregistered (m : CommentManager) (r : nat) : Prop :=
  forall id, threads m !! id <> Some r.

(** The answer to a reply asks for the thread to be resolved:
    [aiResponse.shouldRemove] of [getAIConversationResponse]. *)
Definition asks_to_resolve (response : LLMResponse) : bool :=
  success response && default false (shouldRemove response).

(** The comment [fixWithAI] ends with for an answer. *)
Definition fix_comment (data : CommentThreadData) (response : LLMResponse) : Comment :=
  if success response
  then ai_comment (FixBody (filePath (suggestion data)) (response_message response))
  else ai_comment (ErrorBody (response_message response)).

(** [threadData] after [fixWithAI] got an answer for [threadId]. *)
Definition data_after_fix (threadId : string) (response : LLMResponse)
    (d : gmap string CommentThreadData) : gmap string CommentThreadData :=
  if success response && truthy_str (response_codeChange response)
  then alter (fun d => {| suggestion := with_codeChange (response_codeChange response)
                                                         (suggestion d);
                          conversation := conversation d;
                          isCollapsed := isCollapsed d |}) threadId d
  else d.

(** The message a reply leaves in the conversation. *)
Definition user_message (host : Host) (n : nat) (replyText : string)
  : ConversationMessage :=
  {| author := "User"; message := replyText; timestamp := now host n |}.

(** The message the answer to a reply leaves in the conversation. *)
Definition ai_message (host : Host) (n : nat) : ConversationMessage :=
  {| author := "CodeOwl AI";
     message := response_message (handleConversationReply host n);
     timestamp := now host n |}.

(** The entry of a thread after a reply that got the [n]-th answer of the
    language model. *)
Definition data_after_reply (host : Host) (n : nat) (replyText : string)
    (d : CommentThreadData) : CommentThreadData :=
  {| suggestion := suggestion d;
     conversation :=
       conversation d ++
       user_message host n replyText ::
       (if asks_to_resolve (handleConversationReply host n) then []
        else [ai_message host n]);
     isCollapsed := isCollapsed d |}.

(** A host whose language model answers with a resolution. *)
Definition resolving_host : Host :=
  {| findFiles := findFiles sample_host;
     applyEdit := applyEdit sample_host;
     newThreadId := newThreadId sample_host;
     now := now sample_host;
     generateComprehensiveFix := generateComprehensiveFix sample_host;
     handleConversationReply := fun _ =>
       {| success := true; response_message := "glad it helped";
          response_codeChange := None; shouldRemove := Some true |} |}.

End Registry.
(** ** The language-model service: [LLMService] *)

Module LLM.
Import Js Comments.

(** [ConversationContext] *)
Record ConversationContext : Type := {
  originalSuggestion : string;
  context_filePath : string;
  codeContext : string;
  conversationHistory : list ConversationMessage
}.

(** The client made for an API key.  What it answers to the prompt that
    a method builds from its arguments is the text of the response, or a
    rejection (of [getGenerativeModel], [generateContent] or [text]). *)
Record Client : Type := {
  (** to the prompt of [generateComprehensiveFix(context)] *)
  fix_text : ConversationContext -> result string;
  (** to the prompt of [handleConversationReply(userMessage, context)] *)
  reply_text : string -> ConversationContext -> result string
}.

Record LLMService : Type := {
  genAI : option Client
}.

(** [initializeAPI()], for the value of the setting [codeowl.geminiApiKey]
    and the client the library makes for a key. *)
Definition initializeAPI (apiKey : option string) (client_for : string -> Client)
    (service : LLMService) : LLMService :=
  if truthy_str apiKey then {| genAI := client_for <$> apiKey |} else service.

(** [new LLMService()] *)
Definition new_service (apiKey : option string) (client_for : string -> Client)
  : LLMService :=
  initializeAPI apiKey client_for {| genAI := None |}.

(** [refreshAPIKey()] *)
Definition refreshAPIKey (apiKey : option string) (client_for : string -> Client)
    (service : LLMService) : LLMService :=
  initializeAPI apiKey client_for service.

(** *** Searching a string *)

(** The first occurrence of [pat] in [s]: what is before it and what is
    after it. *)
Fixpoint find_sub (pat s : string) : option (string * string) :=
  if startsWith s pat then Some (EmptyString, substring (String.length pat) s)
  else
    match s with
    | EmptyString => None
    | String c s' =>
        match find_sub pat s' with
        | Some (before, after) => Some (String c before, after)
        | None => None
        end
    end.

Definition newline : string := String "010" EmptyString.

Definition fence_open : string := "```suggestion" +:+ newline.

Definition fence_close : string := newline +:+ "```".

(** The first group of [text.match(/```suggestion\n([\s\S]*?)\n```/)]:
    the match starts at the first opening fence, and the group, which takes
    as little as it can, ends before the first closing fence that follows
    it. *)
Definition suggestion_match (text : string) : option string :=
  match find_sub fence_open text with
  | Some (_, rest) =>
      match find_sub fence_close rest with
      | Some (body, _) => Some body
      | None => None
      end
  | None => None
  end.

(** [s.replace(pat, '')] for a string [pat]: the first occurrence goes. *)
Definition remove_first (pat s : string) : string :=
  match find_sub pat s with
  | Some (before, after) => before +:+ after
  | None => s
  end.

(** White space and line terminators, among the code units below 256. *)
Definition is_space (c : ascii) : bool :=
  let n := nat_of_ascii c in
  ((9 <=? n) && (n <=? 13) || (n =? 32) || (n =? 160))%nat.

Fixpoint trimStart (s : string) : string :=
  match s with
  | EmptyString => EmptyString
  | String c s' => if is_space c then trimStart s' else s
  end.

Fixpoint trimEnd (s : string) : string :=
  match s with
  | EmptyString => EmptyString
  | String c s' =>
      match trimEnd s' with
      | EmptyString => if is_space c then EmptyString else String c EmptyString
      | rest => String c rest
      end
  end.

(** [s.trim()] *)
Definition trim (s : string) : string := trimEnd (trimStart s).

(** *** The two requests *)

Definition not_configured : LLMResponse :=
  {| success := false;
     response_message := "❌ Please configure your Gemini API key in settings";
     response_codeChange := None; shouldRemove := None |}.

(** [generateComprehensiveFix(context)]: the response, and what is logged
    with [console.error]. *)
Definition generateComprehensiveFix (service : LLMService)
    (context : ConversationContext) : LLMResponse * list string :=
  match genAI service with
  | None => (not_configured, [])
  | Some client =>
      match fix_text client context with
      | Ok text =>
          ({| success := true; response_message := text;
              response_codeChange := suggestion_match text;
              shouldRemove := None |}, [])
      | Throw _ =>
          ({| success := false;
              response_message :=
                "❌ Error generating comprehensive fix. Please try again.";
              response_codeChange := None; shouldRemove := None |},
           ["LLM Error:"])
      end
  end.

(** [handleConversationReply(userMessage, context)] *)
Definition handleConversationReply (service : LLMService) (userMessage : string)
    (context : ConversationContext) : LLMResponse * list string :=
  match genAI service with
  | None => (not_configured, [])
  | Some client =>
      match reply_text client userMessage context with
      | Ok text =>
          let shouldRemove := startsWith text "RESOLVE:" in
          let message :=
            if shouldRemove then trim (remove_first "RESOLVE:" text) else text in
          ({| success := true; response_message := message;
              response_codeChange := None; shouldRemove := Some shouldRemove |}, [])
      | Throw _ =>
          ({| success := false;
              response_message := "❌ Error processing your message. Please try again.";
              response_codeChange := None; shouldRemove := None |},
           ["LLM Error:"])
      end
  end.

(** The context [getAIConversationResponse] makes from the data of a
    thread. *)
Definition context_of (threadData : CommentThreadData) : ConversationContext :=
  {| originalSuggestion := suggestion_text (suggestion threadData);
     context_filePath := filePath (suggestion threadData);
     codeContext := "";
     conversationHistory := conversation threadData |}.

(** [getAIConversationResponse(threadData, userMessage)] of the comment
    manager: the message and [shouldRemove]. *)
Definition getAIConversationResponse (service : LLMService)
    (threadData : CommentThreadData) (userMessage : string) : string * bool :=
  let context := context_of threadData in
  let response := (handleConversationReply service userMessage context).1 in
  if success response
  then (response_message response, default false (shouldRemove response))
  else (response_message response, false).

(** The host of a comment manager whose language model is the service:
    the [n]-th request is made with the context [contexts n] and, for a
    reply, the message [messages n]. *)
Definition host_over (service : LLMService) (contexts : nat -> ConversationContext)
    (messages : nat -> string) (base : Host) : Host :=
  {| findFiles := findFiles base;
     applyEdit := applyEdit base;
     newThreadId := newThreadId base;
     now := now base;
     Comments.generateComprehensiveFix := fun n =>
       (generateComprehensiveFix service (contexts n)).1;
     Comments.handleConversationReply := fun n =>
       (handleConversationReply service (messages n) (contexts n)).1 |}.

(** *** Reading a string *)

(** [pat] occurs in [s] after [n] code units. *)
Definition occurs_at (pat s : string) (n : nat) : Prop :=
  exists before after, s = before +:+ pat +:+ after /\ String.length before = n.

(** The first occurrence of [pat] in [s] is after [n] code units. *)
Definition first_at (pat s : string) (n : nat) : Prop :=
  occurs_at pat s n /\ forall k, occurs_at pat s k -> n <= k.

(** A client that answers every request with the same text. *)
Definition client_saying (text : string) : Client :=
  {| fix_text := fun _ => Ok text; reply_text := fun _ _ => Ok text |}.

Definition sample_answer : string :=
  "Use const." +:+ newline +:+ fence_open +:+ "const x = 1;" +:+ fence_close
  +:+ newline +:+ "Done.".

End LLM.
(** ** Finding the repository and setting up its listener:
    [GitIntegration.findAndSetupRepository], [setupRepositoryListeners] *)

Module GitSetup.
Import Js DiffParser Git GitRuns.

(** A repository object of the git extension, as far as setting up looks
    at it: [repo.rootUri], the state and calls of [repo], and whether
    [repo.state.onDidChange] is a function. *)
Record RepoObject : Type := {
  rootUri : option Uri;
  calls : Repository;
  onDidChange_is_function : bool
}.

(** What setting up does to the outside. *)
Inductive setup_event : Type :=
| Log (what : string)
| LogError (what : string)
| Timer (ms : Z)
| Listen (repo : RepoObject).

(** The fields of [GitIntegration] that setting up uses: whether
    [this.gitApi] is there, [this.repository], and the watcher. *)
Record Integration : Type := {
  gitApi : bool;
  repository : option RepoObject;
  watcher : GitIntegration
}.

Definition set_repository (r : option RepoObject) (gi : Integration) : Integration :=
  {| gitApi := gitApi gi; repository := r; watcher := watcher gi |}.

Definition set_watcher (w : GitIntegration) (gi : Integration) : Integration :=
  {| gitApi := gitApi gi; repository := repository gi; watcher := w |}.

(** [setupRepositoryListeners(repo)].  Nothing in its [try] throws. *)
Definition setupRepositoryListeners (repo : option RepoObject) (gi : Integration)
  : Integration * list setup_event :=
  match repo with
  | None => (gi, [LogError "Invalid repository in setupRepositoryListeners"])
  | Some repo =>
      match rootUri repo, state (calls repo) with
      | Some _, Some st =>
          if negb (onDidChange_is_function repo) then
            (gi, [LogError "Repository state does not have onDidChange listener"])
          else
            let head_commit := HEAD st ≫= commit in
            if truthy_str head_commit then
              (set_watcher (set_lastCommitSha head_commit (watcher gi)) gi,
               [Listen repo])
            else
              (gi, [Listen repo; Log "No initial commit found in repository"])
      | _, _ => (gi, [LogError "Invalid repository in setupRepositoryListeners"])
      end
  end.

(** [findAndSetupRepository(retriesLeft)] and the calls of itself that
    it schedules with [setTimeout], followed to the end.  [repositories k]
    is what [this.gitApi.repositories] holds at the [k]-th call; the third
    component is the exception that escapes, if any.  The recursion is on
    [fuel], which is the number of calls allowed. *)
Fixpoint findAndSetupRepository_from (fuel : nat)
    (repositories : nat -> list RepoObject) (call : nat) (retriesLeft : Z)
    (gi : Integration) : option (Integration * list setup_event * option exn) :=
  if (retriesLeft <=? 0)%Z then
    Some (gi, [Log "Failed to find an open repository after multiple attempts."], None)
  else if gitApi gi && (0 <? length (repositories call))%nat then
    let gi := set_repository (repositories call !! 0%nat) gi in
    match repository gi ≫= rootUri with
    | Some _ =>
        let '(gi, evs) := setupRepositoryListeners (repository gi) gi in
        Some (gi, evs, None)
    | None => Some (gi, [], Some (TypeError "rootUri"))
    end
  else
    match fuel with
    | O => None
    | S fuel' =>
        match findAndSetupRepository_from fuel' repositories (S call)
                (retriesLeft - 1) gi with
        | Some (gi', evs, err) => Some (gi', Timer 500 :: evs, err)
        | None => None
        end
    end.

Definition findAndSetupRepository (repositories : nat -> list RepoObject)
    (retriesLeft : Z) (gi : Integration)
  : option (Integration * list setup_event * option exn) :=
  findAndSetupRepository_from (Z.to_nat retriesLeft) repositories 0 retriesLeft gi.

(** The handler given to [gitApi.onDidOpenRepository]. *)
Definition onDidOpenRepository (repo : RepoObject) (gi : Integration)
  : Integration * list setup_event :=
  if truthy (repository gi) then (gi, [])
  else setupRepositoryListeners (Some repo) (set_repository (Some repo) gi).

(** *** Reading a trace *)

Definition timers (evs : list setup_event) : list Z :=
  omap (fun e => match e with Timer ms => Some ms | _ => None end) evs.

Definition listened (evs : list setup_event) : list RepoObject :=
  omap (fun e => match e with Listen repo => Some repo | _ => None end) evs.



End GitSetup.
(** ** The file watcher: [GitIntegration.setupFileWatcher] *)

Module FileWatcher.
Import Js LLM.

(** [s.includes(sub)] *)
Definition includes (s sub : string) : bool :=
  match find_sub sub s with
  | Some _ => true
  | None => false
  end.

(** [s.endsWith(suffix)] *)
Definition endsWith (s suffix : string) : bool :=
  (String.length suffix <=? String.length s)%nat
  && String.eqb (substring (String.length s - String.length suffix) s) suffix.

(** The filter of [scheduleUpdate]. *)
Definition skipped (path : string) : bool :=
  includes path "node_modules"
  || includes path ".git"
  || includes path ".vscode"
  || includes path "out"
  || includes path "dist"
  || endsWith path ".log".

(** The variable [updateTimeout] of the closure, the timers that are set
    and have neither fired nor been cleared, the handle the next
    [setTimeout] returns, and the calls of [refreshRepositoryInfo] made so
    far. *)
Record Watcher : Type := {
  updateTimeout : option nat;
  live : list nat;
  next_timer : nat;
  refreshes : nat
}.

Definition new_watcher : Watcher :=
  {| updateTimeout := None; live := []; next_timer := 0; refreshes := 0 |}.

(** [clearTimeout(id)] *)
Definition clearTimeout (id : nat) (w : Watcher) : Watcher :=
  {| updateTimeout := updateTimeout w;
     live := filter (fun t => t <> id) (live w);
     next_timer := next_timer w; refreshes := refreshes w |}.

(** [setTimeout(callback, 300)]: the handle, and the watcher with the
    timer set. *)
Definition setTimeout (w : Watcher) : nat * Watcher :=
  (next_timer w,
   {| updateTimeout := updateTimeout w; live := live w ++ [next_timer w];
      next_timer := S (next_timer w); refreshes := refreshes w |}).

(** [scheduleUpdate(uri)], the handler of the three events of the file
    system watcher, for [uri.fsPath = path]. *)
Definition scheduleUpdate (path : string) (w : Watcher) : Watcher :=
  if skipped path then w
  else
    let w := match updateTimeout w with
             | Some id => clearTimeout id w
             | None => w
             end in
    let '(id, w) := setTimeout w in
    {| updateTimeout := Some id; live := live w; next_timer := next_timer w;
       refreshes := refreshes w |}.

(** The timer [id] fires, if it is set: its callback calls
    [refreshRepositoryInfo]. *)
Definition fire (id : nat) (w : Watcher) : Watcher :=
  if bool_decide (id ∈ live w) then
    {| updateTimeout := updateTimeout w;
       live := filter (fun t => t <> id) (live w);
       next_timer := next_timer w; refreshes := S (refreshes w) |}
  else w.

(** What happens to the watcher: a file is created, changed or deleted,
    or the time of a timer has come. *)
Inductive input : Type :=
| FileEvent (path : string)
| TimerFires (id : nat).

Definition step (w : Watcher) (i : input) : Watcher :=
  match i with
  | FileEvent path => scheduleUpdate path w
  | TimerFires id => fire id w
  end.

Definition run_watcher (inputs : list input) : Watcher := foldl step new_watcher inputs.

(** The file events that pass the filter. *)
Definition relevant (i : input) : bool :=
  match i with
  | FileEvent path => negb (skipped path)
  | TimerFires _ => false
  end.

(** The invariant of the watcher: a timer that is set is the one
    [updateTimeout] holds, and there is no other. *)
Definition debounced (w : Watcher) : Prop :=
  live w = [] \/ exists id, live w = [id] /\ updateTimeout w = Some id.

(** The words of the filter that are looked for anywhere in the path. *)
Definition ignored_words : list string :=
  ["node_modules"; ".git"; ".vscode"; "out"; "dist"].

End FileWatcher.
(** ** Parsing the diffs of several files in one text *)

Module DiffCompose.
Import Js DiffParser DiffScan Git.

(** A file whose hunk references are moved up by [k]. *)
Definition shift_file (k : nat) (f : ParsedDiff nat) : ParsedDiff nat :=
  {| filePath := filePath f; status := status f;
     hunks := (fun r => k + r) <$> hunks f;
     addedLines := addedLines f; removedLines := removedLines f |}.

(** The parser in the middle of a text ([big]) against the parser on the
    rest of the text alone ([small]): [big] has the hunk objects [S] and the
    files [P] of what came before, and is otherwise [small], with its
    references moved up behind [S]; the two line counters agree whenever a
    hunk is in progress. *)
Record sim (S : list DiffHunk) (P : list (ParsedDiff nat)) (small big : Locals)
  : Prop := {
  sim_store : store big = S ++ store small;
  sim_parsed : parsedDiffs big = P ++ (shift_file (length S) <$> parsedDiffs small);
  sim_file : currentFile big = shift_file (length S) <$> currentFile small;
  sim_hunk : currentHunk big = (fun r => length S + r) <$> currentHunk small;
  sim_numbers : is_Some (currentHunk small) ->
    oldLineNum big = oldLineNum small /\ newLineNum big = newLineNum small
}.

(** The files a text parses to. *)
Definition parsed (diffText : string) : list (ParsedDiff DiffHunk) :=
  match parseDiffText diffText with
  | Ok files => files
  | Throw _ => []
  end.

(** The text [analyzeNewCommit] hands to the parser for the diffs it
    retrieved: each followed by a newline, one after the other. *)
Definition full_text (diffs : list string) : string :=
  concat_all ((fun fileDiff => fileDiff +:+ nl) <$> diffs).

(** The text is the diff of a file: it starts with a file header. *)
Definition starts_with_header (diffText : string) : Prop :=
  startsWith diffText "diff --git" = true.

Definition diff_of_a : string :=
  "diff --git a/a.txt b/a.txt" +:+ nl +:+ "@@ -1 +1 @@" +:+ nl +:+ "-old" +:+ nl +:+ "+new".

Definition diff_of_b : string :=
  "diff --git a/b.txt b/b.txt" +:+ nl +:+ "new file mode 100644" +:+ nl
  +:+ "@@ -0,0 +1 @@" +:+ nl +:+ "+hello".

End DiffCompose.
(** ** Review threads with the suggestion objects in a store

    [createAdvancedCommentThread] puts into [threadData] the suggestion
    object it is given, not a copy of it, and [fixWithAI] assigns to a field
    of that object.  What the other holders of the object then see -- another
    thread made from the same object, the review the caller keeps -- takes
    the suggestion objects in a store and references to them.  This module
    is the [CommentManager] class with its suggestions held that way; the
    comments, threads, edits and the host are those of [Comments]. *)

Module Shared.
Import Js Comments.

(** [CodeReview], as the caller holds it: [suggestions] are references to
    suggestion objects. *)
Record CodeReview : Type := {
  summary : string;
  suggestions : option (list nat)
}.

(** [CommentThreadData]; [suggestion] is a reference to the suggestion
    object. *)
Record CommentThreadData : Type := {
  suggestion : nat;
  conversation : list ConversationMessage;
  isCollapsed : bool
}.

(** The manager and the world around it.  [threads] holds references to
    the thread objects, which live in [objects]; the entries of [threadData]
    hold references to suggestion objects, whose fields at the moment are
    those [suggestionObjects] gives; [ticks] counts the calls made so far to
    the sources of [Host] that change from call to call. *)
Record CommentManager : Type := {
  threads : gmap string nat;
  threadData : gmap string CommentThreadData;
  objects : list CommentThread;
  suggestionObjects : nat -> CodeReviewSuggestion;
  workspace : gmap string (list string);
  ticks : nat;
  log : list event
}.

Definition set_threads (t : gmap string nat) (m : CommentManager) : CommentManager :=
  {| threads := t; threadData := threadData m; objects := objects m;
     suggestionObjects := suggestionObjects m;
     workspace := workspace m; ticks := ticks m; log := log m |}.

Definition set_threadData (d : gmap string CommentThreadData) (m : CommentManager)
  : CommentManager :=
  {| threads := threads m; threadData := d; objects := objects m;
     suggestionObjects := suggestionObjects m;
     workspace := workspace m; ticks := ticks m; log := log m |}.

Definition set_objects (o : list CommentThread) (m : CommentManager)
  : CommentManager :=
  {| threads := threads m; threadData := threadData m; objects := o;
     suggestionObjects := suggestionObjects m;
     workspace := workspace m; ticks := ticks m; log := log m |}.

Definition set_suggestionObjects (h : nat -> CodeReviewSuggestion)
    (m : CommentManager) : CommentManager :=
  {| threads := threads m; threadData := threadData m; objects := objects m;
     suggestionObjects := h;
     workspace := workspace m; ticks := ticks m; log := log m |}.

Definition set_workspace (w : gmap string (list string)) (m : CommentManager)
  : CommentManager :=
  {| threads := threads m; threadData := threadData m; objects := objects m;
     suggestionObjects := suggestionObjects m;
     workspace := w; ticks := ticks m; log := log m |}.

Definition set_ticks (n : nat) (m : CommentManager) : CommentManager :=
  {| threads := threads m; threadData := threadData m; objects := objects m;
     suggestionObjects := suggestionObjects m;
     workspace := workspace m; ticks := n; log := log m |}.

Definition set_log (l : list event) (m : CommentManager) : CommentManager :=
  {| threads := threads m; threadData := threadData m; objects := objects m;
     suggestionObjects := suggestionObjects m;
     workspace := workspace m; ticks := ticks m; log := l |}.

(** *** Methods run on the manager and may throw *)

Definition M (A : Type) : Type := CommentManager -> result A * CommentManager.

#[export] Instance M_ret : MRet M := fun _ a m => (Ok a, m).

#[export] Instance M_bind : MBind M := fun _ _ f c m =>
  match c m with
  | (Ok a, m') => f a m'
  | (Throw e, m') => (Throw e, m')
  end.

(** [await] on a call that resolves or rejects. *)
Definition await {A : Type} (r : result A) : M A := fun m => (r, m).

(** [try { body } catch (error) { handler }] *)
Definition try_catch {A : Type} (body : M A) (handler : exn -> M A) : M A :=
  fun m =>
    match body m with
    | (Ok a, m') => (Ok a, m')
    | (Throw e, m') => handler e m'
    end.

Definition get : M CommentManager := fun m => (Ok m, m).

Definition modify (f : CommentManager -> CommentManager) : M unit :=
  fun m => (Ok tt, f m).

Definition emit (e : event) : M unit := modify (fun m => set_log (log m ++ [e]) m).

(** The next value of a source that changes from call to call. *)
Definition tick : M nat :=
  fun m => (Ok (ticks m), set_ticks (S (ticks m)) m).

(** *** Thread objects *)

(** [thread.prop = v] *)
Definition update_thread (r : nat) (f : CommentThread -> CommentThread) : M unit :=
  m ← get;
  t ← await (deref "thread" (objects m !! r));
  modify (set_objects (<[r := f t]> (objects m))).

(** [commentController.createCommentThread(uri, range, comments)] followed
    by the assignments to [canReply], [label] and [contextValue]: a new
    object, and the reference to it. *)
Definition createCommentThread (t : CommentThread) : M nat :=
  m ← get;
  modify (set_objects (objects m ++ [t])) ;;
  mret (length (objects m)).

(** [this.threads.get(threadId)]: the object behind the entry, if any. *)
Definition get_thread (m : CommentManager) (threadId : string)
  : option (nat * CommentThread) :=
  r ← threads m !! threadId;
  t ← objects m !! r;
  Some (r, t).

(** *** The methods *)

(** [createAdvancedCommentThread(suggestion)], for the suggestion object
    behind the reference.  The object itself goes into [threadData]; the
    comment and the first message of the conversation are made from its
    fields as they are then. *)
Definition createAdvancedCommentThread (host : Host) (suggestion : nat) : M unit :=
  m ← get;
  let s := suggestionObjects m suggestion in
  fileUris ← await (findFiles host ("**/" +:+ filePath s));
  if (length fileUris =? 0)%nat then
    emit (ConsoleWarn ("[CodeOwl] Could not find file: " +:+ filePath s))
  else
    fileUri ← await (deref "fileUris[0]" (fileUris !! 0%nat));
    let startLine := Z.max 0 (startLine s - 1) in
    let endLine := Z.max 0 (endLine s - 1) in
    range ← await (new_Range startLine 0 endLine 1024);
    n ← tick;
    let threadId := newThreadId host n in
    let comment := {| comment_author := "CodeOwl AI"; body := IssueBody s |} in
    thread ← createCommentThread
      {| uri := fileUri; range := Some range; comments := [comment];
         canReply := false; label := "CodeOwl AI Review";
         contextValue := if truthy_str (codeChange s)
                         then "codeowl-comment-with-change"
                         else "codeowl-comment-suggestion";
         disposed := false |};
    modify (fun m => set_threads (<[threadId := thread]> (threads m)) m) ;;
    modify (fun m =>
      set_threadData
        (<[threadId := {| suggestion := suggestion;
                          conversation := [initial_message s (now host n)];
                          isCollapsed := false |}]> (threadData m)) m).

(** [this.threads.forEach(thread => thread.dispose())] *)
Definition dispose_all (m : CommentManager) : list CommentThread :=
  foldr dispose_at (objects m) (map_to_list (threads m)).*2.

(** [clearAllComments()] *)
Definition clearAllComments : M unit :=
  modify (fun m => set_objects (dispose_all m) m) ;;
  modify (set_threads ∅) ;;
  modify (set_threadData ∅).

(** The loop of [displayReviewsAsComments]. *)
Fixpoint create_all (host : Host) (suggestions : list nat)
  : M unit :=
  match suggestions with
  | [] => mret tt
  | suggestion :: rest =>
      createAdvancedCommentThread host suggestion ;;
      create_all host rest
  end.

(** [displayReviewsAsComments(review)] *)
Definition displayReviewsAsComments (host : Host) (review : CodeReview) : M unit :=
  clearAllComments ;;
  match suggestions review with
  | None | Some [] =>
      emit (ShowInformationMessage "CodeOwl AI: No suggestions found. Looks good!")
  | Some suggestions =>
      create_all host suggestions ;;
      emit (ShowInformationMessage "CodeOwl AI: Added review comment(s) with interactive features.")
  end.

(** [thread.dispose(); this.threads.delete(threadId);
     this.threadData.delete(threadId)] *)
Definition retire (threadId : string) (r : nat) : M unit :=
  update_thread r dispose_thread ;;
  modify (fun m => set_threads (delete threadId (threads m)) m) ;;
  modify (fun m => set_threadData (delete threadId (threadData m)) m).

(** [applySuggestion(threadId)] *)
Definition applySuggestion (host : Host) (threadId : string) : M unit :=
  m ← get;
  match threadData m !! threadId, get_thread m threadId with
  | Some data, Some (r, thread) =>
      match or_else (codeChange (suggestionObjects m (suggestion data))) None,
            range thread with
      | Some change, Some range =>
          try_catch
            (let edit := {| edit_uri := uri thread; edit_range := range;
                            edit_newText := change |} in
             answer ← await (applyEdit host (workspace m) edit);
             match answer with
             | Some files =>
                 modify (set_workspace files) ;;
                 emit (ShowInformationMessage "Code suggestion applied successfully!") ;;
                 retire threadId r
             | None => emit (ShowErrorMessage "Failed to apply code suggestion.")
             end)
            (fun _ =>
               emit (ConsoleError "Error applying suggestion:") ;;
               emit (ShowErrorMessage "Error applying code suggestion."))
      | _, _ => emit (ShowErrorMessage "No code change available to apply.")
      end
  | _, _ => emit (ShowErrorMessage "No code change available to apply.")
  end.

(** [markAsUnderstood(threadId)] *)
Definition markAsUnderstood (threadId : string) : M unit :=
  m ← get;
  match get_thread m threadId with
  | Some (r, _) =>
      retire threadId r ;;
      emit (ShowInformationMessage "Suggestion marked as understood")
  | None => mret tt
  end.

(** [threadData.suggestion.codeChange = c]: the assignment goes to the
    suggestion object, whoever else holds it. *)
Definition assign_codeChange (suggestion : nat) (c : option string) : M unit :=
  modify (fun m =>
    set_suggestionObjects
      (fun r => if decide (r = suggestion)
                then with_codeChange c (suggestionObjects m r)
                else suggestionObjects m r) m).

(** [threadData.conversation.push(msg)] *)
Definition push_conversation (threadId : string) (msg : ConversationMessage)
  : M unit :=
  modify (fun m =>
    set_threadData
      (alter (fun d => {| suggestion := suggestion d;
                          conversation := conversation d ++ [msg];
                          isCollapsed := isCollapsed d |})
             threadId (threadData m)) m).

(** [fixWithAI(threadId)].  The lines read from the file only go into
    the request to the language model, whose answer is [Host]'s. *)
Definition fixWithAI (host : Host) (threadId : string) : M unit :=
  m ← get;
  match threadData m !! threadId, get_thread m threadId with
  | Some data, Some (r, _) =>
      try_catch
        (emit (ShowInformationMessage "CodeOwl is generating a comprehensive fix...") ;;
         update_thread r (append_comment (ai_comment (LoadingBody "Generating comprehensive fix..."))) ;;
         n ← tick;
         let response := generateComprehensiveFix host n in
         update_thread r drop_last_comment ;;
         if success response then
           update_thread r
             (append_comment
                (ai_comment (FixBody (filePath (suggestionObjects m (suggestion data)))
                                     (response_message response)))) ;;
           if truthy_str (response_codeChange response)
           then assign_codeChange (suggestion data) (response_codeChange response)
           else mret tt
         else
           update_thread r
             (append_comment (ai_comment (ErrorBody (response_message response)))))
        (fun _ =>
           emit (ConsoleError "Error generating AI fix:") ;;
           emit (ShowErrorMessage "Error generating AI fix."))
  | _, _ => emit (ShowErrorMessage "Unable to process AI fix request.")
  end.

(** [handleUserReplyFromComment(threadId, replyText)]; the answer of
    [getAIConversationResponse] is [Host]'s, and the [setTimeout] that
    retires the thread later is recorded as scheduled. *)
Definition handleUserReplyFromComment (host : Host) (threadId replyText : string)
  : M unit :=
  m ← get;
  match threadData m !! threadId, get_thread m threadId with
  | Some _, Some (r, _) =>
      n ← tick;
      push_conversation threadId
        {| author := "User"; message := replyText; timestamp := now host n |} ;;
      update_thread r (append_comment (ai_comment (LoadingBody "Analyzing your response..."))) ;;
      try_catch
        (let response := handleConversationReply host n in
         update_thread r drop_last_comment ;;
         if success response && default false (shouldRemove response) then
           emit (ScheduleMarkAsUnderstood threadId)
         else
           push_conversation threadId
             {| author := "CodeOwl AI"; message := response_message response;
                timestamp := now host n |} ;;
           update_thread r
             (append_comment (ai_comment (ReplyBody (response_message response)))))
        (fun _ =>
           emit (ConsoleError "Error getting AI response:") ;;
           update_thread r drop_last_comment)
  | _, _ => mret tt
  end.

(** [findThreadId(thread)]: the id under which the object is stored.  (The
    source takes the first in the order of insertion; an object is stored
    under one id only.) *)
Definition findThreadId (m : CommentManager) (thread : nat) : option string :=
  (fun found => found.2.1) <$>
  list_find (fun entry => entry.2 = thread) (map_to_list (threads m)).

(** [handleUserReply(reply)], for a reply typed into the thread object
    [thread]. *)
Definition handleUserReply (host : Host) (thread : nat) (text : string) : M unit :=
  m ← get;
  match or_else (findThreadId m thread) None with
  | None => mret tt
  | Some threadId =>
      match threadData m !! threadId with
      | None => mret tt
      | Some _ =>
          n ← tick;
          push_conversation threadId
            {| author := "User"; message := text; timestamp := now host n |} ;;
          update_thread thread
            (append_comment {| comment_author := "User"; body := ReplyBody text |}) ;;
          update_thread thread
            (append_comment (ai_comment (LoadingBody "Analyzing your response..."))) ;;
          try_catch
            (let response := handleConversationReply host n in
             update_thread thread drop_last_comment ;;
             if success response && default false (shouldRemove response) then
               update_thread thread
                 (append_comment (ai_comment (ReplyBody (response_message response)))) ;;
               emit (ScheduleMarkAsUnderstood threadId)
             else
               push_conversation threadId
                 {| author := "CodeOwl AI"; message := response_message response;
                    timestamp := now host n |} ;;
               update_thread thread
                 (append_comment (ai_comment (ReplyBody (response_message response)))))
            (fun _ =>
               emit (ConsoleError "Error getting AI response:") ;;
               update_thread thread drop_last_comment ;;
               update_thread thread
                 (append_comment
                    (ai_comment (ErrorBody "Sorry, I encountered an error processing your response."))))
      end
  end.

(** *** The operations of the registry, and running one *)

Inductive operation : Type :=
| Create (suggestion : nat)
| Display (review : CodeReview)
| Reply (threadId replyText : string)
| ReplyInThread (thread : nat) (text : string)
| FixWithAI (threadId : string)
| Apply (threadId : string)
| Resolve (threadId : string)
| ClearAll.

Definition run (host : Host) (op : operation) : M unit :=
  match op with
  | Create suggestion => createAdvancedCommentThread host suggestion
  | Display review => displayReviewsAsComments host review
  | Reply threadId replyText => handleUserReplyFromComment host threadId replyText
  | ReplyInThread thread text => handleUserReply host thread text
  | FixWithAI threadId => fixWithAI host threadId
  | Apply threadId => applySuggestion host threadId
  | Resolve threadId => markAsUnderstood threadId
  | ClearAll => clearAllComments
  end.


(** *** Reading the state *)


(** [keeps P c]: from every manager [m], running [c] ends -- normally or
    by a throw -- in a manager related to [m] by [P]. *)
Definition keeps {A : Type} (P : CommentManager -> CommentManager -> Prop)
    (c : M A) : Prop :=
  forall m, P m (c m).2.


(** *** A manager used below: two threads made from one suggestion object *)


End Shared.

(** ** Properties of the diff parser *)

Module DiffParserProps.
Import Js DiffParser.

(** *** Numbers *)

Lemma to_number_exact (n : N) : (n <= 2 ^ 53)%N -> to_number n = Num n.
Proof.
  intros Hn. destruct (N.eq_dec n (2 ^ 53)%N) as [-> | Hne].
  - vm_compute. reflexivity.
  - unfold to_number. destruct (N.ltb_spec n (2 ^ 53)%N); [reflexivity | lia].
Qed.

Lemma iter_incr_exact (i : nat) (s : N) :
  (s + N.of_nat i <= 2 ^ 53)%N ->
  Nat.iter i incr (Num s) = Num (s + N.of_nat i).
Proof.
  induction i as [| i IH]; intros Hb.
  - simpl. f_equal. lia.
  - simpl. rewrite IH by lia. simpl. rewrite to_number_exact by lia. f_equal. lia.
Qed.

(** *** The invariant of the loop *)

Lemma Inv_initial : Inv initial.
Proof. split; simpl; try constructor; intros; discriminate. Qed.

Lemma refs_in_mono (s s' : list DiffHunk) (f : ParsedDiff ref) :
  length s <= length s' -> refs_in s f -> refs_in s' f.
Proof.
  unfold refs_in. intros Hle H. eapply Forall_impl; [exact H |].
  intros r Hr. simpl in Hr. lia.
Qed.

Lemma push_currentHunk_Inv (st : Locals) (f : ParsedDiff ref) (r : ref) :
  Inv st -> currentFile st = Some f -> currentHunk st = Some r ->
  exists st', push_currentHunk st = Ok st' /\ Inv st'
    /\ store st' = store st /\ currentHunk st' = Some r
    /\ parsedDiffs st' = parsedDiffs st
    /\ is_Some (currentFile st').
Proof.
  intros HI Hf Hh. unfold push_currentHunk. rewrite Hf, Hh. simpl.
  eexists. split; [reflexivity |]. split; [| simpl; eauto 6].
  destruct HI as [H1 H2 H3 H4]. split; simpl; try assumption.
  intros f' [= <-]. unfold refs_in. simpl. apply Forall_app. split.
  - apply (H2 _ Hf).
  - constructor; [| constructor]. destruct (H3 _ Hh) as (h & Hl & _).
    apply lookup_lt_Some in Hl. exact Hl.
Qed.

Lemma push_currentFile_Inv (st : Locals) (f : ParsedDiff ref) :
  Inv st -> currentFile st = Some f ->
  exists st', push_currentFile st = Ok st' /\ Inv st'
    /\ store st' = store st /\ currentHunk st' = currentHunk st.
Proof.
  intros HI Hf. unfold push_currentFile. rewrite Hf. simpl.
  eexists. split; [reflexivity |]. split; [| simpl; eauto].
  destruct HI as [H1 H2 H3 H4]. split; simpl; try assumption.
  apply Forall_app. split; [assumption |]. constructor; [| constructor]. eauto.
Qed.

Lemma set_file_Inv (st : Locals) (f : ParsedDiff ref) :
  Inv st -> refs_in (store st) f -> Inv (set_currentFile (Some f) st).
Proof.
  intros [H1 H2 H3 H4] Hf. split; simpl; try assumption. intros f' [= <-]. exact Hf.
Qed.

Lemma set_hunk_None_Inv (st : Locals) : Inv st -> Inv (set_currentHunk None st).
Proof. intros [H1 H2 H3 H4]. split; simpl; try assumption. intros; discriminate. Qed.

Lemma new_hunk_Inv (os oc ns nc : number) (st : Locals) :
  Inv st ->
  Inv (set_newLineNum ns (set_oldLineNum os (new_hunk os oc ns nc st))).
Proof.
  intros [H1 H2 H3 H4]. split; simpl.
  - eapply Forall_impl; [exact H1 |]. intros f. apply refs_in_mono.
    rewrite length_app. lia.
  - intros f Hf. eapply refs_in_mono; [| exact (H2 _ Hf)]. rewrite length_app. lia.
  - intros r [= <-]. eexists. split.
    + rewrite lookup_app_r by lia. rewrite Nat.sub_diag. reflexivity.
    + split; reflexivity.
  - apply Forall_app. split; [assumption |]. constructor; [| constructor].
    split; reflexivity.
Qed.

Lemma old_side_push (l : DiffLine) (h : DiffHunk) :
  old_side (push_line l h) = old_side h ++ (if on_old l then [l] else []).
Proof.
  unfold old_side, on_old. simpl. rewrite filter_app. f_equal.
  rewrite filter_cons, filter_nil. case_bool_decide; case_decide; done.
Qed.

Lemma new_side_push (l : DiffLine) (h : DiffHunk) :
  new_side (push_line l h) = new_side h ++ (if on_new l then [l] else []).
Proof.
  unfold new_side, on_new. simpl. rewrite filter_app. f_equal.
  rewrite filter_cons, filter_nil. case_bool_decide; case_decide; done.
Qed.

Lemma numbered_push (l : DiffLine) (h : DiffHunk) :
  numbered h ->
  (on_old l = true ->
   oldLineNumber l = Some (Nat.iter (length (old_side h)) incr (oldStart h))) ->
  (on_new l = true ->
   newLineNumber l = Some (Nat.iter (length (new_side h)) incr (newStart h))) ->
  numbered (push_line l h).
Proof.
  intros [Ho Hn] Hlo Hln. split.
  - rewrite old_side_push. destruct (on_old l).
    + rewrite fmap_app, length_app, seq_app, fmap_app, Ho. simpl.
      rewrite Hlo by reflexivity. reflexivity.
    + rewrite app_nil_r. exact Ho.
  - rewrite new_side_push. destruct (on_new l).
    + rewrite fmap_app, length_app, seq_app, fmap_app, Hn. simpl.
      rewrite Hln by reflexivity. reflexivity.
    + rewrite app_nil_r. exact Hn.
Qed.


Lemma content_Inv (st : Locals) (r : ref) (h : DiffHunk) (l : DiffLine)
    (f' : option (ParsedDiff ref)) :
  Inv st -> currentHunk st = Some r -> store st !! r = Some h ->
  (on_old l = true -> oldLineNumber l = Some (oldLineNum st)) ->
  (on_new l = true -> newLineNumber l = Some (newLineNum st)) ->
  (forall f, f' = Some f -> refs_in (store st) f) ->
  Inv {| store := <[r := push_line l h]> (store st);
         parsedDiffs := parsedDiffs st;
         currentFile := f';
         currentHunk := Some r;
         oldLineNum := if on_old l then incr (oldLineNum st) else oldLineNum st;
         newLineNum := if on_new l then incr (newLineNum st) else newLineNum st |}.
Proof.
  intros [H1 H2 H3 H4] Hh Hl Hlo Hln Hf'.
  destruct (H3 _ Hh) as (h0 & Hl0 & Ho & Hn).
  assert (h0 = h) as -> by congruence.
  split; simpl.
  - eapply Forall_impl; [exact H1 |]. intros f. apply refs_in_mono.
    rewrite length_insert. lia.
  - intros f Hf. eapply refs_in_mono; [| exact (Hf' _ Hf)]. rewrite length_insert. lia.
  - intros r' [= <-]. exists (push_line l h). split.
    + apply list_lookup_insert_eq. eapply lookup_lt_Some. exact Hl.
    + rewrite old_side_push, new_side_push. simpl.
      split.
      * destruct (on_old l); rewrite length_app; simpl.
        -- rewrite Nat.add_1_r. simpl. rewrite <- Ho. reflexivity.
        -- rewrite Nat.add_0_r. exact Ho.
      * destruct (on_new l); rewrite length_app; simpl.
        -- rewrite Nat.add_1_r. simpl. rewrite <- Hn. reflexivity.
        -- rewrite Nat.add_0_r. exact Hn.
  - apply Forall_insert; [assumption |].
    apply numbered_push.
    + eapply Forall_lookup_1; [exact H4 | exact Hl].
    + intros Hon. rewrite (Hlo Hon), Ho. reflexivity.
    + intros Hon. rewrite (Hln Hon), Hn. reflexivity.
Qed.

(** Every turn of the loop completes and keeps the invariant. *)
Lemma parse_line_Inv (st : Locals) (line : string) :
  Inv st -> exists st', parse_line st line = Ok st' /\ Inv st'.
Proof.
  intros HI. unfold parse_line.
  destruct (startsWith line "diff --git").
  { destruct (currentFile st) as [f |] eqn:Hf; simpl.
    - destruct (currentHunk st) as [r |] eqn:Hh; simpl.
      + destruct (push_currentHunk_Inv st f r HI Hf Hh)
          as (st1 & -> & HI1 & _ & _ & _ & [f1 Hf1]).
        simpl.
        assert (Inv (set_currentHunk None st1)) as HI2 by (apply set_hunk_None_Inv, HI1).
        destruct (push_currentFile_Inv (set_currentHunk None st1) f1 HI2 Hf1)
          as (st2 & -> & HI3 & _).
        simpl. eexists. split; [reflexivity |].
        apply set_file_Inv; [assumption | constructor].
      + destruct (push_currentFile_Inv st f HI Hf) as (st2 & -> & HI3 & _).
        simpl. eexists. split; [reflexivity |].
        apply set_file_Inv; [assumption | constructor].
    - eexists. split; [reflexivity |]. apply set_file_Inv; [assumption | constructor]. }
  destruct (startsWith line "new file mode").
  { destruct (currentFile st) as [f |] eqn:Hf; simpl.
    - unfold assign_status. rewrite Hf. simpl. eexists. split; [reflexivity |].
      apply set_file_Inv; [assumption |]. apply (inv_file _ HI _ Hf).
    - eauto. }
  destruct (startsWith line "deleted file mode").
  { destruct (currentFile st) as [f |] eqn:Hf; simpl.
    - unfold assign_status. rewrite Hf. simpl. eexists. split; [reflexivity |].
      apply set_file_Inv; [assumption |]. apply (inv_file _ HI _ Hf).
    - eauto. }
  destruct (startsWith line "@@").
  { assert (exists st1, (if truthy (currentHunk st) && truthy (currentFile st)
                         then push_currentHunk st else mret st) = Ok st1 /\ Inv st1)
      as (st1 & -> & HI1).
    { destruct (currentHunk st) as [r |] eqn:Hh; simpl; [| eauto].
      destruct (currentFile st) as [f |] eqn:Hf; simpl; [| eauto].
      destruct (push_currentHunk_Inv st f r HI Hf Hh) as (st1 & -> & HI1 & _).
      eauto. }
    simpl. destruct (hunk_header_match line) as [m |].
    - eexists. split; [reflexivity |]. apply new_hunk_Inv, HI1.
    - eauto. }
  destruct (currentHunk st) as [r |] eqn:Hh; simpl; [| eauto].
  destruct (currentFile st) as [f |] eqn:Hf; simpl; [| eauto].
  destruct (inv_hunk _ HI _ Hh) as (h & Hl & _).
  pose proof (inv_file _ HI _ Hf) as Hrefs.
  pose proof (fun l f' => content_Inv st r h l f' HI Hh Hl) as HC.
  unfold push_to_currentHunk, incr_addedLines, incr_removedLines.
  destruct st as [s p cf ch on nn]. simpl in *. subst cf ch. simpl. rewrite Hl. simpl.
  destruct (startsWith line "+" && negb (startsWith line "+++")).
  { eexists. split; [reflexivity |].
    unfold set_newLineNum, set_currentFile, set_store. simpl.
    match goal with
    | |- Inv {| store := <[_ := push_line ?l _]> _; currentFile := ?f' |} =>
        apply (HC l f')
    end; simpl; try done.
    intros f0 [= <-]. exact Hrefs. }
  destruct (startsWith line "-" && negb (startsWith line "---")).
  { eexists. split; [reflexivity |].
    unfold set_oldLineNum, set_currentFile, set_store. simpl.
    match goal with
    | |- Inv {| store := <[_ := push_line ?l _]> _; currentFile := ?f' |} =>
        apply (HC l f')
    end; simpl; try done.
    intros f0 [= <-]. exact Hrefs. }
  destruct (startsWith line " ").
  { eexists. split; [reflexivity |].
    unfold set_newLineNum, set_oldLineNum, set_store. simpl.
    match goal with
    | |- Inv {| store := <[_ := push_line ?l _]> _; currentFile := ?f' |} =>
        apply (HC l f')
    end; simpl; try done.
    intros f0 [= <-]. exact Hrefs. }
  eauto.
Qed.

(** A line that is no marker and no content line changes nothing. *)
Lemma unrecognised_line_ignored (st : Locals) (line : string) :
  startsWith line "diff --git" = false ->
  startsWith line "new file mode" = false ->
  startsWith line "deleted file mode" = false ->
  startsWith line "@@" = false ->
  startsWith line "+" = false ->
  startsWith line "-" = false ->
  startsWith line " " = false ->
  parse_line st line = Ok st.
Proof.
  intros H1 H2 H3 H4 H5 H6 H7. unfold parse_line.
  rewrite H1, H2, H3, H4, H5, H6, H7. cbn [andb].
  destruct (truthy (currentHunk st) && truthy (currentFile st)); reflexivity.
Qed.

Lemma parse_lines_Inv (ls : list string) (st : Locals) :
  Inv st -> exists st', parse_lines st ls = Ok st' /\ Inv st'.
Proof.
  revert st. induction ls as [| line ls IH]; intros st HI; simpl.
  - eauto.
  - destruct (parse_line_Inv st line HI) as (st1 & -> & HI1). simpl. apply IH, HI1.
Qed.

Lemma finish_Inv (st : Locals) :
  Inv st -> exists st', finish st = Ok st' /\ Inv st'.
Proof.
  intros HI. unfold finish.
  destruct (currentFile st) as [f |] eqn:Hf; simpl; [| eauto].
  destruct (currentHunk st) as [r |] eqn:Hh; simpl.
  - destruct (push_currentHunk_Inv st f r HI Hf Hh)
      as (st1 & -> & HI1 & _ & _ & _ & [f1 Hf1]).
    simpl. destruct (push_currentFile_Inv st1 f1 HI1 Hf1) as (st2 & -> & HI2 & _).
    eauto.
  - destruct (push_currentFile_Inv st f HI Hf) as (st2 & -> & HI2 & _). eauto.
Qed.


(** *** Reading the result never meets a dangling reference *)

Lemma read_hunks_ok (s : list DiffHunk) (rs : list ref) :
  Forall (fun r => r < length s) rs ->
  exists hs, mapM (fun r => deref "hunk object" (s !! r)) rs = Ok hs
    /\ Forall (fun h => h ∈ s) hs.
Proof.
  induction 1 as [| r rs Hr _ (hs & IH & Hhs)]; simpl.
  - exists []. split; [reflexivity | constructor].
  - destruct (lookup_lt_is_Some_2 s r Hr) as [h Hl]. rewrite Hl. simpl.
    rewrite IH. simpl. exists (h :: hs). split; [reflexivity |].
    constructor; [| assumption]. eapply list_elem_of_lookup_2. exact Hl.
Qed.

Lemma read_file_ok (s : list DiffHunk) (f : ParsedDiff ref) :
  refs_in s f ->
  exists f', read_file s f = Ok f' /\ Forall (fun h => h ∈ s) (hunks f').
Proof.
  intros Hf. unfold read_file.
  destruct (read_hunks_ok s (hunks f) Hf) as (hs & -> & Hhs).
  simpl. eexists. split; [reflexivity | exact Hhs].
Qed.

Lemma read_files_ok (s : list DiffHunk) (fs : list (ParsedDiff ref)) :
  Forall (refs_in s) fs ->
  exists out, mapM (read_file s) fs = Ok out
    /\ Forall (fun f => Forall (fun h => h ∈ s) (hunks f)) out.
Proof.
  induction 1 as [| f fs Hf _ (out & IH & Hout)].
  - exists []. split; [reflexivity | constructor].
  - destruct (read_file_ok s f Hf) as (f' & Hr & Hf').
    change (mapM (read_file s) (f :: fs))
      with (read_file s f ≫= fun y => mapM (read_file s) fs ≫= fun k => mret (y :: k)).
    rewrite Hr. simpl. rewrite IH. simpl. eexists. split; [reflexivity |].
    constructor; assumption.
Qed.

(** The parser returns for every input, and every hunk it returns
    satisfies [numbered]. *)
Lemma parseDiffText_spec (diffText : string) :
  exists files, parseDiffText diffText = Ok files
    /\ Forall (fun f => Forall numbered (hunks f)) files.
Proof.
  unfold parseDiffText. destruct (String.eqb diffText "").
  - exists []. split; [reflexivity | constructor].
  - destruct (parse_lines_Inv (split "010" diffText) initial Inv_initial)
      as (st1 & -> & HI1).
    simpl. destruct (finish_Inv st1 HI1) as (st2 & -> & HI2). simpl.
    destruct (read_files_ok (store st2) (parsedDiffs st2) (inv_parsed _ HI2))
      as (out & -> & Hout).
    exists out. split; [reflexivity |].
    eapply Forall_impl; [exact Hout |]. intros f Hf. simpl in Hf.
    eapply Forall_impl; [exact Hf |]. intros h Hh. simpl in Hh.
    eapply Forall_forall; [apply (inv_numbered _ HI2) | exact Hh].
Qed.


Lemma numbered_consecutive (start : number) (xs : list (option number)) (n : nat) :
  xs = (fun i => Some (Nat.iter i incr start)) <$> seq 0 n ->
  counts_exactly start n ->
  consecutive_from start xs.
Proof.
  intros -> (s & -> & Hb) i x Hx. exists s. split; [reflexivity |].
  rewrite list_lookup_fmap in Hx.
  destruct (seq 0 n !! i) as [k |] eqn:Hk; simpl in Hx; [| discriminate].
  apply lookup_seq in Hk as [-> Hlt]. simpl in Hx.
  injection Hx as <-. rewrite iter_incr_exact by lia. reflexivity.
Qed.

(** *** The claims *)

(** C1. Scenario A: the input
    [diff --git a/x.txt b/x.txt], [@@ -1,2 +1,3 @@], [ context], [-old],
    [+new1], [+new2] parses to exactly one file change [x.txt] with status
    Modified, one hunk (oldStart 1, oldCount 2, newStart 1, newCount 3) whose
    lines are Context "context" (1,1), Remove "old" (old 2), Add "new1"
    (new 2), Add "new2" (new 3), and addedLines 2, removedLines 1. *)
Theorem scenario_A_parses :
  parseDiffText scenario_A =
  Ok [ {| filePath := "x.txt"; status := modified;
          hunks :=
            [ {| oldStart := Num 1; oldCount := Num 2;
                 newStart := Num 1; newCount := Num 3;
                 lines :=
                   [ {| type := context; content := "context";
                        oldLineNumber := Some (Num 1);
                        newLineNumber := Some (Num 1) |};
                     {| type := remove; content := "old";
                        oldLineNumber := Some (Num 2);
                        newLineNumber := None |};
                     {| type := add; content := "new1";
                        oldLineNumber := None;
                        newLineNumber := Some (Num 2) |};
                     {| type := add; content := "new2";
                        oldLineNumber := None;
                        newLineNumber := Some (Num 3) |} ] |} ];
          addedLines := Num 2; removedLines := Num 1 |} ].
Proof. vm_compute. reflexivity. Qed.

(** C2, at the failing input.  After a hunk with one Add line, a line
    [@@ bad] pushes the pending hunk into the file and leaves it pending, so
    the end of the input pushes it a second time: the file lists the same
    hunk twice, [addedLines] is 1 and the Add lines over all its hunks
    are 2. *)
Theorem malformed_header_counts_twice :
  exists f,
    parseDiffText malformed_header_input = Ok [f]
    /\ length (hunks f) = 2
    /\ addedLines f = Num 1
    /\ count_kind add f = 2.
Proof. eexists. vm_compute. repeat split. Qed.

(** C3, as stated, fails: in a hunk declared to start at old line 2^53
    both Remove lines get the number 2^53, since a double cannot hold
    2^53 + 1. *)
Lemma huge_start_not_consecutive :
  ~ (forall files f h,
       parseDiffText huge_start_input = Ok files -> f ∈ files -> h ∈ hunks f ->
       consecutive_from (oldStart h) (oldLineNumber <$> old_side h)
       /\ consecutive_from (newStart h) (newLineNumber <$> new_side h)).
Proof.
  intros H.
  destruct (parseDiffText huge_start_input) as [files | e] eqn:E;
    vm_compute in E; [| discriminate].
  injection E as <-.
  edestruct H as [Hold _];
    [reflexivity | apply list_elem_of_here | apply list_elem_of_here |].
  destruct (Hold 1 (Some (Num 9007199254740992)) eq_refl) as (s & Hs & Hx).
  vm_compute in Hs. injection Hs as <-. vm_compute in Hx. discriminate.
Qed.

(** C3, amended.  For every input and every hunk of the result: if the
    hunk's [oldStart] plus the number of its Remove and Context lines stays
    within the range where numbers count in steps of one (no line number
    above 2^53), the [oldLineNumber] values over these lines, in order, are
    [oldStart], [oldStart + 1], ...; and likewise for [newLineNumber] over
    the Add and Context lines from [newStart]. *)
Theorem hunk_line_numbers_consecutive
    (diffText : string) (files : list (ParsedDiff DiffHunk))
    (f : ParsedDiff DiffHunk) (h : DiffHunk) :
  parseDiffText diffText = Ok files -> f ∈ files -> h ∈ hunks f ->
  (counts_exactly (oldStart h) (length (old_side h)) ->
   consecutive_from (oldStart h) (oldLineNumber <$> old_side h))
  /\ (counts_exactly (newStart h) (length (new_side h)) ->
      consecutive_from (newStart h) (newLineNumber <$> new_side h)).
Proof.
  intros Hp Hf Hh.
  destruct (parseDiffText_spec diffText) as (files' & Hp' & Hall).
  rewrite Hp in Hp'. injection Hp' as <-.
  rewrite Forall_forall in Hall. specialize (Hall f Hf).
  rewrite Forall_forall in Hall. destruct (Hall h Hh) as [Ho Hn].
  split; intros Hc; eapply numbered_consecutive; eassumption.
Qed.

Lemma hunk_line_numbers_consecutive_witness :
  consecutive_from (Num 1) [Some (Num 1); Some (Num 2)]
  /\ consecutive_from (Num 1) [Some (Num 1); Some (Num 2); Some (Num 3)].
Proof.
  edestruct (hunk_line_numbers_consecutive scenario_A) as [Hold Hnew];
    [vm_compute; reflexivity | apply list_elem_of_here | apply list_elem_of_here |].
  split.
  - apply Hold. exists 1%N. split; [reflexivity |]. vm_compute. discriminate.
  - apply Hnew. exists 1%N. split; [reflexivity |]. vm_compute. discriminate.
Defined.

(** C4, at the failing input.  A line [@@ bad] between two Add lines is
    not skipped together with the hunk it announces: the Add line after it is
    appended to the hunk before it, and that hunk is listed twice.  Without
    the malformed line and what follows it the result has the one hunk with
    its one line. *)
Theorem malformed_header_not_skipped :
  let h1 := {| oldStart := Num 1; oldCount := Num 1;
               newStart := Num 1; newCount := Num 1;
               lines := [ {| type := add; content := "a";
                             oldLineNumber := None;
                             newLineNumber := Some (Num 1) |} ] |} in
  let h2 := push_line {| type := add; content := "b"; oldLineNumber := None;
                         newLineNumber := Some (Num 2) |} h1 in
  parseDiffText anomalous_hunk_removed =
    Ok [ {| filePath := "x"; status := modified; hunks := [h1];
            addedLines := Num 1; removedLines := Num 0 |} ]
  /\ parseDiffText anomalous_hunk_input =
    Ok [ {| filePath := "x"; status := modified; hunks := [h2; h2];
            addedLines := Num 2; removedLines := Num 0 |} ].
Proof. vm_compute. split; reflexivity. Qed.

End DiffParserProps.

(** ** Properties of the commit watcher and the change acquirer *)

Module GitProps.
Import Js DiffParser Git.

Lemma append_cons (x : ascii) (a b : string) :
  String x a +:+ b = String x (a +:+ b).
Proof. reflexivity. Qed.

Lemma append_assoc (a b c : string) : (a +:+ b) +:+ c = a +:+ (b +:+ c).
Proof.
  induction a as [| x a IH]; [reflexivity |].
  rewrite !append_cons, IH. reflexivity.
Qed.

Lemma append_empty_r (a : string) : a +:+ "" = a.
Proof.
  induction a as [| x a IH]; [reflexivity |].
  rewrite append_cons, IH. reflexivity.
Qed.

Lemma omap_skip {A B : Type} (f : A -> option B) (x : A) (l : list A) :
  f x = None -> omap f (x :: l) = omap f l.
Proof. intros H. simpl. rewrite H. reflexivity. Qed.

Lemma omap_keep {A B : Type} (f : A -> option B) (x : A) (y : B) (l : list A) :
  f x = Some y -> omap f (x :: l) = y :: omap f l.
Proof. intros H. simpl. rewrite H. reflexivity. Qed.

Lemma acquisitions_app (a b : list event) :
  acquisitions (a ++ b) = acquisitions a ++ acquisitions b.
Proof. apply omap_app. Qed.

(** Neither acquisition nor the working-tree analysis starts another
    acquisition. *)
Lemma collect_diffs_acquisitions repo previousCommit newCommit changedFiles text :
  acquisitions (collect_diffs repo previousCommit newCommit changedFiles text).2 = [].
Proof.
  revert text. induction changedFiles as [| change rest IH]; intros text; simpl.
  - reflexivity.
  - destruct (diffBetweenFile repo _ _ _).
    + specialize (IH (text +:+ (a +:+ nl))).
      destruct (collect_diffs repo previousCommit newCommit rest _). exact IH.
    + specialize (IH text).
      destruct (collect_diffs repo previousCommit newCommit rest _). exact IH.
Qed.

Lemma analyzeNewCommit_acquisitions gi repo previousCommit newCommit :
  acquisitions (analyzeNewCommit gi repo previousCommit newCommit) = [].
Proof.
  unfold analyzeNewCommit. simpl.
  destruct (diffBetween repo previousCommit newCommit) as [[[| c cs] |] | e];
    try reflexivity.
  pose proof (collect_diffs_acquisitions repo previousCommit newCommit (c :: cs) "") as H.
  destruct (collect_diffs repo previousCommit newCommit (c :: cs) "") as [text evs].
  simpl in H. unfold acquisitions in *. rewrite omap_app, H. simpl.
  destruct (String.eqb text ""); [reflexivity |]. simpl.
  destruct (parseDiffText text) as [[| d ds] | e]; try reflexivity.
  unfold sendCommitAnalysisToSidebar. destruct (sidebarProvider gi); reflexivity.
Qed.

Lemma analyzeDiffs_acquisitions repo changes :
  acquisitions (analyzeDiffs repo changes) = [].
Proof.
  unfold analyzeDiffs.
  assert (acquisitions (collect_working_tree repo changes).2 = []) as H.
  { induction changes as [| change rest IH]; simpl; [reflexivity |].
    destruct (collect_working_tree repo rest) as [files evs].
    destruct (diffWithHEAD repo _); exact IH. }
  destruct (collect_working_tree repo changes) as [files evs]. simpl in H.
  unfold acquisitions in *. rewrite omap_app, H. reflexivity.
Qed.

(** What the loop over the changed files gathers, asks for and logs. *)
Lemma collect_diffs_spec repo previousCommit newCommit changedFiles text :
  let out := collect_diffs repo previousCommit newCommit changedFiles text in
  out.1 = text +:+ concat_all (retrieved repo previousCommit newCommit changedFiles)
  /\ requested_files out.2 = (fun c => fsPath (uri c)) <$> changedFiles
  /\ logged_errors out.2
     = (fun file => "Could not get diff for file " +:+ file)
         <$> failed_files repo previousCommit newCommit changedFiles
  /\ parser_calls out.2 = []
  /\ sidebar_updates out.2 = [].
Proof.
  revert text. induction changedFiles as [| change rest IH]; intros text; simpl.
  - rewrite append_empty_r. repeat split; reflexivity.
  - unfold retrieved, failed_files. simpl.
    destruct (diffBetweenFile repo previousCommit newCommit (fsPath (uri change)))
      as [fileDiff | e].
    + specialize (IH (text +:+ (fileDiff +:+ nl))). simpl in IH.
      destruct (collect_diffs repo previousCommit newCommit rest _) as [t evs].
      simpl in *. destruct IH as (-> & -> & -> & -> & ->).
      rewrite append_assoc. repeat split; reflexivity.
    + specialize (IH text). simpl in IH.
      destruct (collect_diffs repo previousCommit newCommit rest _) as [t evs].
      simpl in *. destruct IH as (-> & -> & -> & -> & ->).
      repeat split; reflexivity.
Qed.




(** C6.  When the repository lists a non-empty sequence of changed files,
    acquisition asks for the diff of every one of them in the order of the
    list, whether or not earlier ones failed; each failure is logged; the
    texts that were retrieved are concatenated in that order, each followed
    by a newline; the parser is called exactly once, with that text, when
    the text is not empty, and when it is empty the parser is not called and
    nothing is sent to the sidebar. *)
Theorem acquisition_skips_failed_files
    (gi : GitIntegration) (repo : Repository)
    (previousCommit newCommit : string) (changedFiles : list GitChange) :
  diffBetween repo previousCommit newCommit = Ok (Some changedFiles) ->
  changedFiles <> [] ->
  let evs := analyzeNewCommit gi repo previousCommit newCommit in
  let fullDiffText :=
    concat_all (retrieved repo previousCommit newCommit changedFiles) in
  requested_files evs = (fun c => fsPath (uri c)) <$> changedFiles
  /\ (forall file,
        file ∈ failed_files repo previousCommit newCommit changedFiles ->
        ("Could not get diff for file " +:+ file) ∈ logged_errors evs)
  /\ (fullDiffText <> "" -> parser_calls evs = [fullDiffText])
  /\ (fullDiffText = "" -> parser_calls evs = [] /\ sidebar_updates evs = []).
Proof.
  intros Hlist Hne evs fullDiffText. subst evs. unfold analyzeNewCommit.
  rewrite Hlist. destruct changedFiles as [| c cs]; [congruence |].
  pose proof (collect_diffs_spec repo previousCommit newCommit (c :: cs) "") as H.
  cbv zeta in H. fold fullDiffText in H.
  destruct (collect_diffs repo previousCommit newCommit (c :: cs) "") as [text evs].
  cbn [fst snd] in H. destruct H as (Ht & Hreq & Hlog & Hpar & Hside).
  change ("" +:+ fullDiffText) with fullDiffText in Ht. subst text.
  set (tail := if String.eqb fullDiffText "" then _ else _).
  assert (requested_files tail = []) as Hreq_tail.
  { subst tail. destruct (String.eqb fullDiffText ""); [reflexivity |].
    destruct (parseDiffText fullDiffText) as [[| d ds] | e]; try reflexivity.
    unfold sendCommitAnalysisToSidebar. destruct (sidebarProvider gi); reflexivity. }
  split; [| split; [| split]].
  - unfold requested_files in *. rewrite omap_skip by reflexivity.
    rewrite omap_app, Hreq, Hreq_tail. apply app_nil_r.
  - intros file Hfile. unfold logged_errors in *. rewrite omap_skip by reflexivity.
    rewrite omap_app, Hlog. apply elem_of_app. left.
    apply list_elem_of_fmap. exists file. split; [reflexivity | exact Hfile].
  - intros Hnonempty. apply String.eqb_neq in Hnonempty.
    subst tail. rewrite Hnonempty.
    unfold parser_calls in *. rewrite omap_skip by reflexivity.
    rewrite omap_app, Hpar. cbn [app].
    erewrite omap_keep by reflexivity. f_equal.
    destruct (parseDiffText fullDiffText) as [[| d ds] | e]; try reflexivity.
    unfold sendCommitAnalysisToSidebar. destruct (sidebarProvider gi); reflexivity.
  - intros Hempty. subst tail. rewrite Hempty. cbn [String.eqb].
    unfold parser_calls, sidebar_updates in *. rewrite !omap_skip by reflexivity.
    rewrite !omap_app, Hpar, Hside. split; reflexivity.
Qed.

Lemma acquisition_skips_failed_files_witness :
  let evs := analyzeNewCommit sample_watcher sample_repo "aaaaaaaa" "bbbbbbbb" in
  requested_files evs = ["a.txt"; "b.txt"; "c.txt"]
  /\ "Could not get diff for file b.txt" ∈ logged_errors evs
  /\ parser_calls evs
     = ["diff --git a/a.txt b/a.txt" +:+ nl +:+ "diff --git a/c.txt b/c.txt" +:+ nl].
Proof.
  destruct (acquisition_skips_failed_files sample_watcher sample_repo
              "aaaaaaaa" "bbbbbbbb"
              [change_of "a.txt"; change_of "b.txt"; change_of "c.txt"]
              eq_refl ltac:(discriminate))
    as (Hreq & Hlog & Hcall & _).
  split; [exact Hreq |]. split.
  - apply (Hlog "b.txt"). vm_compute. apply list_elem_of_here.
  - apply Hcall. vm_compute. discriminate.
Defined.

End GitProps.

(** ** Properties of the review threads *)

Module CommentsProps.
Import Js Comments.

(** Unfolds the plumbing of [M]. *)
Ltac step_M :=
  unfold mbind, M_bind, mret, M_ret, await, get, modify, emit, tick, try_catch;
  cbn beta iota.

Lemma new_Range_clamped (a b : Z) :
  (a <= b)%Z ->
  new_Range (Z.max 0 (a - 1)) 0 (Z.max 0 (b - 1)) 1024
  = Ok {| range_start := {| line := Z.max 0 (a - 1); character := 0 |};
          range_end := {| line := Z.max 0 (b - 1); character := 1024 |} |}.
Proof.
  intros Hab. unfold new_Range.
  replace (Z.max 0 (a - 1) <? 0)%Z with false by (symmetry; apply Z.ltb_ge; lia).
  replace (Z.max 0 (b - 1) <? 0)%Z with false by (symmetry; apply Z.ltb_ge; lia).
  cbn [orb Z.ltb Z.compare]. unfold position_isBefore. cbn [line character].
  destruct (Z.ltb_spec (Z.max 0 (a - 1)) (Z.max 0 (b - 1))); [reflexivity |].
  replace (Z.max 0 (a - 1) =? Z.max 0 (b - 1))%Z with true
    by (symmetry; apply Z.eqb_eq; lia).
  reflexivity.
Qed.

Lemma new_Range_never_throws (a b : Z) :
  exists r, new_Range (Z.max 0 (a - 1)) 0 (Z.max 0 (b - 1)) 1024 = Ok r.
Proof.
  unfold new_Range.
  replace (Z.max 0 (a - 1) <? 0)%Z with false by (symmetry; apply Z.ltb_ge; lia).
  replace (Z.max 0 (b - 1) <? 0)%Z with false by (symmetry; apply Z.ltb_ge; lia).
  cbn [orb Z.ltb Z.compare]. destruct (position_isBefore _ _); eauto.
Qed.

(** What [createAdvancedCommentThread] does when the file is found. *)
Lemma create_found (host : Host) (s : CodeReviewSuggestion) (m : CommentManager)
    (fileUri : string) (rest : list string) (rg : Range) :
  findFiles host ("**/" +:+ filePath s) = Ok (fileUri :: rest) ->
  new_Range (Z.max 0 (startLine s - 1)) 0 (Z.max 0 (endLine s - 1)) 1024 = Ok rg ->
  createAdvancedCommentThread host s m =
  (Ok tt,
   {| threads := <[newThreadId host (ticks m) := length (objects m)]> (threads m);
      threadData := <[newThreadId host (ticks m) := data_for s (now host (ticks m))]>
                      (threadData m);
      objects := objects m ++
                 [ {| uri := fileUri; range := Some rg;
                      comments := comments (thread_for s fileUri);
                      canReply := false; label := "CodeOwl AI Review";
                      contextValue := contextValue (thread_for s fileUri);
                      disposed := false |} ];
      workspace := workspace m; ticks := S (ticks m); log := log m |}).
Proof.
  intros Hfind Hrange. unfold createAdvancedCommentThread, createCommentThread.
  step_M. rewrite Hfind. cbn. rewrite Hrange. reflexivity.
Qed.

Lemma create_not_found (host : Host) (s : CodeReviewSuggestion) (m : CommentManager) :
  findFiles host ("**/" +:+ filePath s) = Ok [] ->
  createAdvancedCommentThread host s m =
  (Ok tt, set_log (log m ++ [ConsoleWarn ("[CodeOwl] Could not find file: " +:+ filePath s)]) m).
Proof.
  intros Hfind. unfold createAdvancedCommentThread. step_M. rewrite Hfind. reflexivity.
Qed.

Lemma create_rejected (host : Host) (s : CodeReviewSuggestion) (m : CommentManager)
    (e : exn) :
  findFiles host ("**/" +:+ filePath s) = Throw e ->
  createAdvancedCommentThread host s m = (Throw e, m).
Proof.
  intros Hfind. unfold createAdvancedCommentThread. step_M. rewrite Hfind. reflexivity.
Qed.

(** C7, as stated, fails: a suggestion for line 100 of a file of ten
    lines gets a thread whose range is on line 99, outside the file. *)
Lemma range_not_clamped_to_file :
  ~ (forall (host : Host) (s : CodeReviewSuggestion) (m m' : CommentManager)
            (t : CommentThread) (rg : Range),
       createAdvancedCommentThread host s m = (Ok tt, m') ->
       objects m' = objects m ++ [t] -> range t = Some rg ->
       within_lines (lineCount m' (uri t)) rg).
Proof.
  intros H.
  pose proof (create_found sample_host sample_suggestion sample_manager
                "/work/src/a.ts" [] _ eq_refl eq_refl) as Hrun.
  specialize (H _ _ _ _ _ _ Hrun eq_refl eq_refl).
  destruct H as [[_ Hhi] _]. vm_compute in Hhi. apply Hhi. reflexivity.
Qed.

(** C7, amended.  For a suggestion whose file is found and whose
    [startLine] is at most its [endLine], a thread is created whatever the
    line numbers are, on the range from line [max(0, startLine - 1)],
    character 0, to line [max(0, endLine - 1)], character 1024: the 1-based
    lines become 0-based and are bounded below by 0; the number of lines of
    the file is not consulted. *)
Theorem range_converted_and_bounded_below
    (host : Host) (s : CodeReviewSuggestion) (m : CommentManager)
    (fileUri : string) (rest : list string) :
  findFiles host ("**/" +:+ filePath s) = Ok (fileUri :: rest) ->
  (startLine s <= endLine s)%Z ->
  let out := createAdvancedCommentThread host s m in
  out.1 = Ok tt
  /\ objects out.2 = objects m ++ [thread_for s fileUri]
  /\ threads out.2 !! newThreadId host (ticks m) = Some (length (objects m))
  /\ (0 <= Z.max 0 (startLine s - 1))%Z
  /\ (0 <= Z.max 0 (endLine s - 1))%Z
  /\ (1 <= startLine s -> Z.max 0 (startLine s - 1) = startLine s - 1)%Z
  /\ (1 <= endLine s -> Z.max 0 (endLine s - 1) = endLine s - 1)%Z.
Proof.
  intros Hfind Hle out. subst out.
  rewrite (create_found host s m fileUri rest _ Hfind (new_Range_clamped _ _ Hle)).
  cbn [fst snd objects threads]. split; [reflexivity |]. split; [reflexivity |].
  split; [apply lookup_insert_eq |]. lia.
Qed.

Lemma range_converted_and_bounded_below_witness :
  let out := createAdvancedCommentThread sample_host sample_suggestion sample_manager in
  out.1 = Ok tt
  /\ objects out.2 = [thread_for sample_suggestion "/work/src/a.ts"].
Proof.
  destruct (range_converted_and_bounded_below sample_host sample_suggestion
              sample_manager "/work/src/a.ts" [] eq_refl ltac:(reflexivity))
    as (H1 & H2 & _).
  split; [exact H1 | exact H2].
Defined.


Lemma shown_errors_app (a b : list event) :
  shown_errors (a ++ b) = shown_errors a ++ shown_errors b.
Proof. apply omap_app. Qed.

(** C8.  [applySuggestion] either applies the edit and retires the
    thread, or changes nothing and shows an error.  When the thread is
    known, its suggestion has a replacement, it has a range and the editor
    accepts the edit, the files are those the editor returns for the edit
    of exactly that range with exactly that replacement, the thread object is
    disposed and the thread leaves both maps.  In every other case -- unknown
    thread, no replacement, no range, edit refused, edit rejected with an
    error -- the maps, the thread objects and the files are as before and
    one error message is shown. *)
Theorem apply_all_or_nothing (host : Host) (threadId : string) (m : CommentManager) :
  let out := applySuggestion host threadId m in
  out.1 = Ok tt /\
  match located_edit m threadId with
  | Some (r, thread, edit) =>
      match applyEdit host (workspace m) edit with
      | Ok (Some files) =>
          workspace out.2 = files
          /\ threads out.2 = delete threadId (threads m)
          /\ threadData out.2 = delete threadId (threadData m)
          /\ objects out.2 = <[r := dispose_thread thread]> (objects m)
          /\ shown_errors (log out.2) = shown_errors (log m)
      | _ => same_threads_and_files m out.2 /\ error_shown m out.2
      end
  | None => same_threads_and_files m out.2 /\ error_shown m out.2
  end.
Proof.
  unfold applySuggestion, located_edit, same_threads_and_files, error_shown.
  step_M.
  destruct (threadData m !! threadId) as [data |] eqn:Hdata; cbn;
    [| split; [reflexivity |]; split; [done |]; eexists;
       rewrite shown_errors_app; reflexivity].
  destruct (get_thread m threadId) as [[r thread] |] eqn:Hthread; cbn;
    [| split; [reflexivity |]; split; [done |]; eexists;
       rewrite shown_errors_app; reflexivity].
  destruct (or_else (codeChange (suggestion data)) None) as [change |]; cbn;
    [| split; [reflexivity |]; split; [done |]; eexists;
       rewrite shown_errors_app; reflexivity].
  destruct (range thread) as [rg |]; cbn;
    [| split; [reflexivity |]; split; [done |]; eexists;
       rewrite shown_errors_app; reflexivity].
  destruct (applyEdit host (workspace m) _) as [[files |] | e]; cbn.
  - unfold retire, update_thread. step_M. cbn.
    unfold get_thread in Hthread.
    destruct (threads m !! threadId) as [r' |]; [| discriminate]. cbn in Hthread.
    destruct (objects m !! r') as [t' |] eqn:Hobj; [| discriminate].
    cbn in Hthread. injection Hthread as -> ->. rewrite Hobj. cbn.
    split; [reflexivity |]. repeat split.
    rewrite shown_errors_app. cbn. apply app_nil_r.
  - split; [reflexivity |]. split; [done |]. eexists.
    rewrite shown_errors_app. reflexivity.
  - split; [reflexivity |]. split; [done |].
    exists "Error applying code suggestion.".
    rewrite !shown_errors_app. cbn. rewrite app_nil_r. reflexivity.
Qed.


(** *** What the methods keep *)

Lemma keeps_bind_gen {A B : Type} (P Q R : CommentManager -> CommentManager -> Prop)
    (c : M A) (f : A -> M B) :
  (forall m m1 m2, P m m1 -> Q m1 m2 -> R m m2) ->
  (forall m m1, P m m1 -> R m m1) ->
  keeps P c -> (forall a, keeps Q (f a)) -> keeps R (c ≫= f).
Proof.
  intros HPQ HP Hc Hf m. unfold mbind, M_bind. specialize (Hc m).
  destruct (c m) as [[a | e] m1]; cbn in *.
  - eapply HPQ; [exact Hc | apply Hf].
  - apply HP, Hc.
Qed.

Lemma keeps_try_gen {A : Type} (P Q R : CommentManager -> CommentManager -> Prop)
    (body : M A) (handler : exn -> M A) :
  (forall m m1 m2, P m m1 -> Q m1 m2 -> R m m2) ->
  (forall m m1, P m m1 -> R m m1) ->
  keeps P body -> (forall e, keeps Q (handler e)) -> keeps R (try_catch body handler).
Proof.
  intros HPQ HP Hc Hf m. unfold try_catch. specialize (Hc m).
  destruct (body m) as [[a | e] m1]; cbn in *.
  - apply HP, Hc.
  - eapply HPQ; [exact Hc | apply Hf].
Qed.


(** *** Displaying a review *)

Lemma dispose_fold_length (rs : list nat) (objs : list CommentThread) :
  length (foldr dispose_at objs rs) = length objs.
Proof.
  induction rs as [| r rs IH]; cbn [foldr]; [reflexivity |].
  unfold dispose_at at 1. destruct (foldr dispose_at objs rs !! r).
  - rewrite length_insert. exact IH.
  - exact IH.
Qed.

Lemma dispose_fold_disposed (rs : list nat) (objs : list CommentThread) (r : nat) :
  r ∈ rs -> r < length objs ->
  exists t, foldr dispose_at objs rs !! r = Some t /\ disposed t = true.
Proof.
  intros Hin Hlt. induction rs as [| r0 rs IH]; [inversion Hin |].
  cbn [foldr]. unfold dispose_at at 1.
  pose proof (dispose_fold_length rs objs) as Hlen.
  destruct (decide (r = r0)) as [<- | Hne].
  - destruct (lookup_lt_is_Some_2 (foldr dispose_at objs rs) r) as [t Ht]; [lia |].
    rewrite Ht. exists (dispose_thread t). split; [| reflexivity].
    apply list_lookup_insert_eq. lia.
  - apply elem_of_cons in Hin as [Heq | Hin]; [congruence |].
    destruct (IH Hin) as (t & Ht & Hd).
    destruct (foldr dispose_at objs rs !! r0); [| eauto].
    exists t. split; [| exact Hd]. rewrite list_lookup_insert_ne by congruence. exact Ht.
Qed.

Lemma dispose_all_disposed (m : CommentManager) (id : string) (r : nat) :
  threads m !! id = Some r -> r < length (objects m) ->
  exists t, dispose_all m !! r = Some t /\ disposed t = true.
Proof.
  intros Hid Hlt. apply dispose_fold_disposed; [| exact Hlt].
  apply list_elem_of_fmap. exists (id, r). split; [reflexivity |].
  apply elem_of_map_to_list. exact Hid.
Qed.

Lemma matched_cons_found host s ss u :
  found host s = Some u -> matched host (s :: ss) = (s, u) :: matched host ss.
Proof. intros H. unfold matched. simpl. rewrite H. reflexivity. Qed.

Lemma matched_cons_not_found host s ss :
  found host s = None -> matched host (s :: ss) = matched host ss.
Proof. intros H. unfold matched. simpl. rewrite H. reflexivity. Qed.

(** What the loop of [displayReviewsAsComments] leaves, when it completes
    and the generated ids are pairwise distinct and not in use. *)
Lemma create_all_spec (host : Host) (ss : list CodeReviewSuggestion) :
  (forall i j, newThreadId host i = newThreadId host j -> i = j) ->
  forall m m',
  create_all host ss m = (Ok tt, m') ->
  (forall n, ticks m <= n ->
     threads m !! newThreadId host n = None
     /\ threadData m !! newThreadId host n = None) ->
  ticks m' = ticks m + length (matched host ss)
  /\ length (objects m') = length (objects m) + length (matched host ss)
  /\ (forall r t, objects m !! r = Some t -> objects m' !! r = Some t)
  /\ size (threads m') = size (threads m) + length (matched host ss)
  /\ size (threadData m') = size (threadData m) + length (matched host ss)
  /\ (forall i s u, matched host ss !! i = Some (s, u) ->
        threads m' !! newThreadId host (ticks m + i) = Some (length (objects m) + i)
        /\ threadData m' !! newThreadId host (ticks m + i)
           = Some (data_for s (now host (ticks m + i)))
        /\ exists t, objects m' !! (length (objects m) + i) = Some t
                     /\ uri t = u /\ disposed t = false)
  /\ (forall id r, threads m' !! id = Some r ->
        threads m !! id = Some r \/ length (objects m) <= r)
  /\ (forall id, (forall i, i < length (matched host ss) ->
                    id <> newThreadId host (ticks m + i)) ->
        threads m' !! id = threads m !! id
        /\ threadData m' !! id = threadData m !! id).
Proof.
  intros Hinj. induction ss as [| s ss IH]; intros m m' Hrun Hfresh.
  - cbn in Hrun. injection Hrun as <-.
    change (matched host []) with (@nil (CodeReviewSuggestion * string)).
    cbn [length]. rewrite !Nat.add_0_r.
    repeat split; auto;
      match goal with
      | H : [] !! _ = Some _ |- _ => rewrite lookup_nil in H; discriminate
      end.
  - cbn [create_all] in Hrun. unfold mbind, M_bind in Hrun.
    destruct (findFiles host ("**/" +:+ filePath s)) as [[| fileUri rest] | e] eqn:Hfind.
    + rewrite (create_not_found _ _ _ Hfind) in Hrun.
      rewrite matched_cons_not_found by (unfold found; rewrite Hfind; reflexivity).
      apply (IH _ _ Hrun). exact Hfresh.
    + destruct (new_Range_never_throws (startLine s) (endLine s)) as [rg Hrg].
      rewrite (create_found _ _ _ _ _ _ Hfind Hrg) in Hrun.
      rewrite (matched_cons_found host s ss fileUri)
        by (unfold found; rewrite Hfind; reflexivity).
      cbn [length].
      match type of Hrun with
      | create_all _ _ ?st = _ => set (m1 := st) in *
      end.
      destruct (Hfresh (ticks m) (le_n _)) as [Hft Hfd].
      assert (forall n, ticks m1 <= n ->
                threads m1 !! newThreadId host n = None
                /\ threadData m1 !! newThreadId host n = None) as Hfresh1.
      { intros n Hn. subst m1. cbn in *.
        assert (newThreadId host (ticks m) <> newThreadId host n) as Hne
          by (intros E; apply Hinj in E; lia).
        rewrite !lookup_insert_ne by exact Hne. apply Hfresh. lia. }
      destruct (IH _ _ Hrun Hfresh1)
        as (Hticks & Hlen & Hpre & Hst & Hsd & Hnew & Hold & Hother).
      assert (ticks m1 = S (ticks m)) as Et by reflexivity.
      assert (length (objects m1) = S (length (objects m))) as El
        by (subst m1; cbn; rewrite length_app; cbn; lia).
      assert (size (threads m1) = S (size (threads m))) as Est
        by (subst m1; cbn; apply map_size_insert_None, Hft).
      assert (size (threadData m1) = S (size (threadData m))) as Esd
        by (subst m1; cbn; apply map_size_insert_None, Hfd).
      rewrite Et in *. rewrite El in *. rewrite Est in *. rewrite Esd in *.
      split; [lia |]. split; [lia |]. split.
      { intros r t Hr. apply Hpre. subst m1. cbn.
        apply lookup_app_l_Some. exact Hr. }
      split; [lia |]. split; [lia |]. split.
      { intros [| i] s0 u Hi.
        - cbn in Hi. injection Hi as <- <-. rewrite !Nat.add_0_r.
          destruct (Hother (newThreadId host (ticks m))) as [Ht Hd].
          { intros k _ E. apply Hinj in E. lia. }
          rewrite Ht, Hd. subst m1. cbn. rewrite !lookup_insert_eq.
          split; [reflexivity |]. split; [reflexivity |].
          eexists. split; [apply Hpre; cbn; apply list_lookup_middle; reflexivity |].
          split; reflexivity.
        - cbn in Hi. destruct (Hnew i s0 u Hi) as (Ht & Hd & t & Hobj & Hu & Hdis).
          rewrite !Nat.add_succ_r. cbn [Nat.add] in Ht, Hd, Hobj.
          split; [exact Ht |]. split; [exact Hd |]. eauto. }
      split.
      { intros id r Hr. destruct (Hold id r Hr) as [Hm1 | Hge]; [| right; lia].
        subst m1. cbn in Hm1. rewrite lookup_insert in Hm1. case_decide.
        - injection Hm1 as <-. right. lia.
        - left. exact Hm1. }
      { intros id Hid. destruct (Hother id) as [Ht Hd].
        - intros k Hk. specialize (Hid (S k) ltac:(lia)).
          rewrite Nat.add_succ_r in Hid. exact Hid.
        - rewrite Ht, Hd. subst m1. cbn.
          specialize (Hid 0 ltac:(lia)). rewrite Nat.add_0_r in Hid.
          rewrite !lookup_insert_ne by congruence. split; reflexivity. }
    + rewrite (create_rejected _ _ _ _ Hfind) in Hrun. discriminate.
Qed.


(** C10.  When [displayReviewsAsComments] completes (ids being pairwise
    distinct): every thread the manager held before is disposed and no entry
    of [threads] refers to it; [threads] and [threadData] have exactly one
    entry per suggestion of the review whose file was found, under the id
    generated for it, and no other entry; the thread of such an entry was
    created during the call
    on the file found and is not disposed, and its data holds the suggestion
    and a conversation of one message, the text of the suggestion. *)
Theorem display_replaces_active_set
    (host : Host) (review : CodeReview) (m : CommentManager) :
  (displayReviewsAsComments host review m).1 = Ok tt ->
  (forall i j, newThreadId host i = newThreadId host j -> i = j) ->
  let m' := (displayReviewsAsComments host review m).2 in
  let new := matched host (default [] (suggestions review)) in
  (forall id r, threads m !! id = Some r -> r < length (objects m) ->
     (exists t, objects m' !! r = Some t /\ disposed t = true)
     /\ (forall id', threads m' !! id' <> Some r))
  /\ size (threads m') = length new
  /\ size (threadData m') = length new
  /\ (forall i s u, new !! i = Some (s, u) ->
        exists r t,
          threads m' !! newThreadId host (ticks m + i) = Some r
          /\ length (objects m) <= r
          /\ objects m' !! r = Some t /\ uri t = u /\ disposed t = false
          /\ threadData m' !! newThreadId host (ticks m + i)
             = Some {| suggestion := s;
                       conversation :=
                         [{| author := "CodeOwl AI"; message := suggestion_text s;
                             timestamp := now host (ticks m + i) |}];
                       isCollapsed := false |})
  /\ (forall id, (forall i, i < length new -> id <> newThreadId host (ticks m + i)) ->
        threads m' !! id = None /\ threadData m' !! id = None).
Proof.
  intros Hok Hinj m' new.
  set (m0 := {| threads := ∅; threadData := ∅; objects := dispose_all m;
                workspace := workspace m; ticks := ticks m; log := log m |}).
  assert (exists m1,
             create_all host (default [] (suggestions review)) m0 = (Ok tt, m1)
             /\ threads m' = threads m1 /\ threadData m' = threadData m1
             /\ objects m' = objects m1) as (m1 & Hrun & Et & Ed & Eo).
  { subst m' new. revert Hok. unfold displayReviewsAsComments.
    change (clearAllComments ≫= ?f) with (fun m => f tt (clearAllComments m).2).
    cbv beta. change (clearAllComments m).2 with m0.
    destruct (suggestions review) as [[| s ss] |]; cbn [default].
    - intros _. exists m0. split; [reflexivity |]. split; [reflexivity |].
      split; reflexivity.
    - unfold mbind, M_bind.
      destruct (create_all host (s :: ss) m0) as [[[] | e] m1] eqn:Hrun;
        cbn; [| discriminate].
      intros _. exists m1. split; [exact Hrun |]. split; [reflexivity |].
      split; reflexivity.
    - intros _. exists m0. split; [reflexivity |]. split; [reflexivity |].
      split; reflexivity. }
  rewrite Et, Ed, Eo. clear Et Ed Eo.
  destruct (create_all_spec host _ Hinj m0 m1 Hrun)
    as (_ & _ & Hpre & Hst & Hsd & Hnew & Hold & Hother).
  { intros n _. split; apply lookup_empty. }
  fold new in Hst, Hsd, Hnew, Hother.
  assert (length (objects m0) = length (objects m)) as El
    by apply dispose_fold_length.
  split; [| split; [| split; [| split]]].
  - intros id r Hid Hlt. split.
    + destruct (dispose_all_disposed m id r Hid Hlt) as (t & Ht & Hd).
      exists t. split; [apply Hpre; exact Ht | exact Hd].
    + intros id' Hid'. destruct (Hold _ _ Hid') as [H0 | Hge].
      * cbn in H0. rewrite lookup_empty in H0. discriminate.
      * lia.
  - rewrite Hst. cbn. rewrite map_size_empty. reflexivity.
  - rewrite Hsd. cbn. rewrite map_size_empty. reflexivity.
  - intros i s u Hi. destruct (Hnew i s u Hi) as (Ht & Hd & t & Hobj & Hu & Hdis).
    exists (length (objects m0) + i), t.
    split; [exact Ht |]. split; [lia |]. split; [exact Hobj |].
    split; [exact Hu |]. split; [exact Hdis |]. exact Hd.
  - intros id Hid. destruct (Hother id Hid) as [Ht Hd].
    rewrite Ht, Hd. split; apply lookup_empty.
Qed.

Lemma sample_ids_distinct (i j : nat) :
  newThreadId sample_host i = newThreadId sample_host j -> i = j.
Proof.
  cbn. intros E. apply (inj (String.app "codeowl_")) in E.
  apply (inj pretty) in E. exact E.
Qed.

Lemma display_replaces_active_set_witness :
  let m' := (displayReviewsAsComments sample_host sample_review
               sample_manager_with_thread).2 in
  (exists t, objects m' !! 0 = Some t /\ disposed t = true)
  /\ size (threads m') = 2
  /\ size (threadData m') = 2.
Proof.
  destruct (display_replaces_active_set sample_host sample_review
              sample_manager_with_thread)
    as (Hold & Hst & Hsd & _).
  - vm_compute. reflexivity.
  - exact sample_ids_distinct.
  - split; [| split; [exact Hst | exact Hsd]].
    apply (Hold "codeowl_0" 0).
    + vm_compute. reflexivity.
    + vm_compute. lia.
Defined.

End CommentsProps.

(** ** More properties of the diff parser *)

Module DiffScanProps.
Import Js DiffParser DiffScan DiffParserProps GitProps.

(** Splits a completed turn of the loop into its branches. *)
Ltac parse_line_branches st H :=
  destruct st as [?s ?p [?f |] [?r |] ?on ?nn];
  unfold parse_line, push_currentHunk, push_currentFile, assign_status,
    incr_addedLines, incr_removedLines, push_to_currentHunk, truthy, deref,
    mbind, result_bind, mret, result_ret in H;
  cbn -[startsWith header_path hunk_header_match parseInt incr substring] in H;
  repeat (match type of H with
          | context [startsWith ?l ?p] => destruct (startsWith l p) eqn:?
          | context [hunk_header_match ?l] => destruct (hunk_header_match l) eqn:?
          | context [@lookup _ _ _ _ ?r ?s] => destruct (s !! r) eqn:?
          end;
          cbn -[startsWith header_path hunk_header_match parseInt incr substring] in H);
  try discriminate H;
  try (injection H as <-).

Ltac use_tests :=
  repeat match goal with
         | H : startsWith ?l ?p = _ |- context [startsWith ?l ?p] => rewrite H
         end.

(** *** [split] and [join] *)

Lemma split_nonempty (sep : ascii) (s : string) : split sep s <> [].
Proof.
  destruct s as [| c s]; cbn; [discriminate |].
  destruct (Ascii.eqb c sep); [discriminate |].
  destruct (split sep s); discriminate.
Qed.

Lemma join_cons (sep : ascii) (s : string) (rest : list string) :
  rest <> [] -> join sep (s :: rest) = s +:+ String sep (join sep rest).
Proof. destruct rest; [congruence | reflexivity]. Qed.

Lemma parse_line_scan (st st' : Locals) (line : string) (rest : list string) :
  parse_line st line = Ok st' ->
  (path_and_status <$> parsedDiffs st')
    ++ scan (path_and_status <$> currentFile st') rest
  = (path_and_status <$> parsedDiffs st)
    ++ scan (path_and_status <$> currentFile st) (line :: rest).
Proof.
  intros H.
  parse_line_branches st H; cbn [scan]; unfold is_header, marker; use_tests;
    cbn; rewrite ?fmap_app, <- ?app_assoc; try done.
Qed.


Lemma parse_lines_app (a b : list string) (st : Locals) :
  parse_lines st (a ++ b) = parse_lines st a ≫= fun st' => parse_lines st' b.
Proof.
  revert st. induction a as [| line a IH]; intros st; [reflexivity |].
  cbn [app parse_lines]. destruct (parse_line st line) as [st1 | e]; [| reflexivity].
  apply IH.
Qed.

Lemma mapM_Ok {A B : Type} (f : A -> result B) (l : list A) (l' : list B) :
  mapM f l = Ok l' <-> Forall2 (fun x y => f x = Ok y) l l'.
Proof.
  revert l'. induction l as [| x l IH]; intros l'; cbn [mapM].
  - split.
    + intros [= <-]. constructor.
    + intros H. inversion H. reflexivity.
  - unfold mbind, result_bind. destruct (f x) as [y | e] eqn:Hx.
    + destruct (mapM f l) as [k | e] eqn:Hk.
      * split.
        -- intros [= <-]. constructor; [exact Hx |]. apply IH. reflexivity.
        -- intros H. inversion H as [| ? y' ? k' Hy Hk']; subst.
           apply IH in Hk'. rewrite Hx in Hy. simplify_eq. reflexivity.
      * split; [discriminate |]. intros H. inversion H as [| ? y' ? k' Hy Hk']; subst.
        apply IH in Hk'. discriminate.
    + split; [discriminate |]. intros H. inversion H; congruence.
Qed.

(** The empty text needs no case of its own. *)
Lemma parseDiffText_parse_all (diffText : string) :
  parseDiffText diffText = parse_all (split "010" diffText).
Proof.
  unfold parseDiffText. destruct (String.eqb_spec diffText "") as [-> | Hne];
    reflexivity.
Qed.


Lemma read_file_as (s : list DiffHunk) (f0 : ParsedDiff nat) (f : ParsedDiff DiffHunk) :
  read_file s f0 = Ok f -> read_as s f0 f.
Proof.
  unfold read_file, mbind, result_bind.
  destruct (mapM _ (hunks f0)) as [hs |] eqn:Hhs; [| discriminate].
  intros [= <-]. cbn. repeat split.
  apply mapM_Ok in Hhs. eapply Forall2_impl; [exact Hhs |].
  intros r h. cbn. unfold deref. destruct (s !! r); congruence.
Qed.

(** The result is read from the state after the loop and the final push. *)
Lemma parse_all_final (ls : list string) (files : list (ParsedDiff DiffHunk)) :
  parse_all ls = Ok files ->
  exists st1 st,
    parse_lines initial ls = Ok st1 /\ finish st1 = Ok st
    /\ Forall2 (read_as (store st)) (parsedDiffs st) files.
Proof.
  unfold parse_all, mbind, result_bind.
  destruct (parse_lines initial ls) as [st1 |] eqn:H1; [| discriminate].
  destruct (finish st1) as [st |] eqn:H2; [| discriminate].
  intros H. exists st1, st. split; [reflexivity |]. split; [exact H2 |].
  apply mapM_Ok in H. eapply Forall2_impl; [exact H |].
  intros f0 f. apply read_file_as.
Qed.

Lemma parse_lines_scan (ls : list string) (st st' : Locals) :
  parse_lines st ls = Ok st' ->
  (path_and_status <$> parsedDiffs st')
    ++ option_list (path_and_status <$> currentFile st')
  = (path_and_status <$> parsedDiffs st)
    ++ scan (path_and_status <$> currentFile st) ls.
Proof.
  revert st. induction ls as [| line ls IH]; intros st; cbn [parse_lines].
  - intros [= <-]. reflexivity.
  - unfold mbind, result_bind. destruct (parse_line st line) as [st1 |] eqn:H1;
      [| discriminate].
    intros H. rewrite (IH _ H). apply parse_line_scan, H1.
Qed.

Lemma finish_scan (st st' : Locals) :
  finish st = Ok st' ->
  path_and_status <$> parsedDiffs st'
  = (path_and_status <$> parsedDiffs st)
    ++ option_list (path_and_status <$> currentFile st).
Proof.
  destruct st as [s p [f |] [r |] on nn]; cbn; intros [= <-]; cbn;
    rewrite ?fmap_app, ?app_nil_r; reflexivity.
Qed.

Lemma read_as_path_and_status (s : list DiffHunk) (fs0 : list (ParsedDiff nat))
    (fs : list (ParsedDiff DiffHunk)) :
  Forall2 (read_as s) fs0 fs -> path_and_status <$> fs = path_and_status <$> fs0.
Proof.
  induction 1 as [| f0 f fs0 fs (Hp & Hs & _) _ IH]; [reflexivity |].
  cbn. unfold path_and_status at 1 3. rewrite Hp, Hs, IH. reflexivity.
Qed.


(** X1.  The files of the result, with their paths and statuses, are
    those a scanner finds that reads nothing but the file headers and the
    status markers: hunk headers and content lines have no say in which
    files are reported, in which order, under which path and with which
    status. *)
Theorem files_depend_on_headers_and_markers
    (diffText : string) (files : list (ParsedDiff DiffHunk)) :
  parseDiffText diffText = Ok files ->
  path_and_status <$> files = scan None (split "010" diffText).
Proof.
  rewrite parseDiffText_parse_all. intros H.
  destruct (parse_all_final _ _ H) as (st1 & st & H1 & H2 & Hread).
  rewrite (read_as_path_and_status _ _ _ Hread), (finish_scan _ _ H2).
  rewrite (parse_lines_scan _ _ _ H1). reflexivity.
Qed.

Lemma files_depend_on_headers_and_markers_witness :
  [("x.txt", modified)] = scan None (split "010" scenario_A).
Proof.
  apply (files_depend_on_headers_and_markers scenario_A
           [ {| filePath := "x.txt"; status := modified;
                hunks :=
                  [ {| oldStart := Num 1; oldCount := Num 2;
                       newStart := Num 1; newCount := Num 3;
                       lines :=
                         [ {| type := context; content := "context";
                              oldLineNumber := Some (Num 1);
                              newLineNumber := Some (Num 1) |};
                           {| type := remove; content := "old";
                              oldLineNumber := Some (Num 2);
                              newLineNumber := None |};
                           {| type := add; content := "new1";
                              oldLineNumber := None;
                              newLineNumber := Some (Num 2) |};
                           {| type := add; content := "new2";
                              oldLineNumber := None;
                              newLineNumber := Some (Num 3) |} ] |} ];
                addedLines := Num 2; removedLines := Num 1 |} ]).
  vm_compute. reflexivity.
Defined.



Lemma append_empty_l (a : string) : "" +:+ a = a.
Proof. reflexivity. Qed.

Lemma split_free (sep : ascii) (s : string) :
  free_of sep s = true -> split sep s = [s].
Proof.
  induction s as [| c s IH]; cbn; [reflexivity |].
  destruct (Ascii.eqb c sep); cbn; [discriminate |].
  intros H. rewrite (IH H). reflexivity.
Qed.

Lemma split_append_sep (sep : ascii) (s t : string) :
  free_of sep s = true -> split sep (s +:+ String sep t) = s :: split sep t.
Proof.
  induction s as [| c s IH]; cbn [free_of].
  - intros _. rewrite append_empty_l. cbn. rewrite Ascii.eqb_refl. reflexivity.
  - rewrite append_cons. cbn [split]. destruct (Ascii.eqb c sep); cbn; [discriminate |].
    intros H. rewrite (IH H). reflexivity.
Qed.

(** X3.  [split] undoes [join]: joining pieces that are free of the
    separator (at least one piece) and splitting the text again gives the
    pieces back. *)
Theorem split_join (sep : ascii) (ls : list string) :
  ls <> [] -> Forall (fun s => free_of sep s = true) ls ->
  split sep (join sep ls) = ls.
Proof.
  intros Hne Hfree. induction Hfree as [| s ls Hs Hls IH]; [congruence |].
  destruct ls as [| s' ls'].
  - cbn. apply split_free, Hs.
  - rewrite join_cons by discriminate. rewrite split_append_sep by exact Hs.
    rewrite IH by discriminate. reflexivity.
Qed.

Lemma split_join_witness :
  split "010" (join "010" ["a"; ""; "b c"]) = ["a"; ""; "b c"].
Proof.
  apply split_join; [discriminate |]. repeat constructor.
Defined.

(** X4.  [join] undoes [split]: the pieces of any text, joined by the
    separator, are the text. *)
Theorem join_split (sep : ascii) (s : string) : join sep (split sep s) = s.
Proof.
  induction s as [| c s IH]; [reflexivity |]. cbn [split].
  destruct (Ascii.eqb_spec c sep) as [-> | Hne].
  - rewrite join_cons by apply split_nonempty. rewrite IH. reflexivity.
  - pose proof (split_nonempty sep s) as Hnonempty.
    destruct (split sep s) as [| w ws]; [congruence |].
    destruct ws as [| w' ws'].
    + cbn in *. congruence.
    + rewrite join_cons by discriminate. rewrite join_cons in IH by discriminate.
      rewrite append_cons, IH. reflexivity.
Qed.

Lemma unrecognised_ignored (st : Locals) (line : string) :
  unrecognised line = true -> parse_line st line = Ok st.
Proof.
  unfold unrecognised. rewrite !andb_true_iff, !negb_true_iff.
  intros [[[[[[H1 H2] H3] H4] H5] H6] H7].
  apply unrecognised_line_ignored; assumption.
Qed.

Lemma parse_all_without (l1 l2 : list string) (line : string) :
  unrecognised line = true -> parse_all (l1 ++ line :: l2) = parse_all (l1 ++ l2).
Proof.
  intros H. unfold parse_all. rewrite !parse_lines_app. cbn [parse_lines].
  destruct (parse_lines initial l1) as [st |]; [| reflexivity].
  cbn. rewrite (unrecognised_ignored _ _ H). reflexivity.
Qed.

Lemma parse_all_split_join (ls : list string) :
  Forall (fun s => free_of "010" s = true) ls ->
  parse_all (split "010" (join "010" ls)) = parse_all ls.
Proof.
  intros H. destruct ls as [| s ls]; [reflexivity |].
  rewrite split_join; [reflexivity | discriminate | exact H].
Qed.

(** X5.  Lines the loop has no branch for are ignored: a text with such a
    line among its lines -- a "No newline at end of file" marker, an index
    line, an empty line -- parses to the same result as the text without
    that line. *)
Theorem unrecognised_line_is_ignored (l1 l2 : list string) (line : string) :
  unrecognised line = true ->
  Forall (fun s => free_of "010" s = true) (l1 ++ line :: l2) ->
  parseDiffText (join "010" (l1 ++ line :: l2))
  = parseDiffText (join "010" (l1 ++ l2)).
Proof.
  intros Hline Hfree. rewrite !parseDiffText_parse_all.
  rewrite parse_all_split_join by exact Hfree.
  rewrite parse_all_split_join.
  - apply parse_all_without, Hline.
  - apply Forall_app in Hfree as [H1 H2]. apply Forall_app. split; [exact H1 |].
    inversion H2; assumption.
Qed.

Lemma unrecognised_line_is_ignored_witness :
  parseDiffText
    (join "010" ["diff --git a/x b/x"; "index 1..2"; "@@ -1 +1 @@"; "+a";
                 "\ No newline at end of file"])
  = parseDiffText (join "010" ["diff --git a/x b/x"; "index 1..2"; "@@ -1 +1 @@"; "+a"]).
Proof.
  apply (unrecognised_line_is_ignored
           ["diff --git a/x b/x"; "index 1..2"; "@@ -1 +1 @@"; "+a"] []
           "\ No newline at end of file").
  - reflexivity.
  - repeat constructor.
Defined.


(** *** Hunk headers *)

Lemma strip_prefix_append (p s : string) : strip_prefix p (p +:+ s) = Some s.
Proof.
  induction p as [| c p IH]; [reflexivity |].
  rewrite append_cons. cbn. rewrite Ascii.eqb_refl. exact IH.
Qed.

Lemma span_digits_append (d r : string) :
  all_digits d = true -> stops_digits r = true -> span_digits (d +:+ r) = (d, r).
Proof.
  intros Hd Hr. induction d as [| c d IH].
  - rewrite append_empty_l. destruct r as [| c r]; [reflexivity |].
    cbn in *. apply negb_true_iff in Hr. rewrite Hr. reflexivity.
  - cbn in Hd. apply andb_true_iff in Hd as [Hc Hd].
    rewrite append_cons. cbn. rewrite Hc, (IH Hd). reflexivity.
Qed.

Lemma digits1_append (d r : string) :
  digit_string d -> stops_digits r = true -> digits1 (d +:+ r) = Some (d, r).
Proof.
  intros [Hne Hd] Hr. unfold digits1. rewrite (span_digits_append _ _ Hd Hr).
  destruct (String.eqb_spec d ""); [congruence | reflexivity].
Qed.

Lemma opt_count_present (b r : string) :
  digit_string b -> stops_digits r = true ->
  opt_count (("," +:+ b) +:+ r) = (Some b, r).
Proof.
  intros Hb Hr. unfold opt_count. rewrite append_assoc, strip_prefix_append.
  rewrite (digits1_append _ _ Hb Hr). reflexivity.
Qed.

Lemma opt_count_of (ob : option string) (r : string) :
  (forall b, ob = Some b -> digit_string b) ->
  stops_digits r = true -> strip_prefix "," r = None ->
  opt_count (from_option (fun b => "," +:+ b) "" ob +:+ r) = (ob, r).
Proof.
  intros Hob Hr Hcomma. destruct ob as [b |]; cbn [from_option].
  - apply opt_count_present; auto.
  - rewrite append_empty_l. unfold opt_count. rewrite Hcomma. reflexivity.
Qed.

Lemma header_text_matches (a : string) (ob : option string) (c : string)
    (od : option string) (rest : string) :
  digit_string a -> digit_string c ->
  (forall b, ob = Some b -> digit_string b) ->
  (forall d, od = Some d -> digit_string d) ->
  hunk_header_match (header_text a ob c od +:+ rest)
  = Some {| group1 := a; group2 := ob; group3 := c; group4 := od |}.
Proof.
  intros Ha Hc Hob Hod.
  assert (match_here (header_text a ob c od +:+ rest)
          = Some {| group1 := a; group2 := ob; group3 := c; group4 := od |}) as Hm.
  { unfold header_text, match_here. rewrite !append_assoc.
    rewrite strip_prefix_append. cbn [mbind option_bind].
    rewrite digits1_append;
      [| exact Ha | destruct ob; reflexivity].
    cbn [mbind option_bind].
    rewrite opt_count_of; [| exact Hob | reflexivity | reflexivity].
    rewrite strip_prefix_append. cbn [mbind option_bind].
    rewrite digits1_append;
      [| exact Hc | destruct od; reflexivity].
    cbn [mbind option_bind].
    rewrite opt_count_of; [| exact Hod | reflexivity | reflexivity].
    rewrite strip_prefix_append. reflexivity. }
  destruct (header_text a ob c od +:+ rest); cbn [hunk_header_match]; rewrite Hm;
    reflexivity.
Qed.

(** X6.  A line [@@ -a[,b] +c[,d] @@], whatever follows the closing [@@]
    on the line, starts a new hunk that has no lines yet: [oldStart] and
    [newStart] are the numbers [a] and [c], the counts are [b] and [d] or 1
    where they are left out, and the two line counters restart at [a]
    and [c]. *)
Theorem header_line_starts_hunk
    (st : Locals) (a : string) (ob : option string) (c : string)
    (od : option string) (rest : string) :
  digit_string a -> digit_string c ->
  (forall b, ob = Some b -> digit_string b) ->
  (forall d, od = Some d -> digit_string d) ->
  exists st',
    parse_line st (header_text a ob c od +:+ rest) = Ok st'
    /\ store st'
       = store st ++ [ {| oldStart := parseInt a;
                          oldCount := parseInt (default "1" ob);
                          newStart := parseInt c;
                          newCount := parseInt (default "1" od);
                          lines := [] |} ]
    /\ currentHunk st' = Some (length (store st))
    /\ oldLineNum st' = parseInt a /\ newLineNum st' = parseInt c.
Proof.
  intros Ha Hc Hob Hod. unfold parse_line.
  rewrite (header_text_matches a ob c od rest Ha Hc Hob Hod).
  assert (forall o : option string,
             (forall b, o = Some b -> digit_string b) ->
             default "1" (or_else o (Some "1")) = default "1" o) as Hdef.
  { intros [b |] Hb; [| reflexivity]. destruct (Hb b eq_refl) as [Hne _].
    unfold or_else, truthy_str. destruct (String.eqb_spec b ""); [congruence |].
    reflexivity. }
  cbn [group1 group2 group3 group4]. rewrite !Hdef by assumption.
  unfold header_text. rewrite !append_assoc.
  change (startsWith ("@@ -" +:+ ?x) "diff --git") with false.
  change (startsWith ("@@ -" +:+ ?x) "new file mode") with false.
  change (startsWith ("@@ -" +:+ ?x) "deleted file mode") with false.
  change (startsWith ("@@ -" +:+ ?x) "@@") with true. cbv iota.
  destruct st as [s p [f |] [r |] on nn]; cbn; eexists; repeat split.
Qed.

Lemma header_line_starts_hunk_witness :
  exists st',
    parse_line initial "@@ -12 +15,3 @@ int main()" = Ok st'
    /\ store st' = [ {| oldStart := Num 12; oldCount := Num 1;
                        newStart := Num 15; newCount := Num 3; lines := [] |} ].
Proof.
  destruct (header_line_starts_hunk initial "12" None "15" (Some "3") " int main()")
    as (st' & H & Hstore & _).
  - split; [discriminate | reflexivity].
  - split; [discriminate | reflexivity].
  - discriminate.
  - intros d [= <-]. split; [discriminate | reflexivity].
  - exists st'. split; [exact H | exact Hstore].
Defined.


(** *** Where the lines of a hunk come from *)

Lemma parse_line_lines_from (all : list string) (st st' : Locals) (line : string) :
  line ∈ all ->
  parse_line st line = Ok st' ->
  Forall (fun h => Forall (fun l => exists i, i ∈ all /\ line_of_input i l) (lines h))
         (store st) ->
  Forall (fun h => Forall (fun l => exists i, i ∈ all /\ line_of_input i l) (lines h))
         (store st').
Proof.
  intros Hin H HP.
  parse_line_branches st H; cbn in *; try assumption.
  all: try (apply Forall_app; split; [assumption | repeat constructor]).
  all: apply Forall_insert; [assumption |]; cbn;
    apply Forall_app; split;
    [ eapply (Forall_lookup_1 _ _ _ _ HP); eassumption
    | constructor; [| constructor];
      exists line; split; [exact Hin |]; split; [reflexivity |]; cbn; eauto ].
Qed.


Lemma parse_lines_lines_from (all ls : list string) (st st' : Locals) :
  ls ⊆ all ->
  parse_lines st ls = Ok st' ->
  Forall (fun h => Forall (fun l => exists i, i ∈ all /\ line_of_input i l) (lines h))
         (store st) ->
  Forall (fun h => Forall (fun l => exists i, i ∈ all /\ line_of_input i l) (lines h))
         (store st').
Proof.
  revert st. induction ls as [| line ls IH]; intros st Hsub; cbn [parse_lines].
  - intros [= <-]. auto.
  - unfold mbind, result_bind. destruct (parse_line st line) as [st1 |] eqn:H1;
      [| discriminate].
    intros H HP. apply (IH st1); [set_solver | exact H |].
    eapply parse_line_lines_from; [| exact H1 | exact HP]. set_solver.
Qed.

Lemma finish_store (st st' : Locals) : finish st = Ok st' -> store st' = store st.
Proof. destruct st as [s p [f |] [r |] on nn]; cbn; intros [= <-]; reflexivity. Qed.

Lemma read_as_hunk_in_store (s : list DiffHunk) (fs0 : list (ParsedDiff nat))
    (fs : list (ParsedDiff DiffHunk)) (f : ParsedDiff DiffHunk) (h : DiffHunk) :
  Forall2 (read_as s) fs0 fs -> f ∈ fs -> h ∈ hunks f -> h ∈ s.
Proof.
  intros Hread Hf Hh.
  apply list_elem_of_lookup in Hf as [i Hi].
  destruct (Forall2_lookup_r _ _ _ _ _ Hread Hi) as (f0 & _ & (_ & _ & _ & _ & Hhs)).
  apply list_elem_of_lookup in Hh as [j Hj].
  destruct (Forall2_lookup_r _ _ _ _ _ Hhs Hj) as (r & _ & Hr).
  eapply list_elem_of_lookup_2, Hr.
Qed.

(** X7.  The parser invents no line.  Every line of every hunk of the
    result comes from a line of the text: its content is that line without
    its first character; an Add line comes from a line starting with [+] and
    carries a new line number only, a Remove line from a line starting with
    [-] and carries an old line number only, a Context line from a line
    starting with a space and carries both. *)
Theorem hunk_lines_come_from_input
    (diffText : string) (files : list (ParsedDiff DiffHunk))
    (f : ParsedDiff DiffHunk) (h : DiffHunk) (l : DiffLine) :
  parseDiffText diffText = Ok files -> f ∈ files -> h ∈ hunks f -> l ∈ lines h ->
  exists line, line ∈ split "010" diffText /\ line_of_input line l.
Proof.
  rewrite parseDiffText_parse_all. intros H Hf Hh Hl.
  destruct (parse_all_final _ _ H) as (st1 & st & H1 & H2 & Hread).
  pose proof (read_as_hunk_in_store _ _ _ _ _ Hread Hf Hh) as Hin.
  rewrite (finish_store _ _ H2) in Hin.
  pose proof (parse_lines_lines_from (split "010" diffText) _ _ _
                ltac:(reflexivity) H1 ltac:(constructor)) as HP.
  rewrite Forall_forall in HP. specialize (HP h Hin).
  rewrite Forall_forall in HP. exact (HP l Hl).
Qed.

Lemma hunk_lines_come_from_input_witness :
  exists line, line ∈ split "010" scenario_A
    /\ line_of_input line {| type := remove; content := "old";
                             oldLineNumber := Some (Num 2);
                             newLineNumber := None |}.
Proof.
  eapply (hunk_lines_come_from_input scenario_A).
  - vm_compute. reflexivity.
  - apply list_elem_of_here.
  - apply list_elem_of_here.
  - cbn. apply list_elem_of_further, list_elem_of_here.
Defined.


(** *** The counters on texts with well-formed hunk headers *)

Lemma count_refs_app (k : LineType) (s : list DiffHunk) (a b : list nat) :
  count_refs k s (a ++ b) = count_refs k s a + count_refs k s b.
Proof. unfold count_refs. apply sum_list_with_app. Qed.

Lemma count_refs_single (k : LineType) (s : list DiffHunk) (r : nat) :
  count_refs k s [r] = from_option (count_lines k) 0 (s !! r).
Proof. unfold count_refs. cbn. lia. Qed.

Lemma count_refs_store_app (k : LineType) (s : list DiffHunk) (h : DiffHunk)
    (rs : list nat) :
  Forall (fun r => r < length s) rs ->
  count_refs k (s ++ [h]) rs = count_refs k s rs.
Proof.
  unfold count_refs. induction 1 as [| r rs Hr _ IH]; [reflexivity |].
  cbn. rewrite IH, lookup_app_l by exact Hr. reflexivity.
Qed.

Lemma count_refs_insert (k : LineType) (s : list DiffHunk) (r : nat) (h : DiffHunk)
    (rs : list nat) :
  r ∉ rs -> count_refs k (<[r := h]> s) rs = count_refs k s rs.
Proof.
  unfold count_refs. induction rs as [| r' rs IH]; [reflexivity |].
  intros Hnot. apply not_elem_of_cons in Hnot as [Hne Hnot].
  cbn. rewrite (IH Hnot), list_lookup_insert_ne by exact Hne. reflexivity.
Qed.

Lemma count_lines_push (k : LineType) (l : DiffLine) (h : DiffHunk) :
  count_lines k (push_line l h)
  = count_lines k h + (if decide (type l = k) then 1 else 0).
Proof.
  unfold count_lines. cbn. rewrite filter_app, length_app, filter_cons, filter_nil.
  destruct (decide (type l = k)); reflexivity.
Qed.

Lemma tallied_store_app s h f a r :
  refs_in s f -> tallied s f a r -> tallied (s ++ [h]) f a r.
Proof.
  intros Hrefs [Ha Hr]. unfold tallied.
  rewrite !count_refs_store_app by exact Hrefs. split; assumption.
Qed.

Lemma tallied_insert s x h f a r :
  x ∉ hunks f -> tallied s f a r -> tallied (<[x := h]> s) f a r.
Proof.
  intros Hx [Ha Hr]. unfold tallied.
  rewrite !count_refs_insert by exact Hx. split; assumption.
Qed.


Lemma Tally_initial : Tally initial.
Proof.
  split; cbn; try constructor; try discriminate; auto.
Qed.

Lemma Tally_push_hunk s p f r on nn on' nn' :
  Tally {| store := s; parsedDiffs := p; currentFile := Some f;
           currentHunk := Some r; oldLineNum := on; newLineNum := nn |} ->
  Tally {| store := s; parsedDiffs := p;
           currentFile := Some {| filePath := filePath f; status := status f;
                                  hunks := hunks f ++ [r];
                                  addedLines := addedLines f;
                                  removedLines := removedLines f |};
           currentHunk := None; oldLineNum := on'; newLineNum := nn' |}.
Proof.
  intros [H1 H2 H3 H4 H5 H6]. cbn -[count_refs] in *.
  destruct (H2 f eq_refl) as [Ha Hr]. destruct (H4 r eq_refl) as (Hlt & _ & _).
  unfold pending in Ha, Hr. cbn -[count_refs] in Ha, Hr.
  split; cbn -[count_refs]; try assumption; try discriminate.
  - intros f' [= <-]. unfold tallied. cbn -[count_refs].
    rewrite !count_refs_app, !count_refs_single, !Nat.add_0_r.
    split; assumption.
  - intros f' [= <-]. unfold refs_in. cbn. apply Forall_app. split.
    + apply (H6 f eq_refl).
    + constructor; [exact Hlt | constructor].
Qed.

Lemma Tally_close_file s p f on nn on' nn' :
  Tally {| store := s; parsedDiffs := p; currentFile := Some f;
           currentHunk := None; oldLineNum := on; newLineNum := nn |} ->
  Tally {| store := s; parsedDiffs := p ++ [f]; currentFile := None;
           currentHunk := None; oldLineNum := on'; newLineNum := nn' |}.
Proof.
  intros [H1 H2 H3 H4 H5 H6]. cbn in *.
  split; cbn; try discriminate; auto.
  - apply Forall_app. split; [assumption |]. constructor; [| constructor].
    apply (H2 f eq_refl).
  - apply Forall_app. split; [assumption |]. constructor; [| constructor].
    apply (H6 f eq_refl).
Qed.

Lemma Tally_open_file s p ch path on nn on' nn' :
  Tally {| store := s; parsedDiffs := p; currentFile := None;
           currentHunk := ch; oldLineNum := on; newLineNum := nn |} ->
  Tally {| store := s; parsedDiffs := p;
           currentFile := Some {| filePath := path; status := modified; hunks := [];
                                  addedLines := Num 0; removedLines := Num 0 |};
           currentHunk := ch; oldLineNum := on'; newLineNum := nn' |}.
Proof.
  intros [H1 H2 H3 H4 H5 H6]. cbn -[pending] in *. destruct (H3 eq_refl) as [Ha Hr].
  assert (forall k, pending
            {| store := s; parsedDiffs := p;
               currentFile := Some {| filePath := path; status := modified;
                                      hunks := []; addedLines := Num 0;
                                      removedLines := Num 0 |};
               currentHunk := ch; oldLineNum := on'; newLineNum := nn' |} k
          = pending {| store := s; parsedDiffs := p; currentFile := None;
                       currentHunk := ch; oldLineNum := on; newLineNum := nn |} k)
    as Hpend by reflexivity.
  split; cbn -[pending]; try assumption; try discriminate.
  - intros f' [= <-]. unfold tallied. rewrite !Hpend, Ha, Hr. split; reflexivity.
  - intros r Hr'. destruct (H4 r Hr') as (Hlt & Hp & _).
    split; [exact Hlt |]. split; [exact Hp |].
    intros f' [= <-]. cbn. apply not_elem_of_nil.
  - intros f' [= <-]. constructor.
Qed.

Lemma Tally_drop_hunk s p r on nn on' nn' :
  Tally {| store := s; parsedDiffs := p; currentFile := None;
           currentHunk := Some r; oldLineNum := on; newLineNum := nn |} ->
  Tally {| store := s; parsedDiffs := p; currentFile := None;
           currentHunk := None; oldLineNum := on'; newLineNum := nn' |}.
Proof.
  intros [H1 H2 H3 H4 H5 H6]. cbn in *.
  split; cbn; try assumption; try discriminate; auto.
Qed.

Lemma Tally_new_hunk s p cf os oc ns nc on nn on' nn' :
  Tally {| store := s; parsedDiffs := p; currentFile := cf;
           currentHunk := None; oldLineNum := on; newLineNum := nn |} ->
  Tally {| store := s ++ [ {| oldStart := os; oldCount := oc; newStart := ns;
                              newCount := nc; lines := [] |} ];
           parsedDiffs := p; currentFile := cf;
           currentHunk := Some (length s); oldLineNum := on'; newLineNum := nn' |}.
Proof.
  intros [H1 H2 H3 H4 H5 H6]. cbn in *.
  assert (forall k, pending
            {| store := s ++ [ {| oldStart := os; oldCount := oc; newStart := ns;
                                  newCount := nc; lines := [] |} ];
               parsedDiffs := p; currentFile := cf;
               currentHunk := Some (length s); oldLineNum := on';
               newLineNum := nn' |} k = 0) as Hpend.
  { intros k. unfold pending. cbn. rewrite lookup_app_r by lia.
    rewrite Nat.sub_diag. reflexivity. }
  split; cbn -[pending].
  - rewrite Forall_forall in H1, H5. apply Forall_forall. intros f Hf.
    apply tallied_store_app; auto.
  - intros f Hf. rewrite !Hpend. apply tallied_store_app; [auto |].
    exact (H2 f Hf).
  - intros _. rewrite !Hpend. auto.
  - intros r [= <-]. split; [rewrite length_app; cbn; lia |]. split.
    + eapply Forall_impl; [exact H5 |]. intros f Hf Hin. cbn in Hf.
      unfold refs_in in Hf. rewrite Forall_forall in Hf. specialize (Hf _ Hin). lia.
    + intros f Hf Hin. specialize (H6 f Hf). unfold refs_in in H6.
      rewrite Forall_forall in H6. specialize (H6 _ Hin). lia.
  - eapply Forall_impl; [exact H5 |]. intros f. apply refs_in_mono.
    rewrite length_app. lia.
  - intros f Hf. eapply refs_in_mono; [| exact (H6 f Hf)]. rewrite length_app. lia.
Qed.

Lemma Tally_status s p f ch st on nn on' nn' :
  Tally {| store := s; parsedDiffs := p; currentFile := Some f;
           currentHunk := ch; oldLineNum := on; newLineNum := nn |} ->
  Tally {| store := s; parsedDiffs := p;
           currentFile := Some {| filePath := filePath f; status := st;
                                  hunks := hunks f; addedLines := addedLines f;
                                  removedLines := removedLines f |};
           currentHunk := ch; oldLineNum := on'; newLineNum := nn' |}.
Proof.
  intros [H1 H2 H3 H4 H5 H6]. cbn in *.
  split; cbn; try assumption; try discriminate.
  - intros f' [= <-]. exact (H2 f eq_refl).
  - intros r Hr. destruct (H4 r Hr) as (Hlt & Hp & Hf).
    split; [exact Hlt |]. split; [exact Hp |]. intros f' [= <-]. exact (Hf f eq_refl).
  - intros f' [= <-]. exact (H6 f eq_refl).
Qed.

Lemma Tally_content s p f f' r h l on nn on' nn' :
  Tally {| store := s; parsedDiffs := p; currentFile := Some f;
           currentHunk := Some r; oldLineNum := on; newLineNum := nn |} ->
  s !! r = Some h ->
  hunks f' = hunks f ->
  addedLines f' = (if decide (type l = add) then incr (addedLines f) else addedLines f) ->
  removedLines f'
  = (if decide (type l = remove) then incr (removedLines f) else removedLines f) ->
  Tally {| store := <[r := push_line l h]> s; parsedDiffs := p;
           currentFile := Some f'; currentHunk := Some r;
           oldLineNum := on'; newLineNum := nn' |}.
Proof.
  intros [H1 H2 H3 H4 H5 H6] Hh Hhunks Hadd Hrem. cbn -[pending count_refs count_lines] in *.
  destruct (H4 r eq_refl) as (Hlt & Hp & Hf). specialize (Hf f eq_refl).
  destruct (H2 f eq_refl) as [Ha Hr]. unfold pending in Ha, Hr. cbn -[count_refs count_lines] in Ha, Hr.
  rewrite Hh in Ha, Hr. cbn -[count_refs count_lines] in Ha, Hr.
  split; cbn -[pending count_refs count_lines].
  - rewrite Forall_forall in H1, Hp. apply Forall_forall. intros g Hg.
    apply tallied_insert; auto.
  - intros g [= <-]. unfold tallied, pending. cbn -[count_refs count_lines].
    rewrite list_lookup_insert_eq by exact Hlt. cbn -[count_refs count_lines].
    rewrite Hhunks, !count_refs_insert by exact Hf.
    rewrite !count_lines_push, Hadd, Hrem.
    split.
    + destruct (decide (type l = add)).
      * rewrite Ha. replace (count_refs add s (hunks f) + (count_lines add h + 1))
          with (S (count_refs add s (hunks f) + count_lines add h)) by lia.
        reflexivity.
      * rewrite Nat.add_0_r. exact Ha.
    + destruct (decide (type l = remove)).
      * rewrite Hr. replace (count_refs remove s (hunks f) + (count_lines remove h + 1))
          with (S (count_refs remove s (hunks f) + count_lines remove h)) by lia.
        reflexivity.
      * rewrite Nat.add_0_r. exact Hr.
  - discriminate.
  - intros r' [= <-]. split; [rewrite length_insert; exact Hlt |].
    split; [exact Hp |]. intros g [= <-]. rewrite Hhunks. exact Hf.
  - eapply Forall_impl; [exact H5 |]. intros g. apply refs_in_mono.
    rewrite length_insert. lia.
  - intros g [= <-]. unfold refs_in. rewrite Hhunks.
    eapply refs_in_mono; [| exact (H6 f eq_refl)]. rewrite length_insert. lia.
Qed.


Lemma parse_line_Tally (st st' : Locals) (line : string) :
  Tally st ->
  (startsWith line "@@" = true -> is_Some (hunk_header_match line)) ->
  parse_line st line = Ok st' -> Tally st'.
Proof.
  intros HT Hwf H.
  parse_line_branches st H;
    first
      [ assumption
      | eapply Tally_open_file, Tally_close_file, Tally_push_hunk; eassumption
      | eapply Tally_open_file, Tally_close_file; eassumption
      | eapply Tally_open_file; eassumption
      | eapply Tally_status; eassumption
      | eapply Tally_new_hunk, Tally_push_hunk; eassumption
      | eapply Tally_new_hunk, Tally_drop_hunk; eassumption
      | eapply Tally_new_hunk; eassumption
      | eapply Tally_content;
        [eassumption | eassumption | reflexivity | reflexivity | reflexivity]
      | exfalso; destruct Hwf as [m Hsome];
        [first [reflexivity | assumption] | congruence] ].
  Unshelve. all: exact (Num 0).
Qed.

Lemma parse_lines_Tally (ls : list string) (st st' : Locals) :
  Tally st -> headers_well_formed ls -> parse_lines st ls = Ok st' -> Tally st'.
Proof.
  revert st. induction ls as [| line ls IH]; intros st HT Hwf; cbn [parse_lines].
  - intros [= <-]. exact HT.
  - unfold mbind, result_bind. destruct (parse_line st line) as [st1 |] eqn:H1;
      [| discriminate].
    inversion Hwf as [| ? ? Hline Hrest]; subst.
    apply IH; [| exact Hrest]. eapply parse_line_Tally; eassumption.
Qed.

Lemma finish_tallied (st st' : Locals) :
  Tally st -> finish st = Ok st' ->
  Forall (fun f => tallied (store st') f 0 0) (parsedDiffs st').
Proof.
  intros HT. destruct st as [s p [f |] [r |] on nn]; cbn; intros [= <-].
  - exact (tally_parsed _
             (Tally_close_file _ _ _ on nn on nn
                (Tally_push_hunk _ _ _ _ on nn on nn HT))).
  - exact (tally_parsed _ (Tally_close_file _ _ _ on nn on nn HT)).
  - exact (tally_parsed _ HT).
  - exact (tally_parsed _ HT).
Qed.

Lemma count_kind_read (k : LineType) (s : list DiffHunk) (f0 : ParsedDiff nat)
    (f : ParsedDiff DiffHunk) :
  read_as s f0 f -> count_kind k f = count_refs k s (hunks f0).
Proof.
  intros (_ & _ & _ & _ & Hhs). unfold count_kind, count_refs.
  induction Hhs as [| r h rs hs Hr _ IH]; [reflexivity |].
  cbn. rewrite filter_app, length_app, IH, Hr. reflexivity.
Qed.

(** X8.  On a text in which every line that starts with [@@] is a
    well-formed hunk header, the counters of every file of the result are
    right: [addedLines] is the number of Add lines over the hunks of the
    file and [removedLines] the number of Remove lines (for fewer than 2^53
    such lines, beyond which a counter no longer counts in steps of one). *)
Theorem counters_right_with_well_formed_headers
    (diffText : string) (files : list (ParsedDiff DiffHunk))
    (f : ParsedDiff DiffHunk) :
  headers_well_formed (split "010" diffText) ->
  parseDiffText diffText = Ok files -> f ∈ files ->
  ((N.of_nat (count_kind add f) <= 2 ^ 53)%N ->
   addedLines f = Num (N.of_nat (count_kind add f)))
  /\ ((N.of_nat (count_kind remove f) <= 2 ^ 53)%N ->
      removedLines f = Num (N.of_nat (count_kind remove f))).
Proof.
  rewrite parseDiffText_parse_all. intros Hwf H Hf.
  destruct (parse_all_final _ _ H) as (st1 & st & H1 & H2 & Hread).
  pose proof (finish_tallied _ _ (parse_lines_Tally _ _ _ Tally_initial Hwf H1) H2)
    as Hp.
  apply list_elem_of_lookup in Hf as [i Hi].
  destruct (Forall2_lookup_r _ _ _ _ _ Hread Hi) as (f0 & Hf0 & Hr).
  rewrite Forall_forall in Hp.
  destruct (Hp f0 (list_elem_of_lookup_2 _ _ _ Hf0)) as [Ha Hrm].
  rewrite !Nat.add_0_r in Ha, Hrm.
  rewrite <- (count_kind_read add _ _ _ Hr) in Ha.
  rewrite <- (count_kind_read remove _ _ _ Hr) in Hrm.
  destruct Hr as (_ & _ & Ea & Er & _). rewrite Ea, Er, Ha, Hrm.
  split; intros Hb; rewrite iter_incr_exact by (rewrite N.add_0_l; exact Hb);
    rewrite N.add_0_l; reflexivity.
Qed.

Lemma counters_right_with_well_formed_headers_witness :
  exists f files,
    parseDiffText scenario_A = Ok files /\ f ∈ files
    /\ addedLines f = Num 2 /\ removedLines f = Num 1.
Proof.
  eexists _, _. split; [vm_compute; reflexivity |]. split; [apply list_elem_of_here |].
  match goal with
  | |- addedLines ?f = _ /\ _ =>
      destruct (counters_right_with_well_formed_headers scenario_A [f] f) as [Ha Hr]
  end.
  - repeat constructor; cbn; try discriminate; intros _; eexists; vm_compute;
      reflexivity.
  - vm_compute. reflexivity.
  - apply list_elem_of_here.
  - split.
    + apply Ha. vm_compute. discriminate.
    + apply Hr. vm_compute. discriminate.
Defined.

End DiffScanProps.
(** ** Properties of runs of the commit watcher *)

Module GitRunsProps.
Import Js DiffParser Git GitRuns GitProps.


Lemma notification_without_revision gi repo :
  revision repo = None ->
  (handleRepositoryChange gi repo).1 = gi
  /\ acquisitions (handleRepositoryChange gi repo).2 = []
  /\ filter (fun e => is_repository_call e = true) (handleRepositoryChange gi repo).2 = [].
Proof.
  unfold revision, handleRepositoryChange.
  destruct repo as [repo |]; [| intros _; repeat split; reflexivity].
  cbn. destruct (state repo) as [st |]; [| intros _; repeat split; reflexivity].
  cbn. destruct (HEAD st ≫= commit) as [c |] eqn:Hc; cbn.
  - destruct (negb (String.eqb c "")) eqn:E; [discriminate |].
    intros _. repeat split; reflexivity.
  - intros _. repeat split; reflexivity.
Qed.

(** A notification that shows revision [r]. *)
Lemma notification_with_revision gi repo r :
  revision repo = Some r ->
  (handleRepositoryChange gi repo).1 = set_lastCommitSha (Some r) gi
  /\ acquisitions (handleRepositoryChange gi repo).2
     = match lastCommitSha gi with
       | Some last =>
           if truthy_str (Some last) && negb (String.eqb last r)
           then [(last, r)] else []
       | None => []
       end.
Proof.
  unfold revision, handleRepositoryChange.
  destruct repo as [repo |]; [| discriminate].
  cbn. destruct (state repo) as [st |]; [| discriminate].
  cbn. destruct (HEAD st ≫= commit) as [c |] eqn:Hc; [| discriminate]. cbn.
  destruct (negb (String.eqb c "")) eqn:E; [| discriminate].
  intros [= ->]. split; [reflexivity |].
  cbn [snd]. rewrite acquisitions_app.
  match goal with
  | |- _ ++ acquisitions ?w = _ => assert (acquisitions w = []) as ->
  end.
  { destruct (length (default [] (workingTreeChanges st)));
      [reflexivity | apply analyzeDiffs_acquisitions]. }
  rewrite app_nil_r.
  destruct (lastCommitSha gi) as [last |]; [| reflexivity].
  destruct (negb (String.eqb last "") && negb (String.eqb last r)); [| reflexivity].
  change (acquisitions (?a :: ?b :: CallAnalyzeNewCommit last r :: ?x))
    with ((last, r) :: acquisitions x).
  rewrite analyzeNewCommit_acquisitions. reflexivity.
Qed.






(** X10.  Handling the same notification a second time starts no
    acquisition and leaves the watcher as the first time left it. *)
Theorem notification_twice_acquires_once
    (gi : GitIntegration) (repo : option Repository) :
  let gi1 := (handleRepositoryChange gi repo).1 in
  (handleRepositoryChange gi1 repo).1 = gi1
  /\ acquisitions (handleRepositoryChange gi1 repo).2 = [].
Proof.
  intros gi1. subst gi1. destruct (revision repo) as [r |] eqn:Hrev.
  - destruct (notification_with_revision gi repo r Hrev) as [Hgi _].
    destruct (notification_with_revision (handleRepositoryChange gi repo).1 repo r Hrev)
      as [Hgi' Hacq'].
    rewrite Hgi', Hacq', Hgi. cbn. rewrite String.eqb_refl, andb_false_r.
    split; reflexivity.
  - destruct (notification_without_revision (handleRepositoryChange gi repo).1 repo Hrev)
      as (Hgi' & Hacq' & _).
    split; assumption.
Qed.

(** What the loop of [analyzeDiffs] asks for, logs and gathers. *)
Lemma collect_working_tree_spec repo changes :
  (collect_working_tree repo changes).1 = diffable repo changes
  /\ head_requests (collect_working_tree repo changes).2
     = (fun c => path (uri c)) <$> changes
  /\ sent_diffs (collect_working_tree repo changes).2 = []
  /\ length (logged_errors (collect_working_tree repo changes).2)
     = length changes - length (diffable repo changes)
  /\ length (diffable repo changes) <= length changes.
Proof.
  induction changes as [| change rest IH]; [repeat split; reflexivity |].
  cbn [collect_working_tree].
  destruct (collect_working_tree repo rest) as [files evs].
  cbn [fst snd] in IH. destruct IH as (-> & Hreq & Hsent & Hlog & Hle).
  destruct (diffWithHEAD repo (path (uri change))) eqn:E; cbn [fst snd].
  - assert (diffable repo (change :: rest) = path (uri change) :: diffable repo rest)
      as -> by (unfold diffable; apply omap_keep; rewrite E; reflexivity).
    change (head_requests (CallDiffWithHEAD ?f :: ?l)) with (f :: head_requests l).
    change (sent_diffs (CallDiffWithHEAD ?f :: ?l)) with (sent_diffs l).
    change (logged_errors (CallDiffWithHEAD ?f :: ?l)) with (logged_errors l).
    rewrite Hreq, Hsent, Hlog. cbn [length]. repeat split; lia.
  - assert (diffable repo (change :: rest) = diffable repo rest)
      as -> by (unfold diffable; apply omap_skip; rewrite E; reflexivity).
    change (head_requests (CallDiffWithHEAD ?f :: ConsoleError ?w :: ?l))
      with (f :: head_requests l).
    change (sent_diffs (CallDiffWithHEAD ?f :: ConsoleError ?w :: ?l))
      with (sent_diffs l).
    change (logged_errors (CallDiffWithHEAD ?f :: ConsoleError ?w :: ?l))
      with (w :: logged_errors l).
    rewrite Hreq, Hsent. cbn [length]. rewrite Hlog. repeat split; lia.
Qed.

(** X11.  The working-tree analysis asks for the diff against HEAD of
    every change, in the order of the changes and whether or not earlier
    ones failed, logs one error for each that fails, and then hands the
    files whose diff it got to the sidebar, once and as the last thing it
    does. *)
Theorem working_tree_analysis_asks_for_every_change
    (repo : Repository) (changes : list GitChange) :
  exists evs,
    analyzeDiffs repo changes = evs ++ [SendDiffToSidebar (diffable repo changes)]
    /\ head_requests evs = (fun c => path (uri c)) <$> changes
    /\ sent_diffs evs = []
    /\ length (logged_errors evs) + length (diffable repo changes) = length changes.
Proof.
  unfold analyzeDiffs.
  pose proof (collect_working_tree_spec repo changes) as (H1 & H2 & H3 & H4 & H5).
  destruct (collect_working_tree repo changes) as [files evs]. cbn [fst snd] in *.
  exists evs. subst files. repeat split; try assumption. lia.
Qed.

Lemma analyses_app (a b : list event) : analyses (a ++ b) = analyses a ++ analyses b.
Proof. apply omap_app. Qed.

Lemma collect_diffs_analyses repo previousCommit newCommit changedFiles text :
  analyses (collect_diffs repo previousCommit newCommit changedFiles text).2 = [].
Proof.
  revert text. induction changedFiles as [| change rest IH]; intros text; simpl.
  - reflexivity.
  - destruct (diffBetweenFile repo _ _ _).
    + specialize (IH (text +:+ (a +:+ nl))).
      destruct (collect_diffs repo previousCommit newCommit rest _). exact IH.
    + specialize (IH text).
      destruct (collect_diffs repo previousCommit newCommit rest _). exact IH.
Qed.

(** X12.  What an acquisition sends to the sidebar: nothing when the
    listing of the changed files fails or is empty, when no sidebar is
    attached, or when the text retrieved parses to no file; otherwise one
    analysis, which carries the first eight characters of each revision and
    the files parsed from the retrieved text. *)
Theorem acquisition_sends_parsed_files
    (gi : GitIntegration) (repo : Repository) (previousCommit newCommit : string) :
  analyses (analyzeNewCommit gi repo previousCommit newCommit)
  = match diffBetween repo previousCommit newCommit with
    | Ok (Some changedFiles) =>
        match parseDiffText
                (concat_all (retrieved repo previousCommit newCommit changedFiles)) with
        | Ok (file :: files) =>
            if sidebarProvider gi
            then [(String.substring 0 8 previousCommit,
                   String.substring 0 8 newCommit, file :: files)]
            else []
        | _ => []
        end
    | _ => []
    end.
Proof.
  unfold analyzeNewCommit.
  change (analyses (CallDiffBetween ?a ?b :: ?x)) with (analyses x).
  destruct (diffBetween repo previousCommit newCommit) as [[[| c cs] |] | e];
    try reflexivity.
  pose proof (collect_diffs_spec repo previousCommit newCommit (c :: cs) "") as [Htext _].
  pose proof (collect_diffs_analyses repo previousCommit newCommit (c :: cs) "") as Hnone.
  destruct (collect_diffs repo previousCommit newCommit (c :: cs) "") as [text evs].
  cbn [fst snd] in Htext, Hnone. change ("" +:+ ?x) with x in Htext. subst text.
  rewrite analyses_app, Hnone. cbn [app].
  destruct (String.eqb _ "") eqn:E.
  - apply String.eqb_eq in E. rewrite E. reflexivity.
  - cbn [analyses omap].
    destruct (parseDiffText _) as [[| d ds] | e]; try reflexivity.
    unfold sendCommitAnalysisToSidebar. destruct (sidebarProvider gi); reflexivity.
Qed.

End GitRunsProps.
(** ** Properties of the registry of review threads *)

Module RegistryProps.
Import Js Comments Registry CommentsProps.

Lemma consistent_ext (m m' : CommentManager) :
  threads m' = threads m -> threadData m' = threadData m -> objects m' = objects m ->
  consistent m -> consistent m'.
Proof.
  intros Ht Hd Ho [H1 H2 H3]. split; rewrite ?Ht, ?Hd, ?Ho; assumption.
Qed.

Lemma consistent_new (files : gmap string (list string)) : consistent (new_manager files).
Proof.
  split; cbn.
  - intros id. rewrite !lookup_empty. split; intros [? ?]; discriminate.
  - intros id r. rewrite lookup_empty. discriminate.
  - intros id1 id2 r. rewrite lookup_empty. discriminate.
Qed.

Lemma consistent_update (m : CommentManager) (r : nat) (t : CommentThread)
    (f : CommentThread -> CommentThread) :
  (forall t, disposed (f t) = disposed t) ->
  objects m !! r = Some t -> consistent m ->
  consistent (set_objects (<[r := f t]> (objects m)) m).
Proof.
  intros Hf Hr [H1 H2 H3]. split; cbn; [assumption | | assumption].
  intros id r' Hid. destruct (H2 id r' Hid) as (t' & Ht' & Hlive).
  destruct (decide (r' = r)) as [-> | Hne].
  - exists (f t). split.
    + apply list_lookup_insert_eq. eapply lookup_lt_Some, Hr.
    + rewrite Hf. congruence.
  - exists t'. split; [| exact Hlive]. rewrite list_lookup_insert_ne by congruence.
    exact Ht'.
Qed.

Lemma consistent_alter (m : CommentManager) (f : CommentThreadData -> CommentThreadData)
    (threadId : string) :
  consistent m -> consistent (set_threadData (alter f threadId (threadData m)) m).
Proof.
  intros [H1 H2 H3]. split; cbn; [| assumption | assumption].
  intros id. rewrite H1, lookup_alter. case_decide as Hid; [| reflexivity].
  subst id. rewrite fmap_is_Some. reflexivity.
Qed.

Lemma consistent_retire (m : CommentManager) (threadId : string) (r : nat)
    (t : CommentThread) (files : gmap string (list string)) (n : nat)
    (l : list event) :
  consistent m -> threads m !! threadId = Some r -> objects m !! r = Some t ->
  consistent {| threads := delete threadId (threads m);
                threadData := delete threadId (threadData m);
                objects := <[r := dispose_thread t]> (objects m);
                workspace := files; ticks := n; log := l |}.
Proof.
  intros [H1 H2 H3] Hid Hr. split; cbn.
  - intros id. destruct (decide (id = threadId)) as [-> | Hne].
    + rewrite !lookup_delete_eq. split; intros [? ?]; discriminate.
    + rewrite !lookup_delete_ne by congruence. apply H1.
  - intros id r' Hid'. apply lookup_delete_Some in Hid' as [Hne Hid'].
    destruct (H2 id r' Hid') as (t' & Ht' & Hlive).
    exists t'. split; [| exact Hlive].
    rewrite list_lookup_insert_ne; [exact Ht' |].
    intros ->. apply Hne. symmetry. eapply H3; eassumption.
  - intros id1 id2 r' Ha Hb.
    apply lookup_delete_Some in Ha as [_ Ha]. apply lookup_delete_Some in Hb as [_ Hb].
    eapply H3; eassumption.
Qed.

Lemma consistent_insert (m : CommentManager) (threadId : string)
    (d : CommentThreadData) (t : CommentThread)
    (files : gmap string (list string)) (n : nat) (l : list event) :
  consistent m -> disposed t = false ->
  consistent {| threads := <[threadId := length (objects m)]> (threads m);
                threadData := <[threadId := d]> (threadData m);
                objects := objects m ++ [t];
                workspace := files; ticks := n; log := l |}.
Proof.
  intros [H1 H2 H3] Ht. split; cbn.
  - intros id. rewrite !lookup_insert. case_decide.
    + split; eauto.
    + apply H1.
  - intros id r. rewrite lookup_insert. case_decide.
    + intros [= <-]. exists t. split; [| exact Ht].
      apply list_lookup_middle. reflexivity.
    + intros Hid. destruct (H2 id r Hid) as (t' & Ht' & Hlive).
      exists t'. split; [| exact Hlive]. apply lookup_app_l_Some. exact Ht'.
  - intros id1 id2 r. rewrite !lookup_insert.
    assert (forall id, threads m !! id = Some (length (objects m)) -> False) as Hold.
    { intros id Hid. destruct (H2 id _ Hid) as (t' & Ht' & _).
      apply lookup_lt_Some in Ht'. lia. }
    repeat case_decide; intros Ha Hb; simplify_eq; try congruence;
      try (exfalso; eapply Hold; eassumption).
    eapply H3; eassumption.
Qed.

(** *** Every method keeps the registry consistent *)

Lemma stays_bind {A B : Type} (c : M A) (f : A -> M B) :
  keeps stays_consistent c -> (forall a, keeps stays_consistent (f a)) ->
  keeps stays_consistent (c ≫= f).
Proof. apply keeps_bind_gen; unfold stays_consistent; auto. Qed.

Lemma stays_try {A : Type} (body : M A) (handler : exn -> M A) :
  keeps stays_consistent body -> (forall e, keeps stays_consistent (handler e)) ->
  keeps stays_consistent (try_catch body handler).
Proof. apply keeps_try_gen; unfold stays_consistent; auto. Qed.

Lemma stays_mret {A : Type} (a : A) : keeps stays_consistent (mret a).
Proof. intros m H. exact H. Qed.

Lemma stays_await {A : Type} (r : result A) : keeps stays_consistent (await r).
Proof. intros m H. exact H. Qed.

Lemma stays_get : keeps stays_consistent get.
Proof. intros m H. exact H. Qed.

Lemma stays_emit (e : event) : keeps stays_consistent (emit e).
Proof. intros m Hm. revert Hm. apply consistent_ext; reflexivity. Qed.

Lemma stays_tick : keeps stays_consistent tick.
Proof. intros m Hm. revert Hm. apply consistent_ext; reflexivity. Qed.

Lemma update_thread_run (m : CommentManager) (r : nat) (t : CommentThread)
    (f : CommentThread -> CommentThread) :
  objects m !! r = Some t ->
  update_thread r f m = (Ok tt, set_objects (<[r := f t]> (objects m)) m).
Proof. intros Hr. unfold update_thread. step_M. rewrite Hr. reflexivity. Qed.

Lemma update_thread_missing (m : CommentManager) (r : nat)
    (f : CommentThread -> CommentThread) :
  objects m !! r = None -> update_thread r f m = (Throw (TypeError "thread"), m).
Proof. intros Hr. unfold update_thread. step_M. rewrite Hr. reflexivity. Qed.

Lemma stays_update_thread (r : nat) (f : CommentThread -> CommentThread) :
  (forall t, disposed (f t) = disposed t) ->
  keeps stays_consistent (update_thread r f).
Proof.
  intros Hf m Hm. destruct (objects m !! r) as [t |] eqn:Hr.
  - rewrite (update_thread_run _ _ _ _ Hr). apply consistent_update; assumption.
  - rewrite (update_thread_missing _ _ _ Hr). exact Hm.
Qed.

Lemma stays_push_conversation (threadId : string) (msg : ConversationMessage) :
  keeps stays_consistent (push_conversation threadId msg).
Proof. intros m Hm. revert Hm. apply consistent_alter. Qed.

Lemma stays_assign_codeChange (threadId : string) (c : option string) :
  keeps stays_consistent (assign_codeChange threadId c).
Proof. intros m Hm. revert Hm. apply consistent_alter. Qed.

Ltac stays :=
  repeat first
    [ apply stays_mret | apply stays_await | apply stays_get | apply stays_emit
    | apply stays_tick | apply stays_push_conversation
    | apply stays_assign_codeChange
    | apply stays_update_thread; intros ?; reflexivity
    | apply stays_bind; [| intros ?]
    | apply stays_try; [| intros ?]
    | match goal with
      | |- keeps _ (match ?x with _ => _ end) => destruct x
      | |- keeps _ (let _ := _ in _) => cbv zeta
      end ].

Lemma fix_stays_consistent (host : Host) (threadId : string) :
  keeps stays_consistent (fixWithAI host threadId).
Proof. unfold fixWithAI. stays. Qed.

Lemma reply_stays_consistent (host : Host) (threadId replyText : string) :
  keeps stays_consistent (handleUserReplyFromComment host threadId replyText).
Proof. unfold handleUserReplyFromComment. stays. Qed.

Lemma reply_in_thread_stays_consistent (host : Host) (thread : nat) (text : string) :
  keeps stays_consistent (handleUserReply host thread text).
Proof. unfold handleUserReply. stays. Qed.

Lemma create_stays_consistent (host : Host) (s : CodeReviewSuggestion) :
  keeps stays_consistent (createAdvancedCommentThread host s).
Proof.
  intros m Hm.
  destruct (findFiles host ("**/" +:+ filePath s)) as [[| fileUri rest] | e] eqn:Hfind.
  - rewrite (create_not_found _ _ _ Hfind). revert Hm. apply consistent_ext; reflexivity.
  - destruct (new_Range_never_throws (startLine s) (endLine s)) as [rg Hrg].
    rewrite (create_found _ _ _ _ _ _ Hfind Hrg). cbn [snd].
    apply consistent_insert; [exact Hm | reflexivity].
  - rewrite (create_rejected _ _ _ _ Hfind). exact Hm.
Qed.

Lemma clear_stays_consistent : keeps stays_consistent clearAllComments.
Proof.
  intros m _. split.
  - intros id.
    change (threads (clearAllComments m).2) with (∅ : gmap string nat).
    change (threadData (clearAllComments m).2) with (∅ : gmap string CommentThreadData).
    rewrite !lookup_empty. split; intros [? ?]; discriminate.
  - intros id r. change (threads (clearAllComments m).2) with (∅ : gmap string nat).
    rewrite lookup_empty. discriminate.
  - intros id1 id2 r. change (threads (clearAllComments m).2) with (∅ : gmap string nat).
    rewrite lookup_empty. discriminate.
Qed.

Lemma create_all_stays_consistent (host : Host) (ss : list CodeReviewSuggestion) :
  keeps stays_consistent (create_all host ss).
Proof.
  induction ss as [| s ss IH]; cbn [create_all].
  - apply stays_mret.
  - apply stays_bind; [apply create_stays_consistent | intros _; exact IH].
Qed.

Lemma display_stays_consistent (host : Host) (review : CodeReview) :
  keeps stays_consistent (displayReviewsAsComments host review).
Proof.
  unfold displayReviewsAsComments.
  apply stays_bind; [apply clear_stays_consistent | intros _].
  destruct (suggestions review) as [[| s ss] |]; try apply stays_emit.
  apply stays_bind; [apply create_all_stays_consistent | intros _; apply stays_emit].
Qed.

Lemma get_thread_Some (m : CommentManager) (threadId : string) (r : nat)
    (t : CommentThread) :
  get_thread m threadId = Some (r, t) <->
  threads m !! threadId = Some r /\ objects m !! r = Some t.
Proof.
  unfold get_thread. destruct (threads m !! threadId) as [r' |]; cbn.
  - destruct (objects m !! r') as [t' |] eqn:Hr'; cbn.
    + split; [intros [= <- <-]; auto | intros [[= <-] H]; congruence].
    + split; [discriminate | intros [[= <-] H]; congruence].
  - split; [discriminate | intros [? _]; discriminate].
Qed.

(** What [retire] leaves. *)
Lemma retire_run (m : CommentManager) (threadId : string) (r : nat) (t : CommentThread) :
  objects m !! r = Some t ->
  retire threadId r m
  = (Ok tt, {| threads := delete threadId (threads m);
               threadData := delete threadId (threadData m);
               objects := <[r := dispose_thread t]> (objects m);
               workspace := workspace m; ticks := ticks m; log := log m |}).
Proof.
  intros Hr. unfold retire. unfold mbind at 1, M_bind at 1.
  rewrite (update_thread_run _ _ _ _ Hr). reflexivity.
Qed.

(** What [markAsUnderstood] does. *)
Lemma resolve_known (m : CommentManager) (threadId : string) (r : nat)
    (t : CommentThread) :
  get_thread m threadId = Some (r, t) ->
  markAsUnderstood threadId m
  = (Ok tt, {| threads := delete threadId (threads m);
               threadData := delete threadId (threadData m);
               objects := <[r := dispose_thread t]> (objects m);
               workspace := workspace m; ticks := ticks m;
               log := log m ++ [ShowInformationMessage "Suggestion marked as understood"] |}).
Proof.
  intros Hg. unfold markAsUnderstood. unfold mbind at 1, M_bind at 1, get.
  rewrite Hg. apply get_thread_Some in Hg as [_ Hr].
  unfold mbind, M_bind. rewrite (retire_run _ _ _ _ Hr). reflexivity.
Qed.

Lemma resolve_unknown (m : CommentManager) (threadId : string) :
  get_thread m threadId = None -> markAsUnderstood threadId m = (Ok tt, m).
Proof.
  intros Hg. unfold markAsUnderstood. unfold mbind, M_bind, get. rewrite Hg. reflexivity.
Qed.

Lemma resolve_stays_consistent (threadId : string) :
  keeps stays_consistent (markAsUnderstood threadId).
Proof.
  intros m Hm. destruct (get_thread m threadId) as [[r t] |] eqn:Hg.
  - rewrite (resolve_known _ _ _ _ Hg). apply get_thread_Some in Hg as [Hid Hr].
    apply consistent_retire; assumption.
  - rewrite (resolve_unknown _ _ Hg). exact Hm.
Qed.

Lemma apply_stays_consistent (host : Host) (threadId : string) :
  keeps stays_consistent (applySuggestion host threadId).
Proof.
  intros m Hm. unfold applySuggestion. step_M.
  destruct (threadData m !! threadId) as [data |]; cbn;
    [| revert Hm; apply consistent_ext; reflexivity].
  destruct (get_thread m threadId) as [[r thread] |] eqn:Hg; cbn;
    [| revert Hm; apply consistent_ext; reflexivity].
  destruct (or_else (codeChange (suggestion data)) None) as [change |]; cbn;
    [| revert Hm; apply consistent_ext; reflexivity].
  destruct (range thread) as [rg |]; cbn;
    [| revert Hm; apply consistent_ext; reflexivity].
  apply get_thread_Some in Hg as [Hid Hr].
  destruct (applyEdit host (workspace m) _) as [[files |] | e]; cbn.
  - match goal with
    | |- context [retire _ _ ?st] =>
        rewrite (retire_run st threadId r thread Hr)
    end.
    cbn [snd]. apply (consistent_retire m); assumption.
  - revert Hm. apply consistent_ext; reflexivity.
  - revert Hm. apply consistent_ext; reflexivity.
Qed.

Lemma run_stays_consistent (host : Host) (op : operation) :
  keeps stays_consistent (run host op).
Proof.
  destruct op; cbn [run].
  - apply create_stays_consistent.
  - apply display_stays_consistent.
  - apply reply_stays_consistent.
  - apply reply_in_thread_stays_consistent.
  - apply fix_stays_consistent.
  - apply apply_stays_consistent.
  - apply resolve_stays_consistent.
  - apply clear_stays_consistent.
Qed.

(** X13.  Whatever operations a new manager goes through -- returning or
    throwing --, [threads] and [threadData] hold the same ids, the thread of
    every id is an object that exists and has not been disposed, and no
    thread object is stored under two ids. *)
Theorem registry_always_consistent
    (host : Host) (ops : list operation) (files : gmap string (list string)) :
  consistent (run_all host ops (new_manager files)).
Proof.
  generalize (consistent_new files). generalize (new_manager files).
  induction ops as [| op ops IH]; intros m Hm; cbn [run_all]; [exact Hm |].
  apply IH, run_stays_consistent, Hm.
Qed.


(** *** The commands of the editor *)

Lemma find_by_thread_sound (m : CommentManager) (r : nat) (id : string) :
  findThreadIdByThread m r = Some id -> threads m !! id = Some r.
Proof.
  unfold findThreadIdByThread.
  destruct (list_find _ _) as [[i [id' r']] |] eqn:Hfind; [| discriminate].
  cbn. intros [= <-]. apply list_find_Some in Hfind as (Hi & Hr & _).
  cbn in Hr. subst r'. apply elem_of_map_to_list. eapply list_elem_of_lookup_2, Hi.
Qed.

Lemma find_by_thread_complete (m : CommentManager) (r : nat) (id : string) :
  consistent m -> threads m !! id = Some r -> findThreadIdByThread m r = Some id.
Proof.
  intros Hm Hid.
  destruct (findThreadIdByThread m r) as [id' |] eqn:Hfind.
  - f_equal. eapply (threads_distinct m Hm); [| exact Hid].
    apply find_by_thread_sound, Hfind.
  - exfalso. unfold findThreadIdByThread in Hfind.
    destruct (list_find (fun entry : string * nat => entry.2 = r)
                (map_to_list (threads m))) as [found |] eqn:Hl; [discriminate |].
    apply list_find_None in Hl. rewrite Forall_forall in Hl.
    apply (Hl (id, r)); [| reflexivity]. apply elem_of_map_to_list. exact Hid.
Qed.

Lemma find_by_thread_unregistered (m : CommentManager) (r : nat) :
  unregistered m r -> findThreadIdByThread m r = None.
Proof.
  intros Hun. destruct (findThreadIdByThread m r) as [id |] eqn:Hfind; [| reflexivity].
  exfalso. eapply Hun, find_by_thread_sound, Hfind.
Qed.

(** X14.  A command of the editor on the thread object stored under an id
    does what the method does for that id: the id found from the object is
    the id it was stored under. *)
Theorem command_reaches_its_thread
    (host : Host) (c : command) (m : CommentManager) (threadId : string) (r : nat) :
  consistent m -> threads m !! threadId = Some r -> threadId <> "" ->
  on_command host c (Some r) m = by_id host c threadId m.
Proof.
  intros Hm Hid Hne. unfold on_command. unfold mbind, M_bind, get.
  rewrite (find_by_thread_complete m r threadId Hm Hid).
  unfold or_else, truthy_str. apply String.eqb_neq in Hne. rewrite Hne. reflexivity.
Qed.

Lemma command_reaches_its_thread_witness :
  on_command sample_host MarkUnderstoodCommand (Some 0) sample_manager_with_thread
  = markAsUnderstood "codeowl_0" sample_manager_with_thread.
Proof.
  apply (command_reaches_its_thread sample_host MarkUnderstoodCommand
           sample_manager_with_thread "codeowl_0" 0).
  - apply (create_stays_consistent sample_host sample_suggestion sample_manager),
      (consistent_new {[ "/work/src/a.ts" := replicate 10 "" ]}).
  - vm_compute. reflexivity.
  - discriminate.
Defined.

Lemma command_unregistered (host : Host) (c : command) (m : CommentManager) (r : nat) :
  unregistered m r -> on_command host c (Some r) m = (Ok tt, m).
Proof.
  intros Hun. unfold on_command. unfold mbind, M_bind, get.
  rewrite (find_by_thread_unregistered m r Hun). reflexivity.
Qed.

(** X15.  Resolving a thread a second time does nothing: no thread is
    disposed twice and no second message is shown, so the resolution a
    reply scheduled is harmless when the thread is gone by then. *)
Theorem resolve_twice_is_resolve_once (threadId : string) (m : CommentManager) :
  (markAsUnderstood threadId ≫= fun _ => markAsUnderstood threadId) m
  = markAsUnderstood threadId m.
Proof.
  unfold mbind at 1, M_bind at 1.
  destruct (get_thread m threadId) as [[r t] |] eqn:Hg.
  - rewrite (resolve_known _ _ _ _ Hg). apply resolve_unknown.
    unfold get_thread. cbn. rewrite lookup_delete_eq. reflexivity.
  - rewrite (resolve_unknown _ _ Hg). apply resolve_unknown, Hg.
Qed.

(** X16.  Once the editor's command has resolved a thread, no command on
    that thread object does anything any more. *)
Theorem resolved_thread_out_of_reach
    (host : Host) (m : CommentManager) (r : nat) (c : command) :
  consistent m ->
  let m' := (on_command host MarkUnderstoodCommand (Some r) m).2 in
  on_command host c (Some r) m' = (Ok tt, m').
Proof.
  intros Hm m'. subst m'.
  destruct (findThreadIdByThread m r) as [id |] eqn:Hfind.
  - pose proof (find_by_thread_sound _ _ _ Hfind) as Hid.
    destruct (String.eqb id "") eqn:Hempty.
    + assert (forall c', on_command host c' (Some r) m = (Ok tt, m)) as Hnothing.
      { intros c'. unfold on_command. unfold mbind, M_bind, get. rewrite Hfind.
        unfold or_else, truthy_str. rewrite Hempty. reflexivity. }
      rewrite !Hnothing. reflexivity.
    + apply String.eqb_neq in Hempty.
      rewrite (command_reaches_its_thread host MarkUnderstoodCommand m id r Hm Hid Hempty).
      cbn [by_id].
      destruct (threads_live m Hm id r Hid) as (t & Hr & _).
      assert (get_thread m id = Some (r, t)) as Hg by (apply get_thread_Some; auto).
      rewrite (resolve_known _ _ _ _ Hg). cbn [snd].
      apply command_unregistered. intros id'. cbn.
      intros Hid'. apply lookup_delete_Some in Hid' as [Hne Hid'].
      apply Hne. eapply (threads_distinct m Hm); eassumption.
  - assert (forall c', on_command host c' (Some r) m = (Ok tt, m)) as Hnothing.
    { intros c'. unfold on_command. unfold mbind, M_bind, get. rewrite Hfind.
      reflexivity. }
    rewrite !Hnothing. reflexivity.
Qed.

Lemma resolved_thread_out_of_reach_witness :
  let m' := (on_command sample_host MarkUnderstoodCommand (Some 0)
               sample_manager_with_thread).2 in
  on_command sample_host FixWithAICommand (Some 0) m' = (Ok tt, m').
Proof.
  apply (resolved_thread_out_of_reach sample_host sample_manager_with_thread 0
           FixWithAICommand).
  apply (create_stays_consistent sample_host sample_suggestion sample_manager),
    (consistent_new {[ "/work/src/a.ts" := replicate 10 "" ]}).
Defined.


(** *** What a fix and a reply leave *)

Lemma drop_last_append (c : Comment) (t : CommentThread) :
  drop_last_comment (append_comment c t) = with_comments (comments t) t.
Proof.
  unfold drop_last_comment, append_comment, with_comments. cbn.
  rewrite length_app. cbn. replace (length (comments t) + 1 - 1) with (length (comments t)) by lia.
  rewrite take_app_length. reflexivity.
Qed.

Lemma with_comments_same (t : CommentThread) : with_comments (comments t) t = t.
Proof. destruct t. reflexivity. Qed.

(** What [fixWithAI] does on a thread the manager holds. *)
Lemma fix_known (host : Host) (m : CommentManager) (threadId : string)
    (d : CommentThreadData) (r : nat) (t : CommentThread) :
  threadData m !! threadId = Some d -> get_thread m threadId = Some (r, t) ->
  fixWithAI host threadId m
  = (Ok tt,
     {| threads := threads m;
        threadData :=
          data_after_fix threadId (generateComprehensiveFix host (ticks m)) (threadData m);
        objects :=
          <[r := append_comment (fix_comment d (generateComprehensiveFix host (ticks m))) t]>
            (objects m);
        workspace := workspace m; ticks := S (ticks m);
        log := log m ++
               [ShowInformationMessage "CodeOwl is generating a comprehensive fix..."] |}).
Proof.
  intros Hd Hg. pose proof Hg as Hg'. apply get_thread_Some in Hg' as [Hid Hr].
  assert (r < length (objects m)) as Hlt by (eapply lookup_lt_Some, Hr).
  unfold fixWithAI, update_thread, data_after_fix, fix_comment. step_M.
  rewrite Hd, Hg. cbn. rewrite Hr. cbn.
  rewrite list_lookup_insert_eq by exact Hlt. cbn.
  rewrite list_insert_insert_eq, drop_last_append.
  destruct (success (generateComprehensiveFix host (ticks m))); cbn.
  - rewrite list_lookup_insert_eq by exact Hlt. cbn. rewrite list_insert_insert_eq.
    destruct (truthy_str (response_codeChange (generateComprehensiveFix host (ticks m))));
      cbn; reflexivity.
  - rewrite list_lookup_insert_eq by exact Hlt. cbn. rewrite list_insert_insert_eq.
    reflexivity.
Qed.

(** X17.  On a thread the manager holds, asking for an AI fix never
    throws and leaves the thread with exactly one comment more than it had:
    the fix when the answer succeeded, the error otherwise.  The loading
    comment shown meanwhile is gone, and no other thread object is
    touched. *)
Theorem fix_adds_one_comment
    (host : Host) (m : CommentManager) (threadId : string)
    (d : CommentThreadData) (r : nat) (t : CommentThread) :
  threadData m !! threadId = Some d -> get_thread m threadId = Some (r, t) ->
  let out := fixWithAI host threadId m in
  let response := generateComprehensiveFix host (ticks m) in
  out.1 = Ok tt
  /\ (exists t', objects out.2 !! r = Some t'
                 /\ comments t' = comments t ++ [fix_comment d response]
                 /\ uri t' = uri t /\ range t' = range t /\ disposed t' = disposed t)
  /\ (forall r', r' <> r -> objects out.2 !! r' = objects m !! r')
  /\ threads out.2 = threads m.
Proof.
  intros Hd Hg out response. subst out response.
  rewrite (fix_known host m threadId d r t Hd Hg). cbn [fst snd objects threads].
  apply get_thread_Some in Hg as [_ Hr].
  split; [reflexivity |]. split.
  - eexists. split; [apply list_lookup_insert_eq; eapply lookup_lt_Some, Hr |].
    repeat split.
  - split; [| reflexivity]. intros r' Hne. apply list_lookup_insert_ne. congruence.
Qed.

Lemma fix_adds_one_comment_witness :
  exists t', objects (fixWithAI sample_host "codeowl_0" sample_manager_with_thread).2 !! 0
             = Some t'
             /\ comments t'
                = [ {| comment_author := "CodeOwl AI"; body := IssueBody sample_suggestion |};
                    ai_comment (FixBody "src/a.ts" "use const") ].
Proof.
  destruct (fix_adds_one_comment sample_host sample_manager_with_thread "codeowl_0"
              (data_for sample_suggestion 0) 0
              (thread_for sample_suggestion "/work/src/a.ts")
              ltac:(vm_compute; reflexivity) ltac:(vm_compute; reflexivity))
    as (_ & (t' & Ht' & Hc & _) & _).
  exists t'. split; [exact Ht' | exact Hc].
Defined.

(** What [applySuggestion] does when there is an edit to make and the
    editor accepts it. *)
Lemma apply_known (host : Host) (m : CommentManager) (threadId : string)
    (r : nat) (thread : CommentThread) (edit : WorkspaceEdit)
    (files : gmap string (list string)) :
  located_edit m threadId = Some (r, thread, edit) ->
  applyEdit host (workspace m) edit = Ok (Some files) ->
  applySuggestion host threadId m
  = (Ok tt,
     {| threads := delete threadId (threads m);
        threadData := delete threadId (threadData m);
        objects := <[r := dispose_thread thread]> (objects m);
        workspace := files; ticks := ticks m;
        log := log m ++ [ShowInformationMessage "Code suggestion applied successfully!"] |}).
Proof.
  unfold located_edit, applySuggestion. step_M.
  destruct (threadData m !! threadId) as [data |]; [| discriminate]. cbn.
  destruct (get_thread m threadId) as [[r' thread'] |] eqn:Hg; [| discriminate]. cbn.
  destruct (or_else (codeChange (suggestion data)) None) as [change |]; [| discriminate].
  cbn. destruct (range thread') as [rg |]; [| discriminate]. cbn.
  intros [= -> -> <-] Hedit. rewrite Hedit. cbn.
  apply get_thread_Some in Hg as [_ Hr].
  match goal with
  | |- context [retire _ _ ?st] => rewrite (retire_run st threadId r thread Hr)
  end.
  reflexivity.
Qed.

(** X18.  Applying after an AI fix applies the fix: when the answer
    succeeded with a code change, [applySuggestion] hands the editor that
    code change, for the range and the file the thread was created on --
    whatever replacement the suggestion had before -- and, the editor
    accepting, retires the thread. *)
Theorem apply_after_fix_applies_the_fix
    (host : Host) (m : CommentManager) (threadId : string)
    (d : CommentThreadData) (r : nat) (t : CommentThread) (rg : Range)
    (change : string) (files : gmap string (list string)) :
  threadData m !! threadId = Some d -> get_thread m threadId = Some (r, t) ->
  range t = Some rg ->
  success (generateComprehensiveFix host (ticks m)) = true ->
  response_codeChange (generateComprehensiveFix host (ticks m)) = Some change ->
  change <> "" ->
  applyEdit host (workspace m)
    {| edit_uri := uri t; edit_range := rg; edit_newText := change |} = Ok (Some files) ->
  let out := (fixWithAI host threadId ≫= fun _ => applySuggestion host threadId) m in
  out.1 = Ok tt
  /\ workspace out.2 = files
  /\ threads out.2 = delete threadId (threads m)
  /\ threadData out.2 !! threadId = None
  /\ (exists t', objects out.2 !! r = Some t' /\ disposed t' = true).
Proof.
  intros Hd Hg Hrg Hs Hc Hne Hedit out. subst out.
  unfold mbind, M_bind. rewrite (fix_known host m threadId d r t Hd Hg).
  pose proof Hg as Hg'. apply get_thread_Some in Hg' as [Hid Hr].
  assert (r < length (objects m)) as Hlt by (eapply lookup_lt_Some, Hr).
  match goal with
  | |- context [applySuggestion host threadId ?st] => set (m1 := st)
  end.
  assert (located_edit m1 threadId
          = Some (r,
                  append_comment
                    (fix_comment d (generateComprehensiveFix host (ticks m))) t,
                  {| edit_uri := uri t; edit_range := rg; edit_newText := change |}))
    as Hloc.
  { subst m1. unfold located_edit, get_thread, data_after_fix. cbn.
    rewrite Hs, Hc. cbn. apply String.eqb_neq in Hne. rewrite Hne. cbn.
    rewrite lookup_alter_eq, Hd, Hid. cbn.
    rewrite list_lookup_insert_eq by exact Hlt. cbn.
    unfold or_else. cbn. rewrite Hne. cbn. rewrite Hrg. reflexivity. }
  rewrite (apply_known host m1 threadId _ _ _ files Hloc Hedit).
  subst m1. cbn [fst snd workspace threads threadData objects].
  split; [reflexivity |]. split; [reflexivity |]. split; [reflexivity |].
  split; [apply lookup_delete_eq |].
  eexists. split;
    [rewrite list_insert_insert_eq; apply list_lookup_insert_eq; exact Hlt
    | reflexivity].
Qed.

Lemma apply_after_fix_applies_the_fix_witness :
  let out := (fixWithAI sample_host "codeowl_0"
                ≫= fun _ => applySuggestion sample_host "codeowl_0")
               sample_manager_with_thread in
  out.1 = Ok tt /\ threadData out.2 !! "codeowl_0" = None.
Proof.
  destruct (apply_after_fix_applies_the_fix sample_host sample_manager_with_thread
              "codeowl_0" (data_for sample_suggestion 0) 0
              (thread_for sample_suggestion "/work/src/a.ts")
              {| range_start := {| line := 99; character := 0 |};
                 range_end := {| line := 99; character := 1024 |} |}
              "const x = 1;" (workspace sample_manager_with_thread)
              ltac:(vm_compute; reflexivity) ltac:(vm_compute; reflexivity)
              ltac:(reflexivity) ltac:(reflexivity) ltac:(reflexivity)
              ltac:(discriminate) ltac:(reflexivity))
    as (H1 & _ & _ & H4 & _).
  split; [exact H1 | exact H4].
Defined.


(** X19.  A reply on a thread the manager holds is recorded in order: the
    conversation gets the user's message and, after it, the answer of the
    language model -- unless the answer asks to resolve the thread, in which
    case the resolution is scheduled and nothing of the answer is kept.  The
    thread shows the answer in the first case and is as before in the
    second; the loading comment is gone either way, and no other thread or
    entry is touched. *)
Theorem reply_is_recorded_in_order
    (host : Host) (m : CommentManager) (threadId replyText : string)
    (d : CommentThreadData) (r : nat) (t : CommentThread) :
  threadData m !! threadId = Some d -> get_thread m threadId = Some (r, t) ->
  let out := handleUserReplyFromComment host threadId replyText m in
  let response := handleConversationReply host (ticks m) in
  out.1 = Ok tt
  /\ threadData out.2 !! threadId = Some (data_after_reply host (ticks m) replyText d)
  /\ (forall id, id <> threadId -> threadData out.2 !! id = threadData m !! id)
  /\ objects out.2
     = <[r := if asks_to_resolve response then t
              else append_comment (ai_comment (ReplyBody (response_message response))) t]>
         (objects m)
  /\ threads out.2 = threads m
  /\ log out.2
     = log m ++ (if asks_to_resolve response then [ScheduleMarkAsUnderstood threadId]
                 else []).
Proof.
  intros Hd Hg out response. subst out response.
  pose proof Hg as Hg'. apply get_thread_Some in Hg' as [Hid Hr].
  assert (r < length (objects m)) as Hlt by (eapply lookup_lt_Some, Hr).
  unfold handleUserReplyFromComment, update_thread, push_conversation,
    data_after_reply, asks_to_resolve.
  step_M. rewrite Hd, Hg. cbn. rewrite Hr. cbn.
  rewrite list_lookup_insert_eq by exact Hlt. cbn.
  rewrite list_insert_insert_eq, drop_last_append, with_comments_same.
  destruct (success (handleConversationReply host (ticks m))
            && default false (shouldRemove (handleConversationReply host (ticks m))));
    cbn.
  - split; [reflexivity |]. split; [rewrite lookup_alter_eq, Hd; reflexivity |].
    split; [intros id Hne; apply lookup_alter_ne; congruence |].
    split; [reflexivity |]. split; [reflexivity |]. reflexivity.
  - rewrite list_lookup_insert_eq by exact Hlt. cbn. rewrite list_insert_insert_eq.
    split; [reflexivity |]. split.
    { rewrite !lookup_alter_eq, Hd. cbn. rewrite <- app_assoc. reflexivity. }
    split; [intros id Hne; rewrite !lookup_alter_ne by congruence; reflexivity |].
    split; [reflexivity |]. split; [reflexivity |]. symmetry. apply app_nil_r.
Qed.

Lemma reply_is_recorded_in_order_witness :
  let out := handleUserReplyFromComment resolving_host "codeowl_0" "done"
               sample_manager_with_thread in
  conversation <$> threadData out.2 !! "codeowl_0"
  = Some [initial_message sample_suggestion 0;
          {| author := "User"; message := "done"; timestamp := 1 |}]
  /\ log out.2 = [ScheduleMarkAsUnderstood "codeowl_0"].
Proof.
  destruct (reply_is_recorded_in_order resolving_host sample_manager_with_thread
              "codeowl_0" "done" (data_for sample_suggestion 0) 0
              (thread_for sample_suggestion "/work/src/a.ts")
              ltac:(vm_compute; reflexivity) ltac:(vm_compute; reflexivity))
    as (_ & Hdata & _ & _ & _ & Hlog).
  split; [rewrite Hdata; reflexivity | exact Hlog].
Defined.

(** *** Which operations can throw *)

Lemma returns_bind {A B : Type} (I : CommentManager -> Prop) (c : M A) (f : A -> M B) :
  returns_from I c -> (forall a, returns_from I (f a)) -> returns_from I (c ≫= f).
Proof.
  intros Hc Hf m Hm. unfold mbind, M_bind.
  destruct (Hc m Hm) as [[a Ha] Hm1]. destruct (c m) as [res m1]. cbn in Ha, Hm1.
  subst res. apply Hf, Hm1.
Qed.

Lemma returns_try {A : Type} (I : CommentManager -> Prop) (body : M A)
    (handler : exn -> M A) :
  returns_from I body -> returns_from I (try_catch body handler).
Proof.
  intros Hc m Hm. unfold try_catch.
  destruct (Hc m Hm) as [[a Ha] Hm1]. destruct (body m) as [res m1]. cbn in Ha, Hm1.
  subst res. split; [eexists; reflexivity | exact Hm1].
Qed.

Lemma returns_mret {A : Type} (I : CommentManager -> Prop) (a : A) :
  returns_from I (mret a).
Proof. intros m Hm. split; [eexists; reflexivity | exact Hm]. Qed.

Lemma returns_emit (r : nat) (e : event) : returns_from (has_object r) (emit e).
Proof. intros m Hm. split; [eexists; reflexivity | exact Hm]. Qed.

Lemma returns_tick (r : nat) : returns_from (has_object r) tick.
Proof. intros m Hm. split; [eexists; reflexivity | exact Hm]. Qed.

Lemma returns_push_conversation (r : nat) (threadId : string) (msg : ConversationMessage) :
  returns_from (has_object r) (push_conversation threadId msg).
Proof. intros m Hm. split; [eexists; reflexivity | exact Hm]. Qed.

Lemma returns_assign_codeChange (r : nat) (threadId : string) (c : option string) :
  returns_from (has_object r) (assign_codeChange threadId c).
Proof. intros m Hm. split; [eexists; reflexivity | exact Hm]. Qed.

Lemma returns_update_thread (r : nat) (f : CommentThread -> CommentThread) :
  returns_from (has_object r) (update_thread r f).
Proof.
  intros m Hm. destruct (lookup_lt_is_Some_2 (objects m) r Hm) as [t Hr].
  rewrite (update_thread_run _ _ _ _ Hr). split; [eexists; reflexivity |].
  unfold has_object. cbn. rewrite length_insert. exact Hm.
Qed.

Ltac returns :=
  repeat first
    [ apply returns_mret | apply returns_emit | apply returns_tick
    | apply returns_push_conversation | apply returns_assign_codeChange
    | apply returns_update_thread
    | apply returns_bind; [| intros ?]
    | apply returns_try
    | match goal with
      | |- returns_from _ (match ?x with _ => _ end) => destruct x
      | |- returns_from _ (let _ := _ in _) => cbv zeta
      end ].

Lemma fix_returns (host : Host) (threadId : string) (m : CommentManager) :
  (fixWithAI host threadId m).1 = Ok tt.
Proof.
  unfold fixWithAI. change ((get ≫= ?f) m) with (f m m). cbv beta.
  destruct (threadData m !! threadId) as [d |]; [| reflexivity].
  destruct (get_thread m threadId) as [[r t] |] eqn:Hg; [| reflexivity].
  apply get_thread_Some in Hg as [_ Hr].
  match goal with
  | |- (?c m).1 = _ =>
      assert (returns_from (has_object r) c) as Hc by returns;
      destruct (Hc m) as [[[] Ha] _]; [eapply lookup_lt_Some, Hr | exact Ha]
  end.
Qed.

Lemma reply_returns (host : Host) (threadId replyText : string) (m : CommentManager) :
  (handleUserReplyFromComment host threadId replyText m).1 = Ok tt.
Proof.
  unfold handleUserReplyFromComment. change ((get ≫= ?f) m) with (f m m). cbv beta.
  destruct (threadData m !! threadId) as [d |]; [| reflexivity].
  destruct (get_thread m threadId) as [[r t] |] eqn:Hg; [| reflexivity].
  apply get_thread_Some in Hg as [_ Hr].
  match goal with
  | |- (?c m).1 = _ =>
      assert (returns_from (has_object r) c) as Hc by returns;
      destruct (Hc m) as [[[] Ha] _]; [eapply lookup_lt_Some, Hr | exact Ha]
  end.
Qed.

Lemma reply_in_thread_returns (host : Host) (thread : nat) (text : string)
    (m : CommentManager) :
  consistent m -> (handleUserReply host thread text m).1 = Ok tt.
Proof.
  intros Hm. unfold handleUserReply. change ((get ≫= ?f) m) with (f m m). cbv beta.
  destruct (findThreadId m thread) as [id |] eqn:Hfind; [| reflexivity].
  unfold or_else. destruct (truthy_str (Some id)); [| reflexivity].
  destruct (threadData m !! id) as [d |]; [| reflexivity].
  apply (find_by_thread_sound m thread id) in Hfind.
  destruct (threads_live m Hm id thread Hfind) as (t & Hr & _).
  match goal with
  | |- (?c m).1 = _ =>
      assert (returns_from (has_object thread) c) as Hc by returns;
      destruct (Hc m) as [[[] Ha] _]; [eapply lookup_lt_Some, Hr | exact Ha]
  end.
Qed.

Lemma apply_returns (host : Host) (threadId : string) (m : CommentManager) :
  (applySuggestion host threadId m).1 = Ok tt.
Proof.
  unfold applySuggestion. step_M.
  destruct (threadData m !! threadId) as [data |]; cbn; [| reflexivity].
  destruct (get_thread m threadId) as [[r thread] |] eqn:Hg; cbn; [| reflexivity].
  destruct (or_else (codeChange (suggestion data)) None) as [change |]; cbn;
    [| reflexivity].
  destruct (range thread) as [rg |]; cbn; [| reflexivity].
  apply get_thread_Some in Hg as [Hid Hr].
  destruct (applyEdit host (workspace m) _) as [[files |] | e]; cbn; try reflexivity.
  match goal with
  | |- context [retire _ _ ?st] => rewrite (retire_run st threadId r thread Hr)
  end.
  reflexivity.
Qed.

Lemma resolve_returns (threadId : string) (m : CommentManager) :
  (markAsUnderstood threadId m).1 = Ok tt.
Proof.
  destruct (get_thread m threadId) as [[r t] |] eqn:Hg.
  - rewrite (resolve_known _ _ _ _ Hg). reflexivity.
  - rewrite (resolve_unknown _ _ Hg). reflexivity.
Qed.

Lemma create_returns (host : Host) (s : CodeReviewSuggestion) (m : CommentManager) :
  search_answers host -> (createAdvancedCommentThread host s m).1 = Ok tt.
Proof.
  intros Hsearch. destruct (Hsearch ("**/" +:+ filePath s)) as [[| fileUri rest] Hfind].
  - rewrite (create_not_found _ _ _ Hfind). reflexivity.
  - destruct (new_Range_never_throws (startLine s) (endLine s)) as [rg Hrg].
    rewrite (create_found _ _ _ _ _ _ Hfind Hrg). reflexivity.
Qed.

Lemma create_all_returns (host : Host) (ss : list CodeReviewSuggestion)
    (m : CommentManager) :
  search_answers host -> (create_all host ss m).1 = Ok tt.
Proof.
  intros Hsearch. revert m. induction ss as [| s ss IH]; intros m; [reflexivity |].
  cbn [create_all]. unfold mbind, M_bind.
  pose proof (create_returns host s m Hsearch) as Hs.
  destruct (createAdvancedCommentThread host s m) as [[[] | e] m1]; [| discriminate].
  apply IH.
Qed.

Lemma display_returns (host : Host) (review : CodeReview) (m : CommentManager) :
  search_answers host -> (displayReviewsAsComments host review m).1 = Ok tt.
Proof.
  intros Hsearch. unfold displayReviewsAsComments.
  unfold mbind at 1, M_bind at 1.
  change (clearAllComments m) with (Ok tt, (clearAllComments m).2).
  destruct (suggestions review) as [[| s ss] |]; try reflexivity.
  unfold mbind, M_bind.
  pose proof (create_all_returns host (s :: ss) (clearAllComments m).2 Hsearch) as Hs.
  destruct (create_all host (s :: ss) (clearAllComments m).2) as [[[] | e] m1];
    [reflexivity | discriminate].
Qed.

(** X20.  On a consistent registry no operation throws, as long as the
    file search of the editor answers: a rejected search is the only
    failure that escapes a method of the manager.  A rejected edit is caught
    and reported, failures of the language model are answers like others,
    and an id or a thread object the registry does not know makes the
    method return at once. *)
Theorem operations_return
    (host : Host) (op : operation) (m : CommentManager) :
  consistent m -> search_answers host -> (run host op m).1 = Ok tt.
Proof.
  intros Hm Hsearch. destruct op; cbn [run].
  - apply create_returns, Hsearch.
  - apply display_returns, Hsearch.
  - apply reply_returns.
  - apply reply_in_thread_returns, Hm.
  - apply fix_returns.
  - apply apply_returns.
  - apply resolve_returns.
  - reflexivity.
Qed.

Lemma operations_return_witness :
  (run sample_host (ReplyInThread 0 "why?") sample_manager_with_thread).1 = Ok tt.
Proof.
  apply (operations_return sample_host (ReplyInThread 0 "why?")
           sample_manager_with_thread).
  - apply (create_stays_consistent sample_host sample_suggestion sample_manager),
      (consistent_new {[ "/work/src/a.ts" := replicate 10 "" ]}).
  - intros pattern. eexists. reflexivity.
Defined.


Lemma create_all_app (host : Host) (l1 l2 : list CodeReviewSuggestion)
    (m : CommentManager) :
  create_all host (l1 ++ l2) m
  = (create_all host l1 ≫= fun _ => create_all host l2) m.
Proof.
  revert m. induction l1 as [| s l1 IH]; intros m; [reflexivity |].
  cbn [app create_all]. unfold mbind, M_bind in *.
  destruct (createAdvancedCommentThread host s m) as [[[] | e] m1]; [apply IH | reflexivity].
Qed.

(** X28.  Displaying a review stops at the first suggestion whose file
    search is rejected: the error escapes, the threads of the review before
    are gone, the threads made for the suggestions before that one stay,
    those after it are not made, and no message is shown. *)
Theorem display_stops_at_rejected_search
    (host : Host) (review : CodeReview) (m : CommentManager)
    (l1 l2 : list CodeReviewSuggestion) (s : CodeReviewSuggestion) (e : exn) :
  suggestions review = Some (l1 ++ s :: l2) ->
  Forall (fun s' => exists fileUris,
            findFiles host ("**/" +:+ filePath s') = Ok fileUris) l1 ->
  findFiles host ("**/" +:+ filePath s) = Throw e ->
  displayReviewsAsComments host review m
  = (Throw e, (create_all host l1 (clearAllComments m).2).2).
Proof.
  intros Hs Hl1 He. unfold displayReviewsAsComments. rewrite Hs.
  unfold mbind at 1, M_bind at 1.
  change (clearAllComments m) with (Ok tt, (clearAllComments m).2).
  generalize (clearAllComments m).2. intros m0.
  assert (create_all host (l1 ++ s :: l2) m0 = (Throw e, (create_all host l1 m0).2))
    as Hrun.
  { rewrite create_all_app. unfold mbind, M_bind.
    assert ((create_all host l1 m0).1 = Ok tt) as Hok.
    { clear -Hl1. revert m0. induction Hl1 as [| s' l1 [fileUris Hfind] _ IH];
        intros m0; [reflexivity |].
      cbn [create_all]. unfold mbind, M_bind.
      assert ((createAdvancedCommentThread host s' m0).1 = Ok tt) as Hc.
      { destruct fileUris as [| fileUri rest].
        - rewrite (create_not_found _ _ _ Hfind). reflexivity.
        - destruct (new_Range_never_throws (startLine s') (endLine s')) as [rg Hrg].
          rewrite (create_found _ _ _ _ _ _ Hfind Hrg). reflexivity. }
      destruct (createAdvancedCommentThread host s' m0) as [[[] | e'] m1];
        [apply IH | discriminate]. }
    destruct (create_all host l1 m0) as [[[] | e'] m1]; [| discriminate].
    cbn [create_all snd]. unfold mbind, M_bind.
    rewrite (create_rejected _ _ _ _ He). reflexivity. }
  destruct (l1 ++ s :: l2) as [| s0 ss] eqn:Hl; [destruct l1; discriminate |].
  unfold mbind, M_bind. rewrite Hrun. reflexivity.
Qed.

Lemma display_stops_at_rejected_search_witness :
  let host :=
    {| findFiles := fun pattern =>
         if String.eqb pattern "**/src/b.ts" then Throw (HostError "search")
         else findFiles sample_host pattern;
       applyEdit := applyEdit sample_host; newThreadId := newThreadId sample_host;
       now := now sample_host;
       generateComprehensiveFix := generateComprehensiveFix sample_host;
       handleConversationReply := handleConversationReply sample_host |} in
  let other := {| filePath := "src/b.ts"; startLine := 1; endLine := 1;
                  suggestion_text := "rename"; codeChange := None |} in
  displayReviewsAsComments host
    {| summary := "two remarks"; suggestions := Some [sample_suggestion; other] |}
    sample_manager_with_thread
  = (Throw (HostError "search"),
     (create_all host [sample_suggestion]
        (clearAllComments sample_manager_with_thread).2).2).
Proof.
  intros host other.
  apply (display_stops_at_rejected_search host _ sample_manager_with_thread
           [sample_suggestion] [] other (HostError "search")).
  - reflexivity.
  - constructor; [eexists; reflexivity | constructor].
  - reflexivity.
Defined.

End RegistryProps.
(** ** Properties of the language-model service *)

Module LLMProps.
Import Js Comments Registry LLM GitProps CommentsProps RegistryProps.

Lemma length_append (a b : string) :
  String.length (a +:+ b) = String.length a + String.length b.
Proof.
  induction a as [| c a IH]; [reflexivity |].
  rewrite append_cons. cbn [String.length]. rewrite IH. reflexivity.
Qed.

Lemma startsWith_append (p b : string) : startsWith (p +:+ b) p = true.
Proof.
  unfold startsWith. induction p as [| c p IH]; [destruct b; reflexivity |].
  rewrite append_cons. cbn [String.prefix].
  destruct (ascii_dec c c) as [_ | Hne]; [exact IH | congruence].
Qed.

Lemma startsWith_split (s p : string) :
  startsWith s p = true -> s = p +:+ substring (String.length p) s.
Proof.
  unfold startsWith. revert s. induction p as [| c p IH]; intros s H; [reflexivity |].
  destruct s as [| c' s]; [discriminate |]. cbn [String.prefix] in H.
  destruct (ascii_dec c c') as [<- | Hne]; [| discriminate].
  rewrite append_cons. cbn [String.length substring]. f_equal. apply IH, H.
Qed.

Lemma append_split (a a' b b' : string) :
  a +:+ b = a' +:+ b' -> String.length a <= String.length a' ->
  exists x, a' = a +:+ x /\ b = x +:+ b'.
Proof.
  revert a'. induction a as [| c a IH]; intros a' E Hle.
  - exists a'. split; [reflexivity | exact E].
  - destruct a' as [| c' a']; [cbn in Hle; lia |].
    rewrite !append_cons in E. injection E as <- E.
    destruct (IH a' E) as (x & -> & ->); [cbn in Hle; lia |].
    exists x. split; [rewrite append_cons; reflexivity | reflexivity].
Qed.

Lemma append_same_length (a a' b b' : string) :
  a +:+ b = a' +:+ b' -> String.length a = String.length a' -> a = a' /\ b = b'.
Proof.
  intros E Hlen. destruct (append_split a a' b b' E) as (x & -> & ->); [lia |].
  rewrite length_append in Hlen. destruct x; [| cbn in Hlen; lia].
  rewrite append_empty_r. split; reflexivity.
Qed.

Lemma find_sub_here (pat s : string) :
  startsWith s pat = true ->
  find_sub pat s = Some (EmptyString, substring (String.length pat) s).
Proof. intros H. destruct s; cbn [find_sub]; rewrite H; reflexivity. Qed.

Lemma find_sub_later (pat : string) (c : ascii) (s : string) :
  startsWith (String c s) pat = false ->
  find_sub pat (String c s)
  = match find_sub pat s with
    | Some (before, after) => Some (String c before, after)
    | None => None
    end.
Proof. intros H. cbn [find_sub]. rewrite H. reflexivity. Qed.

Lemma find_sub_Some (pat s before after : string) :
  find_sub pat s = Some (before, after) -> s = before +:+ pat +:+ after.
Proof.
  revert before. induction s as [| c s IH]; intros before.
  - cbn [find_sub]. destruct (startsWith "" pat) eqn:Hp; [| discriminate].
    intros [= <- <-]. apply (startsWith_split _ _ Hp).
  - destruct (startsWith (String c s) pat) eqn:Hp.
    + rewrite (find_sub_here _ _ Hp). intros [= <- <-]. apply (startsWith_split _ _ Hp).
    + rewrite (find_sub_later _ _ _ Hp).
      destruct (find_sub pat s) as [[b a] |]; [| discriminate].
      intros [= <- <-]. rewrite append_cons. f_equal. apply IH. reflexivity.
Qed.

Lemma find_sub_first (pat s before after : string) (k : nat) :
  find_sub pat s = Some (before, after) -> occurs_at pat s k -> String.length before <= k.
Proof.
  revert before k. induction s as [| c s IH]; intros before k.
  - cbn [find_sub]. destruct (startsWith "" pat); [| discriminate].
    intros [= <- <-] _. cbn. lia.
  - destruct (startsWith (String c s) pat) eqn:Hp.
    + rewrite (find_sub_here _ _ Hp). intros [= <- <-] _. cbn. lia.
    + rewrite (find_sub_later _ _ _ Hp).
      destruct (find_sub pat s) as [[b a] |]; [| discriminate].
      intros [= <- <-] (x & y & E & Hk). destruct x as [| c' x].
      * change ("" +:+ pat +:+ y) with (pat +:+ y) in E.
        rewrite E, startsWith_append in Hp. discriminate.
      * rewrite append_cons in E. injection E as <- E. cbn in Hk. subst k.
        cbn [String.length]. apply le_n_S. apply (IH b (String.length x) eq_refl).
        exists x, y. split; [exact E | reflexivity].
Qed.

Lemma find_sub_None (pat s : string) (k : nat) :
  find_sub pat s = None -> ~ occurs_at pat s k.
Proof.
  revert k. induction s as [| c s IH]; intros k.
  - cbn [find_sub]. destruct (startsWith "" pat) eqn:Hp; [discriminate |].
    intros _ (x & y & E & _). destruct x; [| rewrite append_cons in E; discriminate].
    change ("" +:+ pat +:+ y) with (pat +:+ y) in E.
    rewrite E, startsWith_append in Hp. discriminate.
  - destruct (startsWith (String c s) pat) eqn:Hp.
    + rewrite (find_sub_here _ _ Hp). discriminate.
    + rewrite (find_sub_later _ _ _ Hp).
      destruct (find_sub pat s) as [[b a] |] eqn:Hs; [discriminate |].
      intros _ (x & y & E & Hk). destruct x as [| c' x].
      * change ("" +:+ pat +:+ y) with (pat +:+ y) in E.
        rewrite E, startsWith_append in Hp. discriminate.
      * rewrite append_cons in E. injection E as <- E.
        apply (IH (String.length x) eq_refl). exists x, y. split; [exact E | reflexivity].
Qed.

Lemma find_sub_occurs (pat s : string) (k : nat) :
  occurs_at pat s k -> is_Some (find_sub pat s).
Proof.
  intros Hocc. destruct (find_sub pat s) eqn:Hf; [eauto |].
  exfalso. eapply find_sub_None; eassumption.
Qed.

Lemma find_sub_first_at (pat s before after : string) :
  find_sub pat s = Some (before, after) <->
  s = before +:+ pat +:+ after /\ first_at pat s (String.length before).
Proof.
  split.
  - intros Hf. pose proof (find_sub_Some _ _ _ _ Hf) as E. split; [exact E |]. split.
    + exists before, after. split; [exact E | reflexivity].
    + intros k. apply (find_sub_first _ _ _ _ _ Hf).
  - intros [E [Hocc Hmin]].
    destruct (find_sub_occurs _ _ _ Hocc) as [[b a] Hf]. rewrite Hf.
    pose proof (find_sub_Some _ _ _ _ Hf) as E'.
    assert (String.length b = String.length before) as Hlen.
    { apply Nat.le_antisymm.
      - apply (find_sub_first _ _ _ _ _ Hf Hocc).
      - apply Hmin. exists b, a. split; [exact E' | reflexivity]. }
    rewrite E in E'. destruct (append_same_length _ _ _ _ E' (eq_sym Hlen)) as [-> E2].
    destruct (append_same_length _ _ _ _ E2 eq_refl) as [_ ->]. reflexivity.
Qed.

(** X21.  The code change taken from an answer of the language model is
    what stands between the first opening fence of the answer and the first
    closing fence that follows it; and there is no code change exactly when
    the answer holds no opening fence followed, somewhere, by a closing
    fence. *)
Theorem code_change_is_first_fence (text : string) :
  (forall body,
     suggestion_match text = Some body <->
     exists before after,
       text = before +:+ fence_open +:+ body +:+ fence_close +:+ after
       /\ first_at fence_open text (String.length before)
       /\ first_at fence_close (body +:+ fence_close +:+ after) (String.length body))
  /\ (suggestion_match text = None <->
      ~ exists before body after,
          text = before +:+ fence_open +:+ body +:+ fence_close +:+ after).
Proof.
  assert (forall body,
            suggestion_match text = Some body <->
            exists before after,
              text = before +:+ fence_open +:+ body +:+ fence_close +:+ after
              /\ first_at fence_open text (String.length before)
              /\ first_at fence_close (body +:+ fence_close +:+ after)
                   (String.length body)) as Hsome.
  { intros body. unfold suggestion_match. split.
    - destruct (find_sub fence_open text) as [[before rest] |] eqn:Ho; [| discriminate].
      destruct (find_sub fence_close rest) as [[body' after] |] eqn:Hc; [| discriminate].
      intros [= ->]. apply find_sub_first_at in Ho as [E1 F1].
      apply find_sub_first_at in Hc as [E2 F2]. subst rest.
      exists before, after. split; [exact E1 |]. split; assumption.
    - intros (before & after & E & F1 & F2).
      assert (find_sub fence_open text
              = Some (before, body +:+ fence_close +:+ after)) as ->
        by (apply find_sub_first_at; split; assumption).
      assert (find_sub fence_close (body +:+ fence_close +:+ after)
              = Some (body, after)) as ->
        by (apply find_sub_first_at; split; [reflexivity | assumption]).
      reflexivity. }
  split; [exact Hsome |]. split.
  - intros Hnone (before & body & after & E).
    unfold suggestion_match in Hnone.
    destruct (find_sub fence_open text) as [[b rest] |] eqn:Ho.
    + pose proof (find_sub_Some _ _ _ _ Ho) as E1.
      assert (String.length b <= String.length before) as Hle.
      { apply (find_sub_first _ _ _ _ _ Ho). exists before, (body +:+ fence_close +:+ after).
        split; [exact E | reflexivity]. }
      rewrite E1 in E. rewrite <- !append_assoc in E.
      rewrite !append_assoc in E.
      rewrite <- (append_assoc b), <- (append_assoc before) in E.
      destruct (append_split (b +:+ fence_open) (before +:+ fence_open) rest
                  (body +:+ fence_close +:+ after) E) as (x & _ & ->).
      { rewrite !length_append. lia. }
      destruct (find_sub_occurs fence_close (x +:+ body +:+ fence_close +:+ after)
                  (String.length (x +:+ body))) as [[b2 a2] Hc].
      { exists (x +:+ body), after. split; [rewrite append_assoc; reflexivity | reflexivity]. }
      rewrite Hc in Hnone. discriminate.
    + eapply (find_sub_None _ _ _ Ho).
      exists before, (body +:+ fence_close +:+ after). split; [exact E | reflexivity].
  - intros Hno. destruct (suggestion_match text) as [body |] eqn:Hm; [| reflexivity].
    exfalso. apply Hno. destruct (proj1 (Hsome body) eq_refl) as (before & after & E & _).
    exists before, body, after. exact E.
Qed.

Lemma trimStart_trimmed (s : string) : trimStart (trimStart s) = trimStart s.
Proof.
  induction s as [| c s IH]; [reflexivity |]. cbn [trimStart].
  destruct (is_space c) eqn:Hc; [exact IH |]. cbn [trimStart]. rewrite Hc. reflexivity.
Qed.

Lemma trimEnd_trimmed (s : string) : trimEnd (trimEnd s) = trimEnd s.
Proof.
  induction s as [| c s IH]; [reflexivity |]. cbn [trimEnd].
  destruct (trimEnd s) as [| c' r] eqn:Hs.
  - destruct (is_space c) eqn:Hc; [reflexivity |]. cbn [trimEnd]. rewrite Hc. reflexivity.
  - cbn [trimEnd] in *. rewrite IH. reflexivity.
Qed.

Lemma trimEnd_head (s : string) (c : ascii) (r : string) :
  trimStart s = s -> trimEnd s = String c r -> is_space c = false.
Proof.
  destruct s as [| c' s]; [discriminate |]. cbn [trimStart trimEnd].
  destruct (is_space c') eqn:Hc'.
  - intros Hs. exfalso.
    assert (String.length (trimStart s) <= String.length s) as Hle.
    { clear. induction s as [| x s IH]; cbn [trimStart]; [lia |].
      destruct (is_space x); cbn [String.length]; lia. }
    rewrite Hs in Hle. cbn in Hle. lia.
  - intros _. destruct (trimEnd s); intros [= <- _]; exact Hc'.
Qed.

Lemma trimStart_trimEnd (s : string) : trimStart s = s -> trimStart (trimEnd s) = trimEnd s.
Proof.
  intros Hs. destruct (trimEnd s) as [| c r] eqn:He; [reflexivity |].
  cbn [trimStart]. rewrite (trimEnd_head s c r Hs He). reflexivity.
Qed.

(** X22.  A reply resolves its thread exactly when the service is
    configured, the language model answers, and its answer starts with
    [RESOLVE:]; the message is then the answer without that marker and
    without white space at either end.  Any other answer is the message as
    it is. *)
Theorem reply_resolves_on_marker
    (service : LLMService) (threadData : CommentThreadData) (userMessage : string) :
  let out := getAIConversationResponse service threadData userMessage in
  (out.2 = true <->
   exists client text,
     genAI service = Some client
     /\ reply_text client userMessage (context_of threadData) = Ok text
     /\ startsWith text "RESOLVE:" = true)
  /\ (forall client text,
        genAI service = Some client ->
        reply_text client userMessage (context_of threadData) = Ok text ->
        out.1 = (if startsWith text "RESOLVE:" then trim (substring 8 text) else text)
        /\ (startsWith text "RESOLVE:" = true ->
            trimStart out.1 = out.1 /\ trimEnd out.1 = out.1)).
Proof.
  intros out. subst out. unfold getAIConversationResponse, handleConversationReply.
  cbv zeta. destruct (genAI service) as [client |]; cbn.
  - destruct (reply_text client userMessage (context_of threadData)) as [text | e] eqn:Ht;
      cbn.
    + split.
      * split.
        -- intros Hs. exists client, text. auto.
        -- intros (client' & text' & [= <-] & Ht' & Hs). rewrite Ht in Ht'.
           injection Ht' as <-. exact Hs.
      * intros client' text' [= <-] Ht'. rewrite Ht in Ht'. injection Ht' as <-.
        destruct (startsWith text "RESOLVE:") eqn:Hs.
        -- unfold remove_first. rewrite (find_sub_here _ _ Hs).
           change ("" +:+ ?x) with x. cbn [String.length].
           split; [reflexivity |]. intros _. unfold trim. split.
           ++ apply trimStart_trimEnd, trimStart_trimmed.
           ++ apply trimEnd_trimmed.
        -- split; [reflexivity | discriminate].
    + split.
      * split; [discriminate |].
        intros (client' & text' & [= <-] & Ht' & _). rewrite Ht in Ht'. discriminate.
      * intros client' text' [= <-] Ht'. rewrite Ht in Ht'. discriminate.
  - split.
    + split; [discriminate | intros (client & text & Hc & _); discriminate].
    + intros client text Hc. discriminate.
Qed.

(** X23.  After an AI fix on a thread the manager holds, the replacement
    of the suggestion is the content of the first suggestion fence of the
    answer of the language model, when there is one and it is not empty; the
    rest of the suggestion and the conversation are as before. *)
Theorem fix_stores_first_fence
    (service : LLMService) (contexts : nat -> ConversationContext)
    (messages : nat -> string) (base : Host) (m : CommentManager)
    (threadId : string) (d : CommentThreadData) (r : nat) (t : CommentThread)
    (client : Client) (text body : string) :
  threadData m !! threadId = Some d -> get_thread m threadId = Some (r, t) ->
  genAI service = Some client ->
  fix_text client (contexts (ticks m)) = Ok text ->
  suggestion_match text = Some body -> body <> "" ->
  threadData (fixWithAI (host_over service contexts messages base) threadId m).2
    !! threadId
  = Some {| suggestion := with_codeChange (Some body) (suggestion d);
            conversation := conversation d; isCollapsed := isCollapsed d |}.
Proof.
  intros Hd Hg Hc Ht Hm Hne.
  rewrite (fix_known _ m threadId d r t Hd Hg). cbn [snd threadData].
  unfold data_after_fix, host_over, generateComprehensiveFix.
  cbn [Comments.generateComprehensiveFix]. rewrite Hc, Ht. cbn. rewrite Hm. cbn.
  apply String.eqb_neq in Hne. rewrite Hne. cbn.
  rewrite lookup_alter_eq, Hd. reflexivity.
Qed.

Lemma fix_stores_first_fence_witness :
  codeChange <$>
    (suggestion <$>
      threadData
        (fixWithAI
           (host_over {| genAI := Some (client_saying sample_answer) |}
              (fun _ => context_of (data_for sample_suggestion 0)) (fun _ => "")
              sample_host)
           "codeowl_0" sample_manager_with_thread).2 !! "codeowl_0")
  = Some (Some "const x = 1;").
Proof.
  rewrite (fix_stores_first_fence {| genAI := Some (client_saying sample_answer) |}
             (fun _ => context_of (data_for sample_suggestion 0)) (fun _ => "")
             sample_host sample_manager_with_thread "codeowl_0"
             (data_for sample_suggestion 0) 0
             (thread_for sample_suggestion "/work/src/a.ts")
             (client_saying sample_answer) sample_answer "const x = 1;"
             ltac:(vm_compute; reflexivity) ltac:(vm_compute; reflexivity)
             eq_refl eq_refl ltac:(vm_compute; reflexivity) ltac:(discriminate)).
  reflexivity.
Defined.

End LLMProps.
(** ** Properties of finding the repository and setting up its listener *)

Module GitSetupProps.
Import Js DiffParser Git GitRuns GitSetup GitProps GitRunsProps.

Lemma setup_keeps_repository (repo : option RepoObject) (gi : Integration) :
  repository (setupRepositoryListeners repo gi).1 = repository gi
  /\ gitApi (setupRepositoryListeners repo gi).1 = gitApi gi
  /\ timers (setupRepositoryListeners repo gi).2 = [].
Proof.
  unfold setupRepositoryListeners. destruct repo as [repo |]; [| repeat split].
  destruct (rootUri repo); [| repeat split].
  destruct (state (calls repo)) as [st |]; [| repeat split].
  destruct (negb (onDidChange_is_function repo)); [repeat split |].
  destruct (truthy_str (HEAD st ≫= commit)); repeat split.
Qed.

(** What the polling does, from any call on. *)
Lemma polling_spec (repositories : nat -> list RepoObject) (fuel : nat) :
  forall (call : nat) (retriesLeft : Z) (gi : Integration),
  Z.to_nat retriesLeft <= fuel ->
  exists gi' evs err,
    findAndSetupRepository_from fuel repositories call retriesLeft gi
    = Some (gi', evs, err)
    /\ length (timers evs) <= Z.to_nat retriesLeft
    /\ Forall (fun ms => ms = 500%Z) (timers evs)
    /\ (gitApi gi = true ->
        forall k repo rest,
          (Z.of_nat k < retriesLeft)%Z ->
          (forall j, j < k -> repositories (call + j) = []) ->
          repositories (call + k) = repo :: rest ->
          length (timers evs) = k /\ repository gi' = Some repo)
    /\ (gitApi gi = false
        \/ (forall j, (Z.of_nat j < retriesLeft)%Z -> repositories (call + j) = []) ->
        length (timers evs) = Z.to_nat retriesLeft
        /\ gi' = gi /\ listened evs = [] /\ err = None).
Proof.
  induction fuel as [| fuel IH]; intros call retriesLeft gi Hfuel.
  - assert (retriesLeft <= 0)%Z as Hn by lia.
    cbn [findAndSetupRepository_from].
    apply Z.leb_le in Hn as Hb. rewrite Hb.
    eexists _, _, _. split; [reflexivity |]. cbn.
    split; [lia |]. split; [constructor |]. split; [intros _ k; lia |].
    intros _. replace (Z.to_nat retriesLeft) with 0 by lia. auto.
  - cbn [findAndSetupRepository_from].
    destruct (retriesLeft <=? 0)%Z eqn:Hb.
    + apply Z.leb_le in Hb.
      eexists _, _, _. split; [reflexivity |]. cbn.
      split; [lia |]. split; [constructor |]. split; [intros _ k; lia |].
      intros _. replace (Z.to_nat retriesLeft) with 0 by lia. auto.
    + apply Z.leb_gt in Hb.
      destruct (gitApi gi && (0 <? length (repositories call))%nat) eqn:Hfound.
      * apply andb_true_iff in Hfound as [Hapi Hlen]. apply Nat.ltb_lt in Hlen.
        destruct (repositories call) as [| repo0 rest0] eqn:Hrepos; [cbn in Hlen; lia |].
        cbn [lookup list_lookup set_repository repository mbind option_bind].
        assert (forall (gi' : Integration) (evs : list setup_event)
                       (err : option exn),
                  repository gi' = Some repo0 -> timers evs = [] ->
                  length (timers evs) <= Z.to_nat retriesLeft
                  /\ Forall (fun ms => ms = 500%Z) (timers evs)
                  /\ (gitApi gi = true ->
                      forall k repo rest,
                        (Z.of_nat k < retriesLeft)%Z ->
                        (forall j, j < k -> repositories (call + j) = []) ->
                        repositories (call + k) = repo :: rest ->
                        length (timers evs) = k /\ repository gi' = Some repo)
                  /\ (gitApi gi = false
                      \/ (forall j, (Z.of_nat j < retriesLeft)%Z ->
                                    repositories (call + j) = []) ->
                      length (timers evs) = Z.to_nat retriesLeft
                      /\ gi' = gi /\ listened evs = [] /\ err = None)) as Hdone.
        { intros gi' evs err Hrepo Htimers. rewrite Htimers. cbn [length].
          split; [lia |]. split; [constructor |]. split.
          - intros _ k repo rest Hk Hnone Hsome. destruct k as [| k].
            + rewrite Nat.add_0_r, Hrepos in Hsome. injection Hsome as <- <-. auto.
            + specialize (Hnone 0 ltac:(lia)). rewrite Nat.add_0_r, Hrepos in Hnone.
              discriminate.
          - intros [Hno | Hnone]; [congruence |].
            specialize (Hnone 0 ltac:(lia)). rewrite Nat.add_0_r, Hrepos in Hnone.
            discriminate. }
        destruct (rootUri repo0) as [u |] eqn:Hroot.
        -- pose proof (setup_keeps_repository (Some repo0)
                         {| gitApi := gitApi gi; repository := Some repo0;
                            watcher := watcher gi |}) as (Hr & _ & Ht).
           destruct (setupRepositoryListeners _ _) as [gi1 evs1].
           eexists _, _, _. split; [reflexivity |]. apply Hdone; assumption.
        -- eexists _, _, _. split; [reflexivity |]. apply Hdone; reflexivity.
      * destruct (IH (S call) (retriesLeft - 1)%Z gi ltac:(lia))
          as (gi' & evs & err & Hrun & Hle & Hall & Hfirst & Hnever).
        rewrite Hrun. eexists _, _, _. split; [reflexivity |].
        change (timers (Timer 500 :: evs)) with (500%Z :: timers evs). cbn [length].
        split; [lia |]. split; [constructor; [reflexivity | exact Hall] |]. split.
        -- intros Hapi k repo rest Hk Hnone Hsome. rewrite Hapi in Hfound.
           cbn [andb] in Hfound.
           assert (repositories call = []) as Hempty
             by (destruct (repositories call); [reflexivity | discriminate]).
           destruct k as [| k].
           ++ rewrite Nat.add_0_r, Hempty in Hsome. discriminate.
           ++ destruct (Hfirst Hapi k repo rest ltac:(lia)) as [Hlen Hrepo].
              ** intros j Hj. specialize (Hnone (S j) ltac:(lia)).
                 rewrite Nat.add_succ_r in Hnone. exact Hnone.
              ** rewrite Nat.add_succ_r in Hsome. exact Hsome.
              ** split; [lia | exact Hrepo].
        -- intros Hcase. destruct Hnever as (Hlen & Hgi & Hlisten & Herr).
           { destruct Hcase as [Hno | Hnone]; [left; exact Hno | right].
             intros j Hj. specialize (Hnone (S j) ltac:(lia)).
             rewrite Nat.add_succ_r in Hnone. exact Hnone. }
           split; [lia |]. auto.
Qed.

(** X24.  Looking for the repository ends, after at most [retriesLeft]
    waits of 500 ms: it stops at the first call that finds the list of
    repositories not empty, having waited once per call before, and takes
    the first repository of the list; when the list is empty at every one
    of the [retriesLeft] calls, or there is no API, it waits [retriesLeft]
    times and gives up, with nothing assigned and no listener. *)
Theorem polling_stops_at_first_repository
    (repositories : nat -> list RepoObject) (retriesLeft : Z) (gi : Integration) :
  exists gi' evs err,
    findAndSetupRepository repositories retriesLeft gi = Some (gi', evs, err)
    /\ length (timers evs) <= Z.to_nat retriesLeft
    /\ Forall (fun ms => ms = 500%Z) (timers evs)
    /\ (gitApi gi = true ->
        forall k repo rest,
          (Z.of_nat k < retriesLeft)%Z ->
          (forall j, j < k -> repositories j = []) ->
          repositories k = repo :: rest ->
          length (timers evs) = k /\ repository gi' = Some repo)
    /\ (gitApi gi = false
        \/ (forall j, (Z.of_nat j < retriesLeft)%Z -> repositories j = []) ->
        length (timers evs) = Z.to_nat retriesLeft
        /\ gi' = gi /\ listened evs = [] /\ err = None).
Proof.
  apply (polling_spec repositories (Z.to_nat retriesLeft) 0 retriesLeft gi (le_n _)).
Qed.




End GitSetupProps.
(** ** Properties of the file watcher *)

Module FileWatcherProps.
Import Js LLM FileWatcher GitProps LLMProps.

Lemma step_debounced (w : Watcher) (i : input) :
  debounced w ->
  debounced (step w i)
  /\ refreshes (step w i) + length (live (step w i))
     <= refreshes w + length (live w) + (if relevant i then 1 else 0).
Proof.
  intros Hw. destruct i as [path | id]; cbn [step relevant].
  - unfold scheduleUpdate. destruct (skipped path); cbn [negb].
    + split; [exact Hw | lia].
    + destruct Hw as [Hnone | (id & Hone & Hvar)].
      * destruct (updateTimeout w) as [id0 |]; cbn; rewrite Hnone; cbn.
        -- split; [right; eauto | lia].
        -- split; [right; eauto | lia].
      * rewrite Hvar. cbn. rewrite Hone. cbn.
        destruct (decide (id <> id)) as [Hne | _]; [congruence |]. cbn.
        split; [right; eauto | lia].
  - unfold fire. case_bool_decide as Hin; [| split; [exact Hw | lia]].
    destruct Hw as [Hnone | (id0 & Hone & Hvar)].
    + rewrite Hnone in Hin. inversion Hin.
    + rewrite Hone in Hin. apply list_elem_of_singleton in Hin. subst id0.
      cbn. rewrite Hone. cbn.
      destruct (decide (id <> id)) as [Hne | _]; [congruence |]. cbn.
      split; [left; reflexivity | lia].
Qed.

Lemma run_debounced (inputs : list input) (w : Watcher) :
  debounced w ->
  debounced (foldl step w inputs)
  /\ refreshes (foldl step w inputs) + length (live (foldl step w inputs))
     <= refreshes w + length (live w) + length (filter (fun i => relevant i = true) inputs).
Proof.
  revert w. induction inputs as [| i inputs IH]; intros w Hw; cbn [foldl].
  - split; [exact Hw | cbn; lia].
  - destruct (step_debounced w i Hw) as [Hw1 Hle1].
    destruct (IH _ Hw1) as [Hw2 Hle2]. split; [exact Hw2 |].
    rewrite filter_cons. destruct (relevant i); cbn.
    + destruct (decide (true = true)); [cbn; lia | congruence].
    + destruct (decide (false = true)); [discriminate | lia].
Qed.

(** X26.  However file events and timers follow each other, at most one
    refresh is pending at any time -- a file event that passes the filter
    cancels the one before it --, the pending one is the one the watcher
    remembers, and the refreshes made and pending never outnumber the file
    events that passed the filter. *)
Theorem refreshes_are_debounced (inputs : list input) :
  let w := run_watcher inputs in
  length (live w) <= 1
  /\ (forall id, id ∈ live w -> updateTimeout w = Some id)
  /\ refreshes w + length (live w)
     <= length (filter (fun i => relevant i = true) inputs).
Proof.
  intros w. subst w. unfold run_watcher.
  destruct (run_debounced inputs new_watcher (or_introl eq_refl)) as [Hw Hle].
  cbn in Hle. split; [| split; [| exact Hle]].
  - destruct Hw as [-> | (id & -> & _)]; cbn; lia.
  - intros id Hin. destruct Hw as [Hnone | (id0 & Hone & Hvar)].
    + rewrite Hnone in Hin. inversion Hin.
    + rewrite Hone in Hin. apply list_elem_of_singleton in Hin. congruence.
Qed.

Lemma includes_middle (before word after : string) :
  includes (before +:+ word +:+ after) word = true.
Proof.
  unfold includes.
  destruct (find_sub_occurs word (before +:+ word +:+ after) (String.length before))
    as [found ->]; [| reflexivity].
  exists before, after. split; reflexivity.
Qed.

(** X27.  A path that holds one of the words [node_modules], [.git],
    [.vscode], [out] or [dist] anywhere -- as the name of a directory above
    the file or as a part of any name -- schedules nothing and cancels
    nothing. *)
Theorem paths_with_ignored_words_do_nothing
    (word before after : string) (w : Watcher) :
  word ∈ ignored_words ->
  scheduleUpdate (before +:+ word +:+ after) w = w.
Proof.
  intros Hin. unfold scheduleUpdate.
  assert (skipped (before +:+ word +:+ after) = true) as ->; [| reflexivity].
  unfold skipped, ignored_words in *.
  repeat (apply elem_of_cons in Hin as [-> | Hin];
          [rewrite includes_middle; rewrite ?orb_true_r; reflexivity |]).
  inversion Hin.
Qed.

Lemma paths_with_ignored_words_do_nothing_witness :
  scheduleUpdate "/work/src/layout.ts" (run_watcher [FileEvent "/work/src/a.ts"])
  = run_watcher [FileEvent "/work/src/a.ts"].
Proof.
  apply (paths_with_ignored_words_do_nothing "out" "/work/src/lay" ".ts").
  unfold ignored_words. do 3 apply list_elem_of_further. apply list_elem_of_here.
Defined.

End FileWatcherProps.
(** ** Parsing the diffs of several files in one text: properties *)

Module DiffComposeProps.
Import Js DiffParser DiffScan Git DiffCompose DiffParserProps GitProps DiffScanProps.

Lemma lookup_behind {A : Type} (S s : list A) (r : nat) :
  (S ++ s) !! (length S + r) = s !! r.
Proof. rewrite lookup_app_r by lia. f_equal. lia. Qed.

(** One turn of the loop keeps the two parsers in step. *)
Lemma parse_line_sim (S : list DiffHunk) (P : list (ParsedDiff nat))
    (small big small' : Locals) (line : string) :
  sim S P small big -> parse_line small line = Ok small' ->
  exists big', parse_line big line = Ok big' /\ sim S P small' big'.
Proof.
  intros [Hs Hp Hf Hh Hn] H.
  destruct big as [bs bp bf bh bon bnn]. cbn in Hs, Hp, Hf, Hh, Hn.
  parse_line_branches small H; cbn in Hs, Hp, Hf, Hh, Hn; subst bs bp bf bh;
    try (destruct Hn as [-> ->]; [solve [eauto] |]);
    unfold parse_line, push_currentHunk, push_currentFile, assign_status,
      incr_addedLines, incr_removedLines, push_to_currentHunk, truthy, deref,
      mbind, result_bind, mret, result_ret;
    cbn -[startsWith header_path hunk_header_match parseInt incr substring];
    use_tests;
    cbn -[startsWith header_path hunk_header_match parseInt incr substring];
    rewrite ?lookup_behind;
    repeat match goal with
           | H : hunk_header_match _ = _ |- _ => rewrite H
           | H : _ !! _ = _ |- _ => rewrite H
           end;
    cbn -[startsWith header_path hunk_header_match parseInt incr substring];
    (eexists; split; [reflexivity |]);
    (split; cbn -[parseInt incr substring header_path];
     rewrite ?fmap_app, ?length_app, ?insert_app_r, <- ?app_assoc;
     try reflexivity; try (intros [? [=]]); auto;
     unfold shift_file; cbn -[parseInt incr substring header_path];
     rewrite ?fmap_app; reflexivity).
Qed.


Lemma parse_lines_sim (S : list DiffHunk) (P : list (ParsedDiff nat))
    (ls : list string) (small big small' : Locals) :
  sim S P small big -> parse_lines small ls = Ok small' ->
  exists big', parse_lines big ls = Ok big' /\ sim S P small' big'.
Proof.
  revert small big. induction ls as [| line ls IH]; intros small big Hsim; cbn [parse_lines].
  - intros [= <-]. eauto.
  - unfold mbind, result_bind.
    destruct (parse_line small line) as [small1 |] eqn:H1; [| discriminate].
    destruct (parse_line_sim S P small big small1 line Hsim H1) as (big1 & -> & Hsim1).
    apply IH, Hsim1.
Qed.

Lemma finish_sim (S : list DiffHunk) (P : list (ParsedDiff nat))
    (small big small' : Locals) :
  sim S P small big -> finish small = Ok small' ->
  exists big', finish big = Ok big'
    /\ store big' = S ++ store small'
    /\ parsedDiffs big' = P ++ (shift_file (length S) <$> parsedDiffs small').
Proof.
  intros [Hs Hp Hf Hh Hn].
  destruct big as [bs bp bf bh bon bnn], small as [s p [f |] [r |] on nn];
    cbn in Hs, Hp, Hf, Hh, Hn; subst bs bp bf bh; cbn; intros [= <-];
    (eexists; split; [reflexivity |]); cbn; rewrite ?fmap_app, <- ?app_assoc;
    unfold shift_file; cbn; rewrite ?fmap_app; auto.
Qed.

(** A header line closes what came before as the end of the text does. *)
Lemma header_step (st fin : Locals) (line : string) :
  is_header line = true -> is_Some (currentFile st) -> finish st = Ok fin ->
  exists small big,
    parse_line initial line = Ok small /\ parse_line st line = Ok big
    /\ sim (store st) (parsedDiffs fin) small big.
Proof.
  unfold is_header. intros Hh [f Hf].
  destruct st as [s p cf [r |] on nn]; cbn in Hf; subst cf; cbn; intros [= <-];
    unfold parse_line; rewrite Hh; cbn -[header_path];
    (eexists _, _; split; [reflexivity |]; split; [reflexivity |]);
    (split; cbn -[header_path]; rewrite ?app_nil_r; try reflexivity;
     intros [? [=]]).
Qed.

Lemma parse_line_keeps_file (st st' : Locals) (line : string) :
  parse_line st line = Ok st' ->
  is_header line = true \/ is_Some (currentFile st) -> is_Some (currentFile st').
Proof.
  unfold is_header. intros H Hor.
  parse_line_branches st H; cbn; eauto;
    destruct Hor as [Hh | [? [=]]]; congruence.
Qed.

Lemma parse_lines_keeps_file (ls : list string) (st st' : Locals) :
  parse_lines st ls = Ok st' -> is_Some (currentFile st) -> is_Some (currentFile st').
Proof.
  revert st. induction ls as [| line ls IH]; intros st; cbn [parse_lines].
  - intros [= <-]. auto.
  - unfold mbind, result_bind. destruct (parse_line st line) as [st1 |] eqn:H1;
      [| discriminate].
    intros H Hf. apply (IH st1 H). eapply parse_line_keeps_file; eauto.
Qed.

Lemma read_file_behind (S s : list DiffHunk) (f : ParsedDiff nat) :
  read_file (S ++ s) (shift_file (length S) f) = read_file s f.
Proof.
  unfold read_file, shift_file. cbn.
  assert (mapM (fun r => deref "hunk object" ((S ++ s) !! r))
               ((fun r => length S + r) <$> hunks f)
          = mapM (fun r => deref "hunk object" (s !! r)) (hunks f)) as ->;
    [| reflexivity].
  induction (hunks f) as [| r rs IH]; [reflexivity |].
  cbn [fmap list_fmap mapM]. rewrite lookup_behind.
  change (list_fmap nat nat (fun r => length S + r) rs)
    with ((fun r => length S + r) <$> rs).
  rewrite IH. reflexivity.
Qed.

Lemma read_file_before (S s : list DiffHunk) (f : ParsedDiff nat)
    (out : ParsedDiff DiffHunk) :
  read_file S f = Ok out -> read_file (S ++ s) f = Ok out.
Proof.
  unfold read_file. intros H.
  destruct (mapM (fun r => deref "hunk object" (S !! r)) (hunks f)) as [hs |] eqn:Hhs;
    [| discriminate H].
  cbn in H. injection H as <-.
  assert (mapM (fun r => deref "hunk object" ((S ++ s) !! r)) (hunks f) = Ok hs) as ->;
    [| reflexivity].
  apply mapM_Ok. apply mapM_Ok in Hhs. eapply Forall2_impl; [exact Hhs |].
  intros r h. cbn. unfold deref. destruct (S !! r) as [h' |] eqn:Hr; [| discriminate].
  intros [= <-]. rewrite (lookup_app_l_Some _ _ _ _ Hr). reflexivity.
Qed.

(** The lines of two texts parsed as one, when each starts with a file
    header. *)
Lemma parse_all_app (la lb : list string) (ha hb : string) (ta tb : list string) :
  la = ha :: ta -> is_header ha = true ->
  lb = hb :: tb -> is_header hb = true ->
  exists fa fb,
    parse_all la = Ok fa /\ parse_all lb = Ok fb /\ parse_all (la ++ lb) = Ok (fa ++ fb).
Proof.
  intros Ea Ha Eb Hb.
  destruct (parse_lines_Inv la initial Inv_initial) as (st_a & Hrun_a & Inv_a).
  destruct (finish_Inv st_a Inv_a) as (fin_a & Hfin_a & Inv_fin_a).
  destruct (read_files_ok (store fin_a) (parsedDiffs fin_a) (inv_parsed _ Inv_fin_a))
    as (fa & Hread_a & _).
  destruct (parse_lines_Inv lb initial Inv_initial) as (st_b & Hrun_b & Inv_b).
  destruct (finish_Inv st_b Inv_b) as (fin_b & Hfin_b & Inv_fin_b).
  destruct (read_files_ok (store fin_b) (parsedDiffs fin_b) (inv_parsed _ Inv_fin_b))
    as (fb & Hread_b & _).
  exists fa, fb.
  assert (parse_all la = Ok fa) as Hpa.
  { unfold parse_all. rewrite Hrun_a. cbn. rewrite Hfin_a. cbn. exact Hread_a. }
  assert (parse_all lb = Ok fb) as Hpb.
  { unfold parse_all. rewrite Hrun_b. cbn. rewrite Hfin_b. cbn. exact Hread_b. }
  split; [exact Hpa |]. split; [exact Hpb |].
  assert (is_Some (currentFile st_a)) as Hfile.
  { subst la. cbn [parse_lines] in Hrun_a. unfold mbind, result_bind in Hrun_a.
    destruct (parse_line initial ha) as [st1 |] eqn:H1; [| discriminate].
    apply (parse_lines_keeps_file ta st1 st_a Hrun_a).
    eapply parse_line_keeps_file; eauto. }
  destruct (header_step st_a fin_a hb Hb Hfile Hfin_a)
    as (small0 & big0 & Hsmall0 & Hbig0 & Hsim0).
  subst lb. cbn [parse_lines] in Hrun_b. rewrite Hsmall0 in Hrun_b. cbn in Hrun_b.
  destruct (parse_lines_sim _ _ tb small0 big0 st_b Hsim0 Hrun_b)
    as (big1 & Hbig1 & Hsim1).
  destruct (finish_sim _ _ st_b big1 fin_b Hsim1 Hfin_b)
    as (big2 & Hbig2 & Hstore & Hparsed).
  unfold parse_all. rewrite parse_lines_app, Hrun_a. cbn [mbind result_bind].
  cbn [parse_lines]. rewrite Hbig0. cbn [mbind result_bind]. rewrite Hbig1.
  cbn [mbind result_bind]. rewrite Hbig2. cbn [mbind result_bind].
  rewrite Hstore, Hparsed. apply mapM_Ok. apply Forall2_app.
  - apply mapM_Ok in Hread_a. rewrite (finish_store _ _ Hfin_a) in Hread_a.
    eapply Forall2_impl; [exact Hread_a |]. intros f0 f. apply read_file_before.
  - apply Forall2_fmap_l. apply mapM_Ok in Hread_b.
    eapply Forall2_impl; [exact Hread_b |]. intros f0 f Hf.
    change (read_file (store st_a ++ store fin_b)
              (shift_file (length (store st_a)) f0) = Ok f).
    rewrite read_file_behind. exact Hf.
Qed.

Lemma split_append (sep : ascii) (a b : string) :
  split sep (a +:+ String sep b) = split sep a ++ split sep b.
Proof.
  induction a as [| c a IH].
  - change ("" +:+ String sep b) with (String sep b). cbn.
    rewrite Ascii.eqb_refl. reflexivity.
  - rewrite append_cons. cbn [split]. destruct (Ascii.eqb c sep).
    + rewrite IH. reflexivity.
    + rewrite IH. destruct (split sep a) as [| w ws] eqn:Hs.
      * exfalso. eapply split_nonempty, Hs.
      * reflexivity.
Qed.

Lemma split_starts (s : string) :
  starts_with_header s ->
  exists h t, split "010" s = h :: t /\ is_header h = true.
Proof.
  unfold starts_with_header, is_header. intros H.
  rewrite (LLMProps.startsWith_split s "diff --git" H).
  generalize (substring (String.length "diff --git") s). intros rest.
  assert (forall p, free_of "010" p = true ->
            exists h t, split "010" (p +:+ rest) = h :: t /\ startsWith h p = true)
    as Hgen.
  { induction p as [| c p IH]; intros Hp.
    - destruct (split "010" ("" +:+ rest)) as [| h t] eqn:Hs.
      + exfalso. eapply split_nonempty, Hs.
      + exists h, t. split; [reflexivity |]. destruct h; reflexivity.
    - cbn [free_of] in Hp. apply andb_true_iff in Hp as [Hc Hp].
      destruct (IH Hp) as (h & t & Hs & Hh).
      rewrite append_cons. cbn [split]. apply negb_true_iff in Hc. rewrite Hc, Hs.
      exists (String c h), t. split; [reflexivity |].
      unfold startsWith in *. cbn [String.prefix].
      destruct (ascii_dec c c); [exact Hh | congruence]. }
  apply Hgen. reflexivity.
Qed.

Lemma parsed_parse_all (text : string) (files : list (ParsedDiff DiffHunk)) :
  parse_all (split "010" text) = Ok files -> parsed text = files.
Proof. unfold parsed. rewrite parseDiffText_parse_all. intros ->. reflexivity. Qed.

(** X29.  Parsing is compositional over files: the text made of the
    diffs of several files, each followed by a newline -- the text the
    acquisition of a commit hands to the parser --, parses to the files that
    each diff parses to on its own, in order, as long as each diff starts
    with a file header.  Nothing of one diff leaks into the files of the
    next. *)
Theorem parse_of_concatenation (diffs : list string) :
  Forall starts_with_header diffs ->
  parseDiffText (full_text diffs) = Ok (concat (parsed <$> diffs)).
Proof.
  intros Hall. rewrite parseDiffText_parse_all. unfold full_text, concat_all.
  induction Hall as [| d ds Hd Hds IH]; [reflexivity |].
  rewrite !fmap_cons. cbn [foldr concat].
  unfold nl at 1. rewrite append_assoc.
  change (String "010" "" +:+ ?x) with (String "010" x).
  rewrite split_append.
  destruct (split_starts d Hd) as (ha & ta & Ea & Ha).
  destruct ds as [| d2 ds].
  - cbn [fmap list_fmap foldr concat]. rewrite app_nil_r.
    change (split "010" "") with [""].
    rewrite (parse_all_without (split "010" d) [] "" eq_refl), app_nil_r.
    destruct (parse_lines_Inv (split "010" d) initial Inv_initial) as (st & Hrun & HI).
    destruct (finish_Inv st HI) as (fin & Hfin & HIfin).
    destruct (read_files_ok (store fin) (parsedDiffs fin) (inv_parsed _ HIfin))
      as (files & Hread & _).
    assert (parse_all (split "010" d) = Ok files) as Hp.
    { unfold parse_all. rewrite Hrun. cbn. rewrite Hfin. cbn. exact Hread. }
    rewrite Hp. f_equal. symmetry. apply parsed_parse_all, Hp.
  - assert (exists hb tb,
              split "010" (foldr String.append ""
                             ((fun fileDiff => fileDiff +:+ nl) <$> d2 :: ds))
              = hb :: tb /\ is_header hb = true) as (hb & tb & Eb & Hb).
    { apply split_starts. unfold starts_with_header.
      rewrite fmap_cons. cbn [foldr]. rewrite append_assoc.
      inversion Hds as [| ? ? Hd2 _]; subst.
      rewrite (LLMProps.startsWith_split d2 "diff --git" Hd2), append_assoc.
      apply LLMProps.startsWith_append. }
    destruct (parse_all_app _ _ ha hb ta tb Ea Ha Eb Hb) as (fa & fb & Hpa & Hpb & Hpab).
    rewrite Hpab. f_equal. rewrite IH in Hpb. injection Hpb as <-.
    f_equal. symmetry. apply parsed_parse_all, Hpa.
Qed.

Lemma parse_of_concatenation_witness :
  parseDiffText (diff_of_a +:+ nl +:+ diff_of_b +:+ nl)
  = Ok (parsed diff_of_a ++ parsed diff_of_b).
Proof.
  pose proof (parse_of_concatenation [diff_of_a; diff_of_b]) as H.
  unfold full_text, concat_all in H. rewrite !fmap_cons in H.
  cbn [fmap list_fmap foldr concat] in H.
  rewrite app_nil_r, append_empty_r, append_assoc in H. apply H.
  repeat constructor.
Defined.

End DiffComposeProps.
(** ** Properties of the review threads with the suggestion objects in a
    store *)

Module SharedProps.
Import Js Comments Shared.


(** *** The methods that touch no suggestion object *)






















(** *** [fixWithAI] *)







End SharedProps.
